(** * pyParareal: the Runge-Kutta stepper and the Parareal coordinator

    A shallow embedding of [Parareal.py] (functions [CoarseSolver],
    [FineSolver], [RungeKutta] and [Parareal]), the properties of its
    specification, proved or refuted on the embedding, and further
    properties of the four functions, read off the code.

    Conventions.
    - Numbers.  The program computes with numpy's float64.  The embedding is
      written once over an interface [Arith] of the float operations the
      program uses; [binary64] instantiates it with the kernel's IEEE-754
      binary64 numbers, on which the examples are evaluated.
    - Arrays.  A one-dimensional array is a [list] of numbers, a
      two-dimensional one the list of its rows.  Where the program shares an
      array between caller and callee (the state vector handed to
      [RungeKutta]) the array lives in a store and is named by a location.
    - Exceptions.  A Python exception is the [Raise] case of [result].
    - Not embedded: the wall-clock timings ([time.time()], the arrays
      [timesG], [timesF] and the three timing entries of the dictionary),
      the progress and 'Done.' prints (a message printed just before a
      [return] is kept with the [None] that is returned).
    - The process pool.  What the branch [parallel == True] takes from
      outside the arguments of [Parareal] is a parameter [host] of the run:
      the number of CPUs, whether the tasks can be pickled, and which of the
      chunks that failed came back first. *)

From Stdlib Require Import ZArith Floats String Lia.
From stdpp Require Import base list gmap.

Local Open Scope Z_scope.

(** ** Exceptions *)

Inductive exn : Type :=
  | ZeroDivisionError
  | ValueError
  | OverflowError
  | IndexError
  | TypeError
  | PicklingError.

Inductive result (A : Type) : Type :=
  | Ok (a : A)
  | Raise (e : exn).

Arguments Ok {A} a.
Arguments Raise {A} e.

Definition rbind {A B : Type} (m : result A) (k : A → result B) : result B :=
  match m with
  | Ok a => k a
  | Raise e => Raise e
  end.

Notation "'let!' x := m 'in' k" := (rbind m (fun x => k))
  (at level 10, x name, m at level 200, k at level 200).

(** A loop [for x in l] whose body may raise, threading the loop state. *)
Fixpoint for_each {A B : Type} (body : A → B → result A) (l : list B)
    (a : A) : result A :=
  match l with
  | [] => Ok a
  | x :: l' => let! a' := body a x in for_each body l' a'
  end.

(** ** The arithmetic of the program *)

Class Arith (F : Type) : Type := {
  of_int : Z → F;                 (* an int used where a float is expected *)
  nan : F;                        (* np.nan *)
  add : F → F → F;
  sub : F → F → F;
  mul : F → F → F;
  div : F → F → F;                (* numpy's division: never raises *)
  sqrt : F → F;                   (* np.sqrt *)
  absf : F → F;                   (* np.abs *)
  maximum : F → F → F;            (* np.maximum, which propagates NaN *)
  ltb : F → F → bool;             (* x < y *)
  isnan : F → bool;               (* np.isnan *)
  isfinite : F → bool;            (* np.isfinite *)
  int_of : F → result Z;          (* int(x): truncation towards zero *)
  ceil_of : F → result Z          (* the length computed by np.arange *)
}.

(** *** IEEE-754 binary64 *)

Module binary64.

Definition of_Z (z : Z) : float :=
  SF2Prim (binary_normalize prec emax z 0 false).

(** [m * 2^e] rounded towards zero, [m > 0]. *)
Definition magnitude_floor (m : positive) (e : Z) : Z :=
  match e with
  | Z0 => Zpos m
  | Zpos p => Zpos m * 2 ^ Zpos p
  | Zneg p => Zpos m / 2 ^ Zpos p
  end.

Definition exact (m : positive) (e : Z) : bool :=
  match e with
  | Zneg p => Zpos m mod 2 ^ Zpos p =? 0
  | _ => true
  end.

Definition trunc (x : float) : result Z :=
  match Prim2SF x with
  | S754_zero _ => Ok 0
  | S754_nan => Raise ValueError
  | S754_infinity _ => Raise OverflowError
  | S754_finite s m e =>
      let v := magnitude_floor m e in Ok (if s then - v else v)
  end.

Definition ceil (x : float) : result Z :=
  match Prim2SF x with
  | S754_zero _ => Ok 0
  | S754_nan => Raise ValueError
  | S754_infinity _ => Raise ValueError
  | S754_finite s m e =>
      let v := magnitude_floor m e in
      Ok (if s then - v else if exact m e then v else v + 1)
  end.

Definition fmax (x y : float) : float :=
  if PrimFloat.is_nan x then x
  else if PrimFloat.is_nan y then y
  else if PrimFloat.ltb x y then y else x.

Definition finite (x : float) : bool :=
  negb (PrimFloat.is_nan x) && negb (PrimFloat.is_infinity x).

#[export] Instance arith : Arith float := {|
  of_int := of_Z;
  nan := PrimFloat.nan;
  add := PrimFloat.add;
  sub := PrimFloat.sub;
  mul := PrimFloat.mul;
  div := PrimFloat.div;
  sqrt := PrimFloat.sqrt;
  absf := PrimFloat.abs;
  maximum := fmax;
  ltb := PrimFloat.ltb;
  isnan := PrimFloat.is_nan;
  isfinite := finite;
  int_of := trunc;
  ceil_of := ceil
|}.

End binary64.

(** ** Arrays *)

Declare Scope arith_scope.
Delimit Scope arith_scope with A.
Notation "x + y" := (add x y) : arith_scope.
Notation "x - y" := (sub x y) : arith_scope.
Notation "x * y" := (mul x y) : arith_scope.
Notation "x / y" := (div x y) : arith_scope.
Abbreviation fl := of_int (only parsing).

(** Store locations: the identity of a one-dimensional numpy array. *)
Definition loc : Type := nat.

Section Arrays.
Context {F : Type} `{Arith F}.

#[local] Instance F_inhabited : Inhabited F := populate nan.

(** [np.zeros(n)] *)
Definition zeros (n : nat) : list F := replicate n (fl 0).

(** [x + y] on arrays of one shape. *)
Definition vadd (x y : list F) : list F := zip_with add x y.

(** [x - y] on arrays of one shape. *)
Definition vsub (x y : list F) : list F := zip_with sub x y.

(** [s * x], a scalar times an array. *)
Definition vscale (s : F) (x : list F) : list F := (mul s) <$> x.

(** [row[start:stop]]; like Python's slices it clips to the row. *)
Definition slice (start stop : nat) (row : list F) : list F :=
  take (stop - start) (drop start row).

(** [row[start:start+len(v)] = v]. *)
Definition set_slice (start : nat) (v row : list F) : list F :=
  take start row ++ v ++ drop (start + length v) row.

(** [np.tile(v, reps)] *)
Definition tile (v : list F) (reps : nat) : list F :=
  mjoin (replicate reps v).

(** The assignment [k[:, i] = v] into a column of [dim] entries: numpy
    takes [v] when it has [dim] entries, repeats it when it has one entry,
    and raises otherwise. *)
Definition broadcast (dim : nat) (v : list F) : result (list F) :=
  if decide (length v = dim) then Ok v
  else match v with
       | [x] => Ok (replicate dim x)
       | _ => Raise ValueError
       end.

(** [np.sum] of a one-dimensional array: the reduction starts from the
    first entry; the sum of no entry is 0. *)
Definition np_sum (l : list F) : F :=
  match l with
  | [] => (fl 0)
  | x :: xs => foldl add x xs
  end.

End Arrays.

(** ** The tableau registry *)

Record tableau (F : Type) : Type := Tableau {
  tab_a : list (list F);
  tab_b : list F;
  tab_c : list F
}.
Arguments Tableau {F} _ _ _.
Arguments tab_a {F} _.
Arguments tab_b {F} _.
Arguments tab_c {F} _.

Section Tableaux.
Context {F : Type} `{Arith F}.
Local Open Scope arith_scope.

(** The float literals 0.5, 0.25, 0.125 and 0.75 are the binary64 values
    of 1/2, 1/4, 1/8 and 3/4. *)
Definition lit_0_5 : F := fl 1 / fl 2.
Definition lit_0_25 : F := fl 1 / fl 4.
Definition lit_0_125 : F := fl 1 / fl 8.
Definition lit_0_75 : F := fl 3 / fl 4.

(** For 'RK1' the program's [a] is the one-dimensional [np.array([0])]; it
    is never indexed, as the stage loop is empty when [len(b) = 1]. *)
Definition RK1 : tableau F :=
  Tableau [[fl 0]] [fl 1] [fl 0].

Definition RK2 : tableau F :=
  Tableau [[fl 0; fl 0]; [lit_0_5; fl 0]]
          [fl 0; fl 1]
          [fl 0; lit_0_5].

Definition RK3 : tableau F :=
  Tableau [[fl 0; fl 0; fl 0]; [lit_0_5; fl 0; fl 0]; [fl (-1); fl 2; fl 0]]
          [fl 1 / fl 6; fl 2 / fl 3; fl 1 / fl 6]
          [fl 0; lit_0_5; fl 1].

Definition RK4 : tableau F :=
  Tableau [[fl 0; fl 0; fl 0; fl 0]; [lit_0_5; fl 0; fl 0; fl 0];
           [fl 0; lit_0_5; fl 0; fl 0]; [fl 0; fl 0; fl 1; fl 0]]
          [fl 1 / fl 6; fl 1 / fl 3; fl 1 / fl 3; fl 1 / fl 6]
          [fl 0; lit_0_5; lit_0_5; fl 1].

Definition RK5 : tableau F :=
  Tableau [[fl 0; fl 0; fl 0; fl 0; fl 0; fl 0];
           [lit_0_25; fl 0; fl 0; fl 0; fl 0; fl 0];
           [lit_0_125; lit_0_125; fl 0; fl 0; fl 0; fl 0];
           [fl 0; fl 0; lit_0_5; fl 0; fl 0; fl 0];
           [fl 3 / fl 16; fl (-3) / fl 8; fl 3 / fl 8; fl 9 / fl 16; fl 0;
            fl 0];
           [fl (-3) / fl 7; fl 8 / fl 7; fl 6 / fl 7; fl (-12) / fl 7;
            fl 8 / fl 7; fl 0]]
          ((fun x => x / fl 90) <$> [fl 7; fl 0; fl 32; fl 12; fl 32; fl 7])
          [fl 0; lit_0_25; lit_0_25; lit_0_5; lit_0_75; fl 1].

Definition RK6 : tableau F :=
  Tableau [[fl 0; fl 0; fl 0; fl 0; fl 0; fl 0; fl 0];
           [fl 1 / fl 3; fl 0; fl 0; fl 0; fl 0; fl 0; fl 0];
           [fl 0; fl 2 / fl 3; fl 0; fl 0; fl 0; fl 0; fl 0];
           [fl 1 / fl 12; fl 1 / fl 3; fl (-1) / fl 12; fl 0; fl 0; fl 0;
            fl 0];
           [fl 25 / fl 48; fl (-55) / fl 24; fl 35 / fl 48; fl 15 / fl 8;
            fl 0; fl 0; fl 0];
           [fl 3 / fl 20; fl (-11) / fl 24; fl (-1) / fl 8; fl 1 / fl 2;
            fl 1 / fl 10; fl 0; fl 0];
           [fl (-261) / fl 260; fl 33 / fl 13; fl 43 / fl 156;
            fl (-118) / fl 39;
            fl 32 / fl 195; fl 80 / fl 39; fl 0]]
          [fl 13 / fl 200; fl 0; fl 11 / fl 40; fl 11 / fl 40; fl 4 / fl 25;
           fl 4 / fl 25;
           fl 13 / fl 200]
          [fl 0; fl 1 / fl 3; fl 2 / fl 3; fl 1 / fl 3; fl 5 / fl 6;
           fl 1 / fl 6; fl 1].

Definition RK7 : tableau F :=
  Tableau [[fl 0; fl 0; fl 0; fl 0; fl 0; fl 0; fl 0; fl 0; fl 0];
           [fl 1 / fl 6; fl 0; fl 0; fl 0; fl 0; fl 0; fl 0; fl 0; fl 0];
           [fl 0; fl 1 / fl 3; fl 0; fl 0; fl 0; fl 0; fl 0; fl 0; fl 0];
           [fl 1 / fl 8; fl 0; fl 3 / fl 8; fl 0; fl 0; fl 0; fl 0; fl 0;
            fl 0];
           [fl 148 / fl 1331; fl 0; fl 150 / fl 1331; fl (-56) / fl 1331;
            fl 0; fl 0; fl 0;
            fl 0; fl 0];
           [fl (-404) / fl 243; fl 0; fl (-170) / fl 27; fl 4024 / fl 1701;
            fl 10648 / fl 1701; fl 0; fl 0; fl 0; fl 0];
           [fl 2466 / fl 2401; fl 0; fl 1242 / fl 343; fl (-19176) / fl 16807;
            fl (-51909) / fl 16807; fl 1053 / fl 2401; fl 0; fl 0; fl 0];
           [fl 5 / fl 154; fl 0; fl 0; fl 96 / fl 539; fl (-1815) / fl 20384;
            fl (-405) / fl 2464; fl 49 / fl 1144; fl 0; fl 0];
           [fl (-113) / fl 32; fl 0; fl (-195) / fl 22; fl 32 / fl 7;
            fl 29403 / fl 3584;
            fl (-729) / fl 512; fl 1029 / fl 1408; fl 21 / fl 16; fl 0]]
          [fl 0; fl 0; fl 0; fl 32 / fl 105; fl 1771561 / fl 6289920;
           fl 243 / fl 2560;
           fl 16807 / fl 74880; fl 77 / fl 1440; fl 11 / fl 270]
          [fl 0; fl 1 / fl 6; fl 1 / fl 3; fl 1 / fl 2; fl 2 / fl 11;
           fl 2 / fl 3; fl 6 / fl 7; fl 0;
           fl 1].

Definition RK8 : tableau F :=
  let s := sqrt (fl 21) in
  Tableau [[fl 0; fl 0; fl 0; fl 0; fl 0; fl 0; fl 0; fl 0; fl 0; fl 0; fl 0];
           [fl 1 / fl 2; fl 0; fl 0; fl 0; fl 0; fl 0; fl 0; fl 0; fl 0;
            fl 0; fl 0];
           [fl 1 / fl 4; fl 1 / fl 4; fl 0; fl 0; fl 0; fl 0; fl 0; fl 0;
            fl 0; fl 0; fl 0];
           [fl 1 / fl 7; (fl (-7) - fl 3 * s) / fl 98;
            (fl 21 + fl 5 * s) / fl 49; fl 0;
            fl 0; fl 0; fl 0; fl 0; fl 0; fl 0; fl 0];
           [(fl 11 + s) / fl 84; fl 0; (fl 18 + fl 4 * s) / fl 63;
            (fl 21 - s) / fl 252;
            fl 0; fl 0; fl 0; fl 0; fl 0; fl 0; fl 0];
           [(fl 5 + s) / fl 48; fl 0; (fl 9 + s) / fl 36;
            (fl (-231) + fl 14 * s) / fl 360;
            (fl 63 - fl 7 * s) / fl 80; fl 0; fl 0; fl 0; fl 0; fl 0; fl 0];
           [(fl 10 - s) / fl 42; fl 0; (fl (-432) + fl 92 * s) / fl 315;
            (fl 633 - fl 145 * s) / fl 90; (fl (-504) + fl 115 * s) / fl 70;
            (fl 63 - fl 13 * s) / fl 35; fl 0; fl 0; fl 0; fl 0; fl 0];
           [fl 1 / fl 14; fl 0; fl 0; fl 0; (fl 14 - fl 3 * s) / fl 126;
            (fl 13 - fl 3 * s) / fl 63; fl 1 / fl 9; fl 0; fl 0; fl 0; fl 0];
           [fl 1 / fl 32; fl 0; fl 0; fl 0; (fl 91 - fl 21 * s) / fl 576;
            fl 11 / fl 72;
            (fl (-385) - fl 75 * s) / fl 1152; (fl 63 + fl 13 * s) / fl 128;
             fl 0; fl 0;
            fl 0];
           [fl 1 / fl 14; fl 0; fl 0; fl 0; fl 1 / fl 9;
            (fl (-733) - fl 147 * s) / fl 2205;
            (fl 515 + fl 111 * s) / fl 504; (fl (-51) - fl 11 * s) / fl 56;
            (fl 132 + fl 28 * s) / fl 245; fl 0; fl 0];
           [fl 0; fl 0; fl 0; fl 0; (fl (-42) + fl 7 * s) / fl 18;
            (fl (-18) + fl 28 * s) / fl 45; (fl (-273) - fl 53 * s) / fl 72;
            (fl 301 + fl 53 * s) / fl 72; (fl 28 - fl 28 * s) / fl 45;
            (fl 49 - fl 7 * s) / fl 18; fl 0]]
          [fl 1 / fl 20; fl 0; fl 0; fl 0; fl 0; fl 0; fl 0; fl 49 / fl 180;
           fl 16 / fl 45;
           fl 49 / fl 180; fl 1 / fl 20]
          [fl 0; fl 1 / fl 2; fl 1 / fl 2; (fl 7 + s) / fl 14;
           (fl 7 + s) / fl 14; fl 1 / fl 2;
           (fl 7 - s) / fl 14; (fl 7 - s) / fl 14; fl 1 / fl 2;
            (fl 7 + s) / fl 14; fl 1].

(** The [if method == ... elif ...] chain; [None] is its [else] branch. *)
Definition select_method (method : string) : option (tableau F) :=
  if String.eqb method "RK1" then Some RK1
  else if String.eqb method "RK2" then Some RK2
  else if String.eqb method "RK3" then Some RK3
  else if String.eqb method "RK4" then Some RK4
  else if String.eqb method "RK5" then Some RK5
  else if String.eqb method "RK6" then Some RK6
  else if String.eqb method "RK7" then Some RK7
  else if String.eqb method "RK8" then Some RK8
  else None.

End Tableaux.

(** ** The explicit stepper: [RungeKutta] *)

(** A Python value compared with [True] and [False]: the program tests
    [dense == False], [dense == True] and has a third branch. *)
Inductive flag : Type := PyTrue | PyFalse | PyOther.

(** What a solver returns: [None] (after a printed error), the state array
    (the array object itself, named by its location), or the array of the
    states at all time points. *)
Inductive value (F : Type) : Type :=
  | VNone
  | VArray (l : loc)
  | VTrajectory (rows : list (list F)).
Arguments VNone {F}.
Arguments VArray {F} l.
Arguments VTrajectory {F} rows.

Section Stepper.
Context {F : Type} `{Arith F}.
Local Open Scope arith_scope.
#[local] Existing Instance F_inhabited.

(** [temp] after [for j in range(i): temp += a[i, j] * k[:, j]]; [k] is
    kept as the list of its columns. *)
Definition stage_offset (a k : list (list F)) (dim i : nat) : list F :=
  foldl (fun temp j => vadd temp (vscale ((a !!! i) !!! j) (k !!! j)))
        (zeros dim) (seq 0 i).

(** The body of [for i in range(1, S)]. *)
Definition stage (tb : tableau F) (f : F → list F → list F) (dt tn : F)
    (un : list F) (dim : nat) (k : list (list F)) (i : nat)
  : result (list (list F)) :=
  let temp := stage_offset (tab_a tb) k dim i in
  let! col := broadcast dim
                (vscale dt (f (tn + (tab_c tb !!! i) * dt) (vadd un temp))) in
  Ok (<[i := col]> k).

(** [np.sum(b * k, axis=1)] *)
Definition weighted_sum (b : list F) (k : list (list F)) (dim : nat)
  : list F :=
  (fun d => np_sum (zip_with mul b ((fun col => col !!! d) <$> k)))
    <$> seq 0 dim.

(** One pass of the body of the time loop up to [np.sum(b * k, axis=1)]:
    the increment of the state over one step from [(tn, un)]. *)
Definition rk_increment (tb : tableau F) (f : F → list F → list F)
    (dt tn : F) (un : list F) (dim : nat) : result (list F) :=
  let S := length (tab_b tb) in
  let k := replicate S (zeros dim) in
  let! k0 := broadcast dim (vscale dt (f tn un)) in
  let! k := for_each (stage tb f dt tn un dim) (seq 1 (S - 1))
                     (<[0%nat := k0]> k) in
  Ok (weighted_sum (tab_b tb) k dim).

(** The branch [dense == False]: [un = u0] names the caller's array, and
    [un += ...] updates that array in place. *)
Definition step_in_place (tb : tableau F) (f : F → list F → list F)
    (t0 dt : F) (u0 : loc) (h : gmap loc (list F)) (n : nat)
  : result (gmap loc (list F)) :=
  let un := h !!! u0 in
  let tn := t0 + fl (Z.of_nat n) * dt in
  let dim := length (h !!! u0) in
  let! inc := rk_increment tb f dt tn un dim in
  Ok (<[u0 := vadd un inc]> h).

(** The branch [dense == True]: [un] is a fresh two-dimensional array, row
    [n + 1] is written from row [n]. *)
Definition step_dense (tb : tableau F) (f : F → list F → list F)
    (t0 dt : F) (dim : nat) (un : list (list F)) (n : nat)
  : result (list (list F)) :=
  let tn := t0 + fl (Z.of_nat n) * dt in
  let! inc := rk_increment tb f dt tn (un !!! n) dim in
  Ok (<[S n := vadd (un !!! n) inc]> un).

Definition RungeKutta (h : gmap loc (list F)) (tspan : F * F) (dt : F)
    (u0 : loc) (f : F → list F → list F) (method : string) (dense : flag)
  : result (gmap loc (list F) * value F) :=
  match select_method method with
  | None => Ok (h, VNone)
  | Some tb =>
      let! m := int_of ((tspan.2 - tspan.1) / dt) in
      let num_time_steps := (m + 1)%Z in
      let steps := seq 0 (Z.to_nat (num_time_steps - 1)) in
      match dense with
      | PyFalse =>
          let! h' := for_each (step_in_place tb f tspan.1 dt u0) steps h in
          Ok (h', VArray u0)
      | PyTrue =>
          let dim := length (h !!! u0) in
          if (num_time_steps <? 0)%Z then Raise ValueError
          else if (num_time_steps =? 0)%Z then Raise IndexError
          else
            let un := replicate (Z.to_nat num_time_steps) (zeros dim) in
            let un := <[0%nat := h !!! u0]> un in
            let! un := for_each (step_dense tb f tspan.1 dt dim) steps un in
            Ok (h, VTrajectory un)
      | PyOther => Ok (h, VNone)
      end
  end.

(** ** The two propagators *)

Definition CoarseSolver (h : gmap loc (list F)) (tspan : F * F) (dt : F)
    (u0 : loc) (f : F → list F → list F) (dense : flag) :=
  RungeKutta h tspan dt u0 f "RK2" dense.

Definition FineSolver (h : gmap loc (list F)) (tspan : F * F) (dt : F)
    (u0 : loc) (f : F → list F → list F) (dense : flag) :=
  RungeKutta h tspan dt u0 f "RK4" dense.

End Stepper.

(** ** The run of [Parareal]: results, exceptions and a trace *)

Inductive solver : Type := Coarse | Fine.

(** The trace of a run records every call of a propagator (which one, the
    iteration [k] with [0] for the first coarse sweep, the slice [i], the
    state it starts from and what the call gives back), and the frontier [I]
    at the end of each iteration's convergence test, where the program
    stores [slices[k] = N - I]. *)
Inductive event (F : Type) : Type :=
  | Solve (s : solver) (k i : nat) (u0 : list F) (out : result (list F))
  | Frontier (k I : nat).
Arguments Solve {F} s k i u0 out.
Arguments Frontier {F} k I.

Definition run (F A : Type) : Type := (list (event F) * result A)%type.

Definition ret {F A : Type} (a : A) : run F A := ([], Ok a).

Definition raise {F A : Type} (e : exn) : run F A := ([], Raise e).

Definition lift {F A : Type} (r : result A) : run F A := ([], r).

Definition emit {F : Type} (e : event F) : run F unit := ([e], Ok tt).

Definition bind {F A B : Type} (m : run F A) (k : A → run F B) : run F B :=
  match m with
  | (w, Ok a) => let '(w', r) := k a in (w ++ w', r)
  | (w, Raise e) => (w, Raise e)
  end.

Notation "'do!' x := m 'in' k" := (bind m (fun x => k))
  (at level 10, x name, m at level 200, k at level 200).

(** A loop [for x in l] in a run. *)
Fixpoint for_run {F A B : Type} (body : A → B → run F A) (l : list B)
    (a : A) : run F A :=
  match l with
  | [] => ret a
  | x :: l' => do! a' := body a x in for_run body l' a'
  end.

(** A list comprehension or a [map] whose function may raise or call. *)
Fixpoint map_run {F A B : Type} (g : A → run F B) (l : list A)
  : run F (list B) :=
  match l with
  | [] => ret []
  | x :: l' => do! y := g x in do! ys := map_run g l' in ret (y :: ys)
  end.

(** The dictionary [diagnostics], without its three timing entries. *)
Record diagnostics (F : Type) : Type := Diagnostics {
  Iterations : nat;
  Errors : list (list F);
  Slices : list F
}.
Arguments Diagnostics {F} _ _ _.
Arguments Iterations {F} _.
Arguments Errors {F} _.
Arguments Slices {F} _.

(** The message printed when the step counts do not divide each other. *)
Definition steps_message : string :=
  "Nf must be a multiple of Ng and Ng must be a multiple of N - change time steps!".

(** What [Parareal] returns: [None] after a printed message, or the tuple
    [(t, u, diagnostics)]. *)
Inductive returned (F : Type) : Type :=
  | RNone (printed : string)
  | RTuple (t : list F) (u : list (list F)) (d : diagnostics F).
Arguments RNone {F} printed.
Arguments RTuple {F} t u d.

(** The arrays of a run and the frontier [I]. *)
Record tables (F : Type) : Type := Tables {
  u : list (list F);
  uG : list (list F);
  uF : list (list F);
  err : list (list F);
  slices : list F;
  I : nat
}.
Arguments Tables {F} _ _ _ _ _ _.
Arguments u {F} _.
Arguments uG {F} _.
Arguments uF {F} _.
Arguments err {F} _.
Arguments slices {F} _.
Arguments I {F} _.

(** What the branch [parallel == True] takes from outside the arguments
    of [Parareal]: the value of [os.cpu_count()], which may be [None]; what
    pickling a task raises, if anything (a task holds the Python function
    [f], and a lambda, for one, cannot be pickled); and, as the workers run
    side by side, which of the chunks that failed in iteration [k] was the
    first to come back (a position in the list of the failed chunks). *)
Record host : Type := Host {
  cpu_count : option Z;
  pickling : option exn;
  first_back : nat → nat
}.

Section Coordinator.
Context {F : Type} `{Arith F}.
Local Open Scope arith_scope.
#[local] Existing Instance F_inhabited.

(** [x / d] for a Python float [x] and a Python int [d]. *)
Definition py_div (x : F) (d : Z) : result F :=
  if (d =? 0)%Z then Raise ZeroDivisionError else Ok (x / fl d).

(** [np.arange(start, stop, step)] *)
Definition np_arange (start stop step : F) : result (list F) :=
  let! len := ceil_of ((stop - start) / step) in
  Ok ((fun i => start + fl (Z.of_nat i) * step) <$> seq 0 (Z.to_nat len)).

(** [np.linalg.norm(x, ord=np.inf)] of one row: the largest absolute
    value; numpy raises on a row of no entry. *)
Definition sup_norm (x : list F) : result F :=
  match absf <$> x with
  | [] => Raise ValueError
  | y :: ys => Ok (foldl maximum y ys)
  end.

Fixpoint map_result {A B : Type} (g : A → result B) (l : list A)
  : result (list B) :=
  match l with
  | [] => Ok []
  | x :: l' => let! y := g x in let! ys := map_result g l' in Ok (y :: ys)
  end.

(** [tbl[r, c:c+len(v)] = v].  In a run every such assignment has a value
    of the length of the slice it is assigned to (the propagators give back
    as many entries as they get, and the tables keep their shape, see
    [solve_on_copy_length] and [wf]), so that numpy's check of the shapes
    is not part of the embedding. *)
Definition write (r c : nat) (v : list F) (tbl : list (list F))
  : list (list F) :=
  alter (set_slice c v) r tbl.

(** [np.isnan(tbl[:, start:stop]).any()] *)
Definition any_nan (start stop : nat) (tbl : list (list F)) : bool :=
  existsb (fun row => existsb isnan (slice start stop row)) tbl.

(** A propagator called on [np.copy(v)]: the copy is a fresh array, which
    the propagator alone holds; the caller reads the result out of the
    array that comes back. *)
Definition solve_on_copy (s : solver) (tspan : F * F) (step : F)
    (v : list F) (f : F → list F → list F) : result (list F) :=
  let copy : loc := 0%nat in
  let h : gmap loc (list F) := {[ copy := v ]} in
  let! r := match s with
            | Coarse => CoarseSolver h tspan step copy f PyFalse
            | Fine => FineSolver h tspan step copy f PyFalse
            end in
  match r with
  | (h', VArray l) => Ok (h' !!! l)
  | _ => Raise TypeError
  end.

Variable hst : host.
Variable f : F → list F → list F.
Variables (t : list F) (n N : nat) (dT dt epsilon : F).

(** [t[i]] *)
Definition mesh (i : nat) : result F :=
  match t !! i with
  | Some x => Ok x
  | None => Raise IndexError
  end.

(** [Solver(tspan = [t[i], t[i+1]], dt = step, u0 = np.copy(v), f = f,
    dense = False)] at iteration [k]. *)
Definition solve (s : solver) (k i : nat) (step : F) (v : list F)
  : run F (list F) :=
  do! ti := lift (mesh i) in
  do! ti1 := lift (mesh (i + 1)) in
  let out := solve_on_copy s (ti, ti1) step v f in
  do! _ := emit (Solve s k i v out) in
  lift out.

(** The column blocks [dim_indices = slice(n*(k-1), n*k)] and
    [dim_indices_next = slice(n*k, n*(k+1))] of a row. *)
Definition cur (k : nat) (row : list F) : list F :=
  slice (n * (k - 1)) (n * k) row.
Definition next (k : nat) (row : list F) : list F :=
  slice (n * k) (n * (k + 1)) row.

(** Step 1 ([k = 0]): the body of [for i in range(0, N)]. *)
Definition bootstrap_step (st : tables F) (i : nat) : run F (tables F) :=
  do! temp := solve Coarse 0 i dT (slice 0 n (uG st !!! i)) in
  ret (Tables (write (i + 1) 0 temp (u st)) (write (i + 1) 0 temp (uG st))
              (uF st) (err st) (slices st) (I st)).

(** The fine solves, [parallel == False]: the body of
    [for i in range(I, N)]. *)
Definition fine_step (k : nat) (st : tables F) (i : nat)
  : run F (tables F) :=
  do! temp := solve Fine k i dt (cur k (u st !!! i)) in
  ret (Tables (u st) (uG st) (write (i + 1) (n * (k - 1)) temp (uF st))
              (err st) (slices st) (I st)).

(** The fine solves, [parallel == True]: the list [inputs] is built first,
    a pool of [num_cores] workers is made, [pool.starmap] maps [FineSolver]
    over the inputs, and the results are stored as one block,
    [uF[I+1:, dim_indices] = np.vstack(results)]. *)
Definition fine_inputs (k : nat) (st : tables F)
  : run F (list (nat * (F * F) * list F)) :=
  map_run (fun i => do! ti := lift (mesh i) in
                    do! ti1 := lift (mesh (i + 1)) in
                    ret (i, (ti, ti1), cur k (u st !!! i)))
          (seq (I st) (N - I st)).

(** The tuple of the slice [i] in [inputs], where the mesh has the points
    [i] and [i + 1]. *)
Definition fine_input (k : nat) (st : tables F) (i : nat)
  : nat * (F * F) * list F :=
  (i, (t !!! i, t !!! (i + 1)%nat), cur k (u st !!! i)).

(** [num_cores = min(os.cpu_count()-1, N)], where [None - 1] raises, then
    [mp.Pool(processes = num_cores)], which wants one process at least.
    The result is the number of workers of the pool. *)
Definition Pool : result nat :=
  match cpu_count hst with
  | None => Raise TypeError
  | Some c =>
      let num_cores := Z.min (c - 1) (Z.of_nat N) in
      if (num_cores <? 1)%Z then Raise ValueError
      else Ok (Z.to_nat num_cores)
  end.

(** The chunks of [pool.starmap]:
    [chunksize, extra = divmod(len(iterable), len(pool) * 4)], one more
    when there is a remainder, and the tasks are cut into chunks of that
    size in their order, [tuple(itertools.islice(it, size))] until none is
    left. *)
Definition chunksize (len procs : nat) : nat :=
  let q := (len / (procs * 4))%nat in
  if (len mod (procs * 4) =? 0)%nat then q else S q.

Fixpoint get_tasks {A : Type} (fuel size : nat) (it : list A)
  : list (list A) :=
  match fuel with
  | O => []
  | S fuel' =>
      match take size it with
      | [] => []
      | x :: xs => (x :: xs) :: get_tasks fuel' size (drop size it)
      end
  end.

(** One task in a worker: [FineSolver(tspan, dt, u0, f, False)] on the
    arguments of the slice [i]. *)
Definition task (k : nat) (a : nat * (F * F) * list F) : run F (list F) :=
  let '(i, tspan, v) := a in
  let out := solve_on_copy Fine tspan dt v f in
  do! _ := emit (Solve Fine k i v out) in
  lift out.

(** One chunk: it is pickled and sent to a worker, which maps [FineSolver]
    over it, [list(itertools.starmap(FineSolver, chunk))], and so stops at
    the first task that raises. *)
Definition mapstar (k : nat) (chunk : list (nat * (F * F) * list F))
  : run F (list (list F)) :=
  match pickling hst with
  | Some e => raise e
  | None => map_run (task k) chunk
  end.

(** The exceptions of the chunks that failed, and the results of the
    others. *)
Definition failures {A : Type} (outs : list (run F A)) : list exn :=
  omap (fun o => match o.2 with Raise e => Some e | Ok _ => None end) outs.

Definition gathered {A : Type} (outs : list (run F (list A))) : list A :=
  concat (omap (fun o => match o.2 with Ok ys => Some ys | Raise _ => None end)
               outs).

(** [pool.starmap(FineSolver, inputs)] in a pool of [procs] workers.  Every
    chunk is run, whatever becomes of the others.  When all are done the
    results come back in the order of the inputs, or the exception of the
    failed chunk that came back first is raised in the caller.  The trace
    has the calls of the chunks in the order of the inputs. *)
Definition starmap_FineSolver (procs k : nat)
    (inputs : list (nat * (F * F) * list F)) : run F (list (list F)) :=
  let size := chunksize (length inputs) procs in
  let outs := mapstar k <$> get_tasks (length inputs) size inputs in
  let w := concat (fst <$> outs) in
  match failures outs with
  | [] => (w, Ok (gathered outs))
  | e :: es => (w, Raise (default e ((e :: es) !! first_back hst k)))
  end.

(** [tbl[r:, c:c+n] = block], one row of [block] for each row from [r]
    on. *)
Definition write_block (r c : nat) (block tbl : list (list F))
  : list (list F) :=
  imap (fun j row => if decide (r ≤ j)%nat
                     then match block !! (j - r)%nat with
                          | Some v => set_slice c v row
                          | None => row
                          end
                     else row) tbl.

Definition fine_parallel (k : nat) (st : tables F) : run F (tables F) :=
  do! inputs := fine_inputs k st in
  do! procs := lift Pool in
  do! results := starmap_FineSolver procs k inputs in
  match results with
  | [] => raise ValueError        (* np.vstack of no array *)
  | _ => ret (Tables (u st) (uG st)
                     (write_block (I st + 1) (n * (k - 1)) results (uF st))
                     (err st) (slices st) (I st))
  end.

(** The predictor-corrector step: the body of [for i in range(I, N)]. *)
Definition correct_step (k : nat) (st : tables F) (i : nat)
  : run F (tables F) :=
  do! temp := solve Coarse k i dT (next k (u st !!! i)) in
  let uG' := write (i + 1) (n * k) temp (uG st) in
  let new := vsub (vadd (next k (uG' !!! (i + 1)%nat))
                        (cur k (uF st !!! (i + 1)%nat)))
                  (cur k (uG' !!! (i + 1)%nat)) in
  ret (Tables (write (i + 1) (n * k) new (u st)) uG' (uF st)
              (err st) (slices st) (I st)).

(** [err[:, k - 1] = np.linalg.norm(u[:, dim_indices_next] -
    u[:, dim_indices], ord=np.inf, axis=1)] *)
Definition record_errors (k : nat) (st : tables F) : result (tables F) :=
  let! e := map_result (fun row => sup_norm (vsub (next k row) (cur k row)))
                       (u st) in
  Ok (Tables (u st) (uG st) (uF st)
             (zip_with (fun row x => <[(k - 1)%nat := x]> row) (err st) e)
             (slices st) (I st)).

(** The three copies to all future [k] and [I = I + 1]. *)
Definition freeze (k p : nat) (st : tables F) : tables F :=
  Tables
    (write (p + 1) (n * (k + 1))
           (tile (next k (u st !!! (p + 1)%nat)) (N - k)) (u st))
    (write (p + 1) (n * (k + 1))
           (tile (next k (uG st !!! (p + 1)%nat)) (N - k)) (uG st))
    (write (p + 1) (n * k)
           (tile (cur k (uF st !!! (p + 1)%nat)) (N - k + 1)) (uF st))
    (err st) (slices st) (I st + 1).

(** [for p in range(II, N)] with its [break]. *)
Fixpoint scan (k II : nat) (ps : list nat) (st : tables F) : tables F :=
  match ps with
  | [] => st
  | p :: ps' =>
      if decide (p = II) then scan k II ps' (freeze k p st)
      else if decide (II < p)%nat then
        if ltb ((err st !!! p) !!! (k - 1)%nat) epsilon
        then scan k II ps' (freeze k p st)
        else st
      else scan k II ps' st
  end.

(** The convergence checks of iteration [k], up to [slices[k] = N - I]. *)
Definition convergence (k : nat) (st : tables F) : run F (tables F) :=
  do! st := lift (record_errors k st) in
  let st := scan k (I st) (seq (I st) (N - I st)) st in
  do! _ := emit (Frontier k (I st)) in
  ret (Tables (u st) (uG st) (uF st) (err st)
              (<[k := fl (Z.of_nat N - Z.of_nat (I st))]> (slices st))
              (I st)).

(** The fine solves of iteration [k]; [None] is the branch that prints
    an error and returns. *)
Definition fine_stage (parallel : flag) (k : nat) (st : tables F)
  : run F (option (tables F)) :=
  match parallel with
  | PyFalse =>
      do! st := for_run (fine_step k) (seq (I st) (N - I st)) st in
      ret (Some st)
  | PyTrue => do! st := fine_parallel k st in ret (Some st)
  | PyOther => ret None
  end.

(** How the loop [for k in range(1, N + 1)] is left: by the [return] of
    the fine stage, or with the last value of [k], whether [a] is NaN and
    the arrays. *)
Inductive loop_end : Type :=
  | Returned_None
  | Left (k : nat) (a_is_nan : bool) (st : tables F).

(** Step 2: [for k in range(1, N + 1)] with its two [break]s. *)
Fixpoint iterations (parallel : flag) (ks : list nat) (k_last : nat)
    (st : tables F) : run F loop_end :=
  match ks with
  | [] => ret (Left k_last false st)
  | k :: ks' =>
      do! st1 := fine_stage parallel k st in
      match st1 with
      | None => ret Returned_None
      | Some st =>
          do! st := for_run (correct_step k) (seq (I st) (N - I st)) st in
          if any_nan (n * k) (n * (k + 1)) (uG st) then ret (Left k true st)
          else
            do! st := convergence k st in
            if decide (I st = N) then ret (Left k false st)
            else iterations parallel ks' k st
      end
  end.

End Coordinator.
Arguments Returned_None {F}.
Arguments Left {F} k a_is_nan st.

Section Parareal.
Context {F : Type} `{Arith F}.
Local Open Scope arith_scope.
#[local] Existing Instance F_inhabited.

(** The solution storage matrices, with the initial condition in their
    first row, the error matrix, the unconverged slice counter and
    [I = 0]. *)
Definition storage (u0 : list F) (n N : nat) : tables F :=
  let full := replicate (N + 1) (replicate (n * (N + 1)) nan) in
  let u_0 := <[0%nat := tile u0 (N + 1)]> full in
  let uG_0 := <[0%nat := u_0 !!! 0%nat]> full in
  let uF_0 := <[0%nat := u_0 !!! 0%nat]> full in
  let err_0 := replicate (N + 1) (replicate N nan) in
  let slices_0 := <[0%nat := fl (Z.of_nat N)]> (replicate (N + 1) (fl 0)) in
  Tables u_0 uG_0 uF_0 err_0 slices_0 0.

(** From the end of the loop to the [return]: the output matrix, the NaN
    that replaces [k] after a crash, and the dictionary. *)
Definition output (t : list F) (n : nat) (e : loop_end) : run F (returned F) :=
  match e with
  | Returned_None =>
      ret (RNone "Error: Please define parallel = True or False.")
  | Left k a_is_nan st =>
      let u_out := slice n (n * (k + 1)) <$> u st in
      if a_is_nan then
        (* [k = np.nan], then [err[:, :k]] in the dictionary *)
        raise TypeError
      else
        ret (RTuple t u_out (Diagnostics k (take k <$> err st)
                                         (take (k + 1) (slices st))))
  end.

(** The part 'PARAREAL ALGORITHM' of the function up to the end of its
    loop: the first coarse sweep, then the iterations. *)
Definition sweeps (hst : host) (f : F → list F → list F) (t : list F)
    (n N : nat) (dT dt epsilon : F) (parallel : flag) (st : tables F)
  : run F loop_end :=
  do! st := for_run (bootstrap_step f t n dT) (seq 0 N) st in
  iterations hst f t n N dT dt epsilon parallel (seq 1 N) 0%nat st.

(** The part 'PARAREAL ALGORITHM' of the function, and its output. *)
Definition algorithm (hst : host) (f : F → list F → list F) (t : list F)
    (n N : nat) (dT dt epsilon : F) (parallel : flag) (st : tables F)
  : run F (returned F) :=
  do! e := sweeps hst f t n N dT dt epsilon parallel st in
  output t n e.

(** [Parareal(f, tspan, u0, N, Ng, Nf, epsilon, parallel)]: the
    initialization, the check of the step counts, then the algorithm.
    [tspan] holds two Python numbers and [N], [Ng], [Nf] are Python ints,
    so that a division by [0] raises.  With a negative [N] one of the four
    [np.full] has a negative size: the first with [N + 1 < 0], and
    [err = np.full((N + 1, N), np.nan)] with [N = -1]. *)
Definition Parareal (hst : host) (f : F → list F → list F) (tspan : F * F)
    (u0 : list F) (N Ng Nf : Z) (epsilon : F) (parallel : flag)
  : run F (returned F) :=
  let n := length u0 in
  let L := tspan.2 - tspan.1 in
  do! L_sub := lift (py_div L N) in
  do! dT := lift (py_div L Ng) in
  do! dt := lift (py_div L Nf) in
  do! t := lift (np_arange tspan.1 (tspan.2 + L_sub) L_sub) in
  if negb (Ng mod N =? 0)%Z || negb (Nf mod Ng =? 0)%Z then
    ret (RNone steps_message)
  else if (N <? 0)%Z then raise ValueError         (* np.full *)
  else
    algorithm hst f t n (Z.to_nat N) dT dt epsilon parallel
              (storage u0 n (Z.to_nat N)).

End Parareal.

(** ** Invariants of a run *)

(** [run_spec m P Q]: every event of the run satisfies [P], and its
    result, when there is one, satisfies [Q]. *)
Definition run_spec {F A : Type} (m : run F A) (P : event F → Prop)
    (Q : A → Prop) : Prop :=
  Forall P m.1 ∧ ∀ a, m.2 = Ok a → Q a.

(** The iteration an event belongs to. *)
Definition event_iter {F : Type} (e : event F) : nat :=
  match e with
  | Solve _ k _ _ _ => k
  | Frontier k _ => k
  end.

(** The event is a call of a propagator. *)
Definition is_solve {F : Type} (e : event F) : Prop :=
  match e with
  | Solve _ _ _ _ _ => True
  | Frontier _ _ => False
  end.

(** A call of the propagator [s] made in iteration [k]. *)
Definition solve_of {F : Type} (s : solver) (k : nat) (e : event F) : Prop :=
  match e with
  | Solve s' k' _ _ _ => s' = s ∧ k' = k
  | Frontier _ _ => False
  end.

(** No coarse call of iteration [k] in the trace gave a result with a NaN. *)
Definition no_nan_calls {F : Type} `{Arith F} (k : nat) (w : list (event F))
  : Prop :=
  ∀ i v out, Solve Coarse k i v (Ok out) ∈ w → existsb isnan out = false.

(** The successive values of the frontier [I] in a trace. *)
Definition frontiers {F : Type} (w : list (event F)) : list nat :=
  omap (fun e => match e with
                 | Frontier _ i => Some i
                 | Solve _ _ _ _ _ => None
                 end) w.

(** A list that never decreases, from [lo] on and up to [hi]. *)
Fixpoint ascending (lo hi : nat) (l : list nat) : Prop :=
  match l with
  | [] => True
  | x :: l' => (lo ≤ x ≤ hi)%nat ∧ ascending x hi l'
  end.

(** An array of [N + 1] rows of [n * (N + 1)] entries. *)
Definition shaped {F : Type} (n N : nat) (tbl : list (list F)) : Prop :=
  length tbl = (N + 1)%nat
  ∧ Forall (fun row => length row = (n * (N + 1))%nat) tbl.

(** The three solution arrays have that shape and the frontier does not
    pass [N]. *)
Definition wf {F : Type} (n N : nat) (st : tables F) : Prop :=
  shaped n N (u st) ∧ shaped n N (uG st) ∧ shaped n N (uF st)
  ∧ (I st ≤ N)%nat.

(** ** What a run keeps *)

(** Where a call or a frontier may lie in a run on [N] slices: the slice of
    a call is one of the [N] slices and is not below [k - 1], the first
    sweep has coarse calls only, and the frontier recorded by iteration [k]
    is between [k] and [N]. *)
Definition in_range {F : Type} (N : nat) (e : event F) : Prop :=
  match e with
  | Solve s k i _ _ =>
      (i < N ∧ k ≤ i + 1 ∧ k ≤ N)%nat ∧ (k = 0%nat → s = Coarse)
  | Frontier k I => (1 ≤ k ≤ I ∧ I ≤ N)%nat
  end.

(** What the tables keep along a run: the shape of the solution arrays,
    the row 0 of [u], the shape of [err] and of [slices], and
    [slices[0] = N]. *)
Definition kept {F : Type} `{Arith F} (n N : nat) (row0 : list F)
    (st : tables F) : Prop :=
  wf n N st
  ∧ u st !! 0%nat = Some row0
  ∧ length (err st) = (N + 1)%nat
  ∧ Forall (fun row => length row = N) (err st)
  ∧ length (slices st) = (N + 1)%nat
  ∧ slices st !! 0%nat = Some (fl (Z.of_nat N)).

(** The tolerance that no number is below. *)
Definition never_below {F : Type} `{Arith F} (epsilon : F) : Prop :=
  ∀ x, ltb x epsilon = false.

(** What the loop over the iterations [a] to [b - 1] leaves when it ends
    without a NaN, after iteration [k]: all the slices are behind the
    frontier and the iteration has recorded that, the system has one
    equation at least, and with a tolerance that no number is below the
    loop has gone through all its [N] iterations. *)
Definition settled {F : Type} `{Arith F} (n N : nat) (row0 : list F)
    (epsilon : F) (a b k : nat) (st : tables F) : Prop :=
  kept n N row0 st ∧ I st = N ∧ (a ≤ k < b)%nat
  ∧ slices st !! k = Some (fl (Z.of_nat N - Z.of_nat N))
  ∧ (0 < n)%nat
  ∧ (never_below epsilon → k = N).

(** The first coarse sweep as a chain: the call of the slice [i] starts
    from [v], the next call starts from what it gave back, and nothing
    follows a call that raised. *)
Fixpoint chained {F : Type} (i : nat) (v : list F) (w : list (event F))
  : Prop :=
  match w with
  | [] => True
  | e :: w' =>
      ∃ out, e = Solve Coarse 0 i v out
             ∧ match out with
               | Ok o => chained (S i) o w'
               | Raise _ => w' = []
               end
  end.

(** The calls of the fine solver in a trace, and their number. *)
Definition is_fine {F : Type} (e : event F) : bool :=
  match e with
  | Solve Fine _ _ _ _ => true
  | _ => false
  end.

Definition fine_calls {F : Type} (w : list (event F)) : nat :=
  length (filter (fun e => is_fine e = true) w).

(** An array that holds no NaN. *)
Definition clean {F : Type} `{Arith F} (l : list F) : Prop :=
  existsb isnan l = false.

(** The run does not end with a [TypeError]. *)
Definition quiet {F A : Type} (m : run F A) : Prop :=
  m.2 ≠ Raise TypeError.

(** The pool itself does not end with a [TypeError]: the CPUs can be
    counted, and pickling a task raises no [TypeError]. *)
Definition pool_quiet (hst : host) : Prop :=
  cpu_count hst ≠ None ∧ pickling hst ≠ Some TypeError.



(** Behind the frontier, the column blocks [k] to [N] of [uG] hold no
    NaN. *)
Definition clean_behind {F : Type} `{Arith F} (n N k : nat)
    (st : tables F) : Prop :=
  ∀ r j row, (r ≤ I st)%nat → (k ≤ j ≤ N)%nat → uG st !! r = Some row →
             clean (slice (n * j) (n * (j + 1)) row).

(** A coarse call of an iteration [k >= 1] whose result holds a NaN. *)
Definition nan_call {F : Type} `{Arith F} (e : event F) : bool :=
  match e with
  | Solve Coarse k _ _ (Ok out) => (1 <=? k)%nat && existsb isnan out
  | _ => false
  end.

(** ** Inputs on which the program is evaluated *)

Module Examples.
Import binary64.

(** [f = lambda t, u: u] *)
Definition growth (t : float) (x : list float) : list float := x.

(** [f = lambda t, u: u * u] *)
Definition square (t : float) (x : list float) : list float :=
  zip_with PrimFloat.mul x x.

(** [f = lambda t, u: -u] *)
Definition decay (t : float) (x : list float) : list float :=
  PrimFloat.opp <$> x.

(** The tolerance [1e-6]. *)
Definition tol : float := (fl 1 / fl 1000000)%A.

(** [u0 = np.array([2.7e307])] and [u0 = np.array([1e200])] *)
Definition huge : list float := [fl (27 * 10 ^ 306)].
Definition large : list float := [fl (10 ^ 200)].

(** A store with one array, [u0 = np.array([1.0])]. *)
Definition one_array : gmap loc (list float) := {[ 0%nat := [1%float] ]}.

(** Tables for [n = 1], [N = 2] whose three column blocks are equal, with
    the frontier at [0]. *)
Definition flat_rows : list (list float) :=
  [[1; 1; 1]; [2; 2; 2]; [3; 3; 3]]%float.
Definition flat_tables : tables float :=
  Tables flat_rows flat_rows flat_rows
         (replicate 3 (replicate 2 PrimFloat.nan)) [2; 0; 0]%float 0.

(** [f = lambda t, u: np.concatenate((u, u))], a right-hand side that
    returns twice as many entries as the state has. *)
Definition doubled (t : float) (x : list float) : list float := x ++ x.

(** A machine with four CPUs and a right-hand side that can be pickled; a
    machine with one CPU; one whose CPUs cannot be counted; and a
    right-hand side that cannot be pickled, as [f = lambda t, u: -u]. *)
Definition four_cpus : host := Host (Some 4) None (fun _ => 0%nat).
Definition no_cpu_count : host := Host None None (fun _ => 0%nat).

(** The mesh of [tspan = [0, 1]] with [N = 2]. *)
Definition halves : list float := [0; 0.5; 1]%float.

(** Tables for [n = 1], [N = 2] whose column blocks differ, with the
    frontier at [0]. *)
Definition ramp_rows : list (list float) :=
  [[1; 2; 3]; [4; 5; 6]; [7; 8; 9]]%float.
Definition ramp_tables : tables float :=
  Tables ramp_rows ramp_rows ramp_rows
         (replicate 3 (replicate 2 PrimFloat.nan)) [2; 0; 0]%float 0.

End Examples.

(** * Properties *)

(** ** Exceptions and runs *)

Lemma rbind_Ok {A B : Type} (m : result A) (k : A → result B) (b : B) :
  rbind m k = Ok b → ∃ a, m = Ok a ∧ k a = Ok b.
Proof. destruct m as [a|e]; simpl; [eauto | discriminate]. Qed.

(** ** The stepper *)

Section StepperFacts.
Context {F : Type} `{Arith F}.
Local Open Scope arith_scope.
#[local] Existing Instance F_inhabited.

Lemma length_vadd (x y : list F) :
  length (vadd x y) = min (length x) (length y).
Proof. apply length_zip_with. Qed.

Lemma length_weighted_sum (b : list F) (k : list (list F)) (dim : nat) :
  length (weighted_sum b k dim) = dim.
Proof. unfold weighted_sum. by rewrite length_fmap, length_seq. Qed.

Lemma rk_increment_length tb f dt tn un dim inc :
  rk_increment tb f dt tn un dim = Ok inc → length inc = dim.
Proof.
  unfold rk_increment. intros Hinc.
  apply rbind_Ok in Hinc as (k0 & _ & Hinc).
  apply rbind_Ok in Hinc as (k & _ & Hinc).
  injection Hinc as <-. apply length_weighted_sum.
Qed.

(** A step in place keeps the length of the state array and touches no
    other array. *)
Lemma step_in_place_frame tb f t0 dt u0 h n h' :
  step_in_place tb f t0 dt u0 h n = Ok h' →
  length (h' !!! u0) = length (h !!! u0)
  ∧ ∀ l, l ≠ u0 → h' !! l = h !! l.
Proof.
  unfold step_in_place. intros Hstep.
  apply rbind_Ok in Hstep as (inc & Hinc & Hstep). injection Hstep as <-.
  apply rk_increment_length in Hinc. split.
  - rewrite lookup_total_insert_eq, length_vadd. lia.
  - intros l Hl. by rewrite lookup_insert_ne.
Qed.

Lemma steps_in_place_frame tb f t0 dt u0 ns h h' :
  for_each (step_in_place tb f t0 dt u0) ns h = Ok h' →
  length (h' !!! u0) = length (h !!! u0)
  ∧ ∀ l, l ≠ u0 → h' !! l = h !! l.
Proof.
  revert h. induction ns as [|n ns IH]; intros h; simpl.
  - intros [= <-]. done.
  - intros Hrun. apply rbind_Ok in Hrun as (h1 & Hstep & Hrun).
    apply step_in_place_frame in Hstep as [Hlen Hfr].
    apply IH in Hrun as [Hlen' Hfr']. split; [congruence|].
    intros l Hl. rewrite Hfr', Hfr; done.
Qed.

Lemma step_in_place_eq tb f t0 dt u0 h n :
  step_in_place tb f t0 dt u0 h n =
  rbind (rk_increment tb f dt (t0 + fl (Z.of_nat n) * dt) (h !!! u0)
                      (length (h !!! u0)))
        (fun inc => Ok (<[u0 := vadd (h !!! u0) inc]> h)).
Proof. done. Qed.

Lemma step_dense_eq tb f t0 dt dim (un : list (list F)) n v :
  un !! n = Some v →
  step_dense tb f t0 dt dim un n =
  rbind (rk_increment tb f dt (t0 + fl (Z.of_nat n) * dt) v dim)
        (fun inc => Ok (<[S n := vadd v inc]> un)).
Proof.
  intros Hv. unfold step_dense.
  by rewrite (list_lookup_total_correct _ _ _ Hv).
Qed.


(** What a call with [dense = False] does to the store. *)
Lemma propagator_frame (h : gmap loc (list F)) tspan dt u0 f method h' v :
  RungeKutta h tspan dt u0 f method PyFalse = Ok (h', v) →
  (v = VArray u0 ∨ v = VNone)
  ∧ length (h' !!! u0) = length (h !!! u0)
  ∧ ∀ l, l ≠ u0 → h' !! l = h !! l.
Proof.
  unfold RungeKutta. destruct (select_method method) as [tb|].
  - intros Hrun. apply rbind_Ok in Hrun as (m & _ & Hrun).
    apply rbind_Ok in Hrun as (h1 & Hloop & Hrun).
    injection Hrun as <- <-.
    destruct (steps_in_place_frame _ _ _ _ _ _ _ _ Hloop). auto.
  - intros [= <- <-]. auto.
Qed.

(** *** The stepper returns when the right-hand side keeps the dimension *)


Lemma length_vscale s (x : list F) : length (vscale s x) = length x.
Proof. apply length_fmap. Qed.


Section Total.
Variable f : F → list F → list F.
Hypothesis f_dim : ∀ t x, length (f t x) = length x.




End Total.

End StepperFacts.

(** ** Runs: the trace and the result of a composed run *)

Section RunFacts.
Context {F : Type}.

Lemma bind_ret_l {A B : Type} (a : A) (k : A → run F B) :
  bind (ret a) k = k a.
Proof. unfold bind, ret. by destruct (k a). Qed.

Lemma bind_ret_r {A : Type} (m : run F A) : bind m ret = m.
Proof.
  destruct m as [w [a|e]]; simpl; [|done]. by rewrite app_nil_r.
Qed.

Lemma bind_assoc {A B C : Type} (m : run F A) (k : A → run F B)
    (k' : B → run F C) :
  bind (bind m k) k' = bind m (fun a => bind (k a) k').
Proof.
  destruct m as [w [a|e]]; simpl; [|done].
  destruct (k a) as [w1 [b|e]]; simpl; [|done].
  destruct (k' b) as [w2 r]. by rewrite app_assoc.
Qed.

Lemma lift_Ok {A : Type} (a : A) : lift (F := F) (Ok a) = ret a.
Proof. done. Qed.

(** Two continuations that agree on every result of [m]. *)
Lemma bind_ext {A B : Type} (m : run F A) (k k' : A → run F B) :
  (∀ a, m.2 = Ok a → k a = k' a) → bind m k = bind m k'.
Proof.
  destruct m as [w [a|e]]; simpl; [|done]. intros Hk. by rewrite Hk.
Qed.

(** How a composed run comes to its trace and result. *)
Lemma bind_inv {A B : Type} (m : run F A) (k : A → run F B) w r :
  bind m k = (w, r) →
  (∃ e, m = (w, Raise e) ∧ r = Raise e)
  ∨ (∃ w1 a w2, m = (w1, Ok a) ∧ k a = (w2, r) ∧ w = w1 ++ w2).
Proof.
  destruct m as [w1 [a|e]]; simpl.
  - destruct (k a) as [w2 r'] eqn:Hk. intros [= <- <-]. right. eauto 6.
  - intros [= <- <-]. left. eauto.
Qed.

Lemma bind_inv_Ok {A B : Type} (m : run F A) (k : A → run F B) w b :
  bind m k = (w, Ok b) →
  ∃ w1 a w2, m = (w1, Ok a) ∧ k a = (w2, Ok b) ∧ w = w1 ++ w2.
Proof.
  intros [(e & _ & [=])|Hinv]%bind_inv. done.
Qed.

Lemma run_spec_ret {A : Type} (a : A) (P : event F → Prop) (Q : A → Prop) :
  Q a → run_spec (ret a) P Q.
Proof. intros HQ. split; [constructor|]. by intros ? [= <-]. Qed.

Lemma run_spec_raise {A : Type} e (P : event F → Prop) (Q : A → Prop) :
  run_spec (raise e) P Q.
Proof. split; [constructor|]. intros ? [=]. Qed.

Lemma run_spec_bind {A B : Type} (m : run F A) (k : A → run F B)
    (P : event F → Prop) (Q1 : A → Prop) (Q : B → Prop) :
  run_spec m P Q1 →
  (∀ a, Q1 a → run_spec (k a) P Q) →
  run_spec (bind m k) P Q.
Proof.
  destruct m as [w [a|e]]; intros [Hw HQ1] Hk; simpl in *.
  - destruct (Hk a (HQ1 a eq_refl)) as [Hw' HQ].
    destruct (k a) as [w' r]; simpl in *. split; [|done].
    by apply Forall_app.
  - split; [done|]. intros ? [=].
Qed.

Lemma run_spec_weaken {A : Type} (m : run F A) (P P' : event F → Prop)
    (Q Q' : A → Prop) :
  run_spec m P Q →
  (∀ e, P e → P' e) → (∀ a, Q a → Q' a) →
  run_spec m P' Q'.
Proof.
  intros [Hw HQ] HP HQ'. split; [|auto].
  eapply Forall_impl; eauto.
Qed.

Lemma run_spec_for_run {A B : Type} (body : A → B → run F A) (l : list B)
    (P : event F → Prop) (Inv : A → Prop) :
  (∀ a x, x ∈ l → Inv a → run_spec (body a x) P Inv) →
  ∀ a, Inv a → run_spec (for_run body l a) P Inv.
Proof.
  induction l as [|x l IH]; intros Hbody a Ha; simpl.
  - by apply run_spec_ret.
  - eapply run_spec_bind.
    + apply Hbody; [by left|done].
    + intros a' Ha'. apply IH; [|done].
      intros a'' y Hy. apply Hbody. by right.
Qed.

Lemma for_run_app {A B : Type} (body : A → B → run F A) (l1 l2 : list B)
    (a : A) :
  for_run body (l1 ++ l2) a = bind (for_run body l1 a) (for_run body l2).
Proof.
  revert a. induction l1 as [|x l1 IH]; intros a; cbn [for_run app].
  - by rewrite bind_ret_l.
  - rewrite bind_assoc. apply bind_ext. intros a' _. apply IH.
Qed.

(** The conjunction of two specifications, and the trace of a composed
    run. *)
Lemma run_spec_conj {A : Type} (m : run F A) (P P' : event F → Prop)
    (Q Q' : A → Prop) :
  run_spec m P Q → run_spec m P' Q' →
  run_spec m (fun e => P e ∧ P' e) (fun a => Q a ∧ Q' a).
Proof.
  intros [Hw HQ] [Hw' HQ']. split; [|auto].
  rewrite Forall_forall in Hw, Hw'. apply Forall_forall. auto.
Qed.

Lemma bind_trace {A B : Type} (m : run F A) (k : A → run F B) :
  (bind m k).1
  = m.1 ++ match m.2 with Ok a => (k a).1 | Raise _ => [] end.
Proof.
  destruct m as [w [a|e]]; simpl; [|by rewrite app_nil_r].
  by destruct (k a).
Qed.

End RunFacts.

(** ** Arrays: slices and writes *)

Section ArrayFacts.
Context {F : Type} `{Arith F}.
#[local] Existing Instance F_inhabited.

Lemma length_slice a b (row : list F) :
  length (slice a b row) = min (b - a) (length row - a).
Proof. unfold slice. by rewrite length_take, length_drop. Qed.

(** A slice of a slice is a slice. *)
Lemma slice_slice a b c d (row : list F) :
  (b ≤ d - c)%nat → slice a b (slice c d row) = slice (c + a) (c + b) row.
Proof.
  intros Hb. unfold slice.
  rewrite skipn_firstn_comm, take_take, drop_drop.
  f_equal. lia.
Qed.

Lemma length_set_slice c (v row : list F) :
  (c + length v ≤ length row)%nat →
  length (set_slice c v row) = length row.
Proof.
  intros Hle. unfold set_slice.
  rewrite !length_app, length_take, length_drop. lia.
Qed.

Lemma slice_set_slice c (v row : list F) :
  (c + length v ≤ length row)%nat →
  slice c (c + length v) (set_slice c v row) = v.
Proof.
  intros Hle. unfold slice, set_slice.
  rewrite drop_app_length' by (rewrite length_take; lia).
  apply take_app_length'. lia.
Qed.

Lemma length_tile (v : list F) r : length (tile v r) = (r * length v)%nat.
Proof.
  unfold tile. induction r as [|r IH]; simpl; [done|].
  rewrite length_app, IH. lia.
Qed.

Lemma shaped_write n N r c (v : list F) tbl :
  shaped n N tbl →
  (c + length v ≤ n * (N + 1))%nat →
  shaped n N (write r c v tbl).
Proof.
  intros [Hrows Hcols] Hle. split.
  - unfold write. by rewrite length_alter.
  - apply Forall_alter; [done|]. intros row _ Hrow.
    rewrite length_set_slice; [done | lia].
Qed.

Lemma write_lookup_ne r r' c (v : list F) tbl :
  r ≠ r' → write r c v tbl !! r' = tbl !! r'.
Proof. intros Hne. by apply list_lookup_alter_ne. Qed.

Lemma write_lookup_eq r c (v : list F) tbl row :
  tbl !! r = Some row → write r c v tbl !! r = Some (set_slice c v row).
Proof. intros Hrow. unfold write. by rewrite list_lookup_alter_eq, Hrow. Qed.

Lemma shaped_lookup n N (tbl : list (list F)) r :
  shaped n N tbl → (r ≤ N)%nat →
  ∃ row, tbl !! r = Some row ∧ length row = (n * (N + 1))%nat.
Proof.
  intros [Hrows Hcols] Hr.
  destruct (lookup_lt_is_Some_2 tbl r) as [row Hrow]; [lia|].
  exists row. split; [done|]. exact (Forall_lookup_1 _ _ _ _ Hcols Hrow).
Qed.

Lemma any_nan_row a b (tbl : list (list F)) r row :
  tbl !! r = Some row →
  existsb isnan (slice a b row) = true →
  any_nan a b tbl = true.
Proof.
  intros Hrow Hnan. unfold any_nan. apply existsb_exists.
  exists row. split; [|done].
  apply list_elem_of_In. by eapply list_elem_of_lookup_2.
Qed.

(** A propagator gives back as many entries as it was given. *)
Lemma solve_on_copy_length s tspan step (v : list F) f out :
  solve_on_copy s tspan step v f = Ok out → length out = length v.
Proof.
  unfold solve_on_copy. intros Hrun.
  apply rbind_Ok in Hrun as ([h' r] & Hsolve & Hout).
  assert (∃ method, RungeKutta {[0%nat := v]} tspan step 0%nat f method
                      PyFalse = Ok (h', r)) as [method Hrk].
  { destruct s; eauto. }
  pose proof (propagator_frame _ _ _ _ _ _ _ _ Hrk) as (Hr & Hlen & _).
  rewrite lookup_total_singleton in Hlen.
  destruct Hr as [-> | ->]; [|done]. by injection Hout as <-.
Qed.

End ArrayFacts.

(** ** The stages of an iteration *)

Section CoordinatorFacts.
Context {F : Type} `{Arith F}.
#[local] Existing Instance F_inhabited.
Variable hst : host.
Variable f : F → list F → list F.
Variables (t : list F) (n N : nat) (dT dt epsilon : F).

Lemma block_bound k : (k ≤ N)%nat → (n * k + n ≤ n * (N + 1))%nat.
Proof. nia. Qed.

Lemma length_cur k (row : list F) : (length (cur n k row) ≤ n)%nat.
Proof. unfold cur. rewrite length_slice. nia. Qed.

Lemma length_next k (row : list F) : (length (next n k row) ≤ n)%nat.
Proof. unfold next. rewrite length_slice. nia. Qed.

Lemma length_next_shaped k (row : list F) :
  length row = (n * (N + 1))%nat → (k ≤ N)%nat →
  length (next n k row) = n.
Proof. intros Hrow Hk. unfold next. rewrite length_slice, Hrow. nia. Qed.

Lemma wf_intro (st : tables F) :
  shaped n N (u st) → shaped n N (uG st) → shaped n N (uF st) →
  (I st ≤ N)%nat → wf n N st.
Proof. unfold wf. auto. Qed.

(** *** One call of a propagator *)

Lemma solve_inv s k i step v w r :
  solve f t s k i step v = (w, r) →
  (w = [] ∧ r = Raise IndexError ∧ (length t ≤ i + 1)%nat)
  ∨ (∃ ti ti1,
       t !! i = Some ti ∧ t !! (i + 1)%nat = Some ti1
       ∧ w = [Solve s k i v (solve_on_copy s (ti, ti1) step v f)]
       ∧ r = solve_on_copy s (ti, ti1) step v f).
Proof.
  unfold solve, mesh.
  destruct (t !! i) as [ti|] eqn:Hi; simpl.
  - destruct (t !! (i + 1)%nat) as [ti1|] eqn:Hi1; simpl.
    + destruct (solve_on_copy s (ti, ti1) step v f) eqn:Hout; simpl;
        intros [= <- <-]; right; exists ti, ti1; by rewrite Hout.
    + intros [= <- <-]. left. by apply lookup_ge_None in Hi1.
  - intros [= <- <-]. left. apply lookup_ge_None in Hi. repeat split. lia.
Qed.

Lemma solve_spec s k i step v :
  run_spec (solve f t s k i step v) (solve_of s k)
           (fun out => length out = length v ∧ (i + 1 < length t)%nat).
Proof.
  destruct (solve f t s k i step v) as [w r] eqn:Hsolve.
  apply solve_inv in Hsolve
    as [(-> & -> & _) | (ti & ti1 & _ & Hi1 & -> & ->)].
  - apply (run_spec_raise IndexError).
  - split; simpl.
    + by repeat constructor.
    + intros out Hout. split; [by eapply solve_on_copy_length|].
      by eapply lookup_lt_Some.
Qed.

(** *** The loops over the slices *)

Lemma bootstrap_step_spec st i :
  wf n N st →
  run_spec (bootstrap_step f t n dT st i) (solve_of Coarse 0)
           (fun st' => wf n N st' ∧ I st' = I st ∧ (i + 1 < length t)%nat).
Proof.
  intros (Hu & HuG & HuF & HI). unfold bootstrap_step.
  eapply run_spec_bind; [apply solve_spec|].
  intros temp [Hlen Hi]. apply run_spec_ret. simpl.
  assert (length temp ≤ n)%nat
    by (rewrite Hlen, length_slice; lia).
  split; [|done].
  apply wf_intro; simpl; try done; apply shaped_write; try done; nia.
Qed.

Lemma fine_step_spec k st i :
  wf n N st → (1 ≤ k ≤ N)%nat →
  run_spec (fine_step f t n dt k st i) (solve_of Fine k)
           (fun st' => wf n N st' ∧ I st' = I st ∧ u st' = u st
                       ∧ uG st' = uG st).
Proof.
  intros (Hu & HuG & HuF & HI) Hk. unfold fine_step.
  eapply run_spec_bind; [apply solve_spec|].
  intros temp [Hlen _]. apply run_spec_ret. simpl.
  pose proof (length_cur k (u st !!! i)).
  split; [|done].
  apply wf_intro; simpl; try done; apply shaped_write; try done; nia.
Qed.

Lemma correct_step_spec k st i :
  wf n N st → (k ≤ N)%nat →
  run_spec (correct_step f t n dT k st i) (solve_of Coarse k)
           (fun st' => wf n N st' ∧ I st' = I st ∧ uF st' = uF st).
Proof.
  intros (Hu & HuG & HuF & HI) Hk. unfold correct_step.
  eapply run_spec_bind; [apply solve_spec|].
  intros temp [Hlen _]. apply run_spec_ret. simpl.
  pose proof (length_next k (u st !!! i)).
  pose proof (block_bound k Hk).
  split; [|done].
  apply wf_intro; simpl; try done; apply shaped_write; try done; try lia.
  unfold vsub, vadd. rewrite !length_zip_with.
  pose proof (length_next k
    (write (i + 1) (n * k) temp (uG st) !!! (i + 1)%nat)).
  lia.
Qed.

(** *** The convergence scan *)

Lemma freeze_shaped k p (st : tables F) :
  (k ≤ N)%nat →
  shaped n N (u st) ∧ shaped n N (uG st) ∧ shaped n N (uF st) →
  shaped n N (u (freeze n N k p st)) ∧ shaped n N (uG (freeze n N k p st))
  ∧ shaped n N (uF (freeze n N k p st)).
Proof.
  intros Hk (Hu & HuG & HuF). simpl.
  pose proof (length_next k (u st !!! (p + 1)%nat)).
  pose proof (length_next k (uG st !!! (p + 1)%nat)).
  pose proof (length_cur k (uF st !!! (p + 1)%nat)).
  split; [|split]; apply shaped_write; try done; rewrite length_tile; nia.
Qed.

Lemma scan_shaped k II ps : ∀ st : tables F,
  (k ≤ N)%nat →
  shaped n N (u st) ∧ shaped n N (uG st) ∧ shaped n N (uF st) →
  let st' := scan n N epsilon k II ps st in
  shaped n N (u st') ∧ shaped n N (uG st') ∧ shaped n N (uF st').
Proof.
  induction ps as [|p ps IH]; intros st Hk Hst; simpl; [done|].
  repeat case_match; try done; apply IH; try done; by apply freeze_shaped.
Qed.

(** Beyond the first slice of the scan: every slice is tested, the scan
    goes on while the test holds and stops at the first slice that fails. *)
Lemma scan_tested k II m : ∀ p (st : tables F),
  (II < p)%nat → I st = p →
  let st' := scan n N epsilon k II (seq p m) st in
  (p ≤ I st' ≤ p + m)%nat
  ∧ (∀ q, (p ≤ q < I st')%nat →
          ltb ((err st !!! q) !!! (k - 1)%nat) epsilon = true)
  ∧ ((I st' < p + m)%nat →
     ltb ((err st !!! I st') !!! (k - 1)%nat) epsilon = false)
  ∧ err st' = err st ∧ slices st' = slices st.
Proof.
  induction m as [|m IH]; intros p st Hp HI; simpl.
  - split_and!; try lia; try done; intros q Hq; lia.
  - rewrite decide_False by lia. rewrite decide_True by lia.
    destruct (ltb ((err st !!! p) !!! (k - 1)%nat) epsilon) eqn:Htest.
    + destruct (IH (S p) (freeze n N k p st)) as (Hb & Hlt & Hstop & He & Hs);
        [lia | simpl; lia |].
      simpl in Hlt, Hstop. split; [lia|]. split.
      * intros q Hq. destruct (decide (q = p)) as [->|]; [done|].
        apply Hlt. lia.
      * split; [intros Hlast; apply Hstop; lia | done].
    + split_and!; try lia; try done. intros _. by rewrite HI.
Qed.

(** The whole scan of an iteration, from a frontier [I < N]. *)
Lemma scan_frontier k (st : tables F) :
  (I st < N)%nat →
  let st' := scan n N epsilon k (I st) (seq (I st) (N - I st)) st in
  (I st < I st' ≤ N)%nat
  ∧ (∀ q, (I st < q < I st')%nat →
          ltb ((err st !!! q) !!! (k - 1)%nat) epsilon = true)
  ∧ ((I st' < N)%nat →
     ltb ((err st !!! I st') !!! (k - 1)%nat) epsilon = false)
  ∧ err st' = err st ∧ slices st' = slices st.
Proof.
  intros HI. destruct (N - I st)%nat as [|m] eqn:Hm; [lia|]. simpl.
  rewrite decide_True by done.
  destruct (scan_tested k (I st) m (S (I st)) (freeze n N k (I st) st))
    as (Hb & Hlt & Hstop & He & Hs); [lia | simpl; lia |].
  simpl in Hlt, Hstop.
  split; [lia|]. split; [intros q Hq; apply Hlt; lia|].
  split; [intros Hlast; apply Hstop; lia | done].
Qed.

Lemma record_errors_inv k (st st' : tables F) :
  record_errors n k st = Ok st' →
  u st' = u st ∧ uG st' = uG st ∧ uF st' = uF st ∧ I st' = I st
  ∧ slices st' = slices st.
Proof.
  unfold record_errors. intros Hrec.
  apply rbind_Ok in Hrec as (e & _ & Hrec). by injection Hrec as <-.
Qed.

(** The convergence checks of an iteration that starts below [N]: they
    raise before the scan, or they move the frontier up, by one at least
    and to [N] at most, and record it. *)
Lemma convergence_inv k (st : tables F) w r :
  wf n N st → (I st < N)%nat → (k ≤ N)%nat →
  convergence n N epsilon k st = (w, r) →
  (w = [] ∧ ∃ e, r = Raise e)
  ∨ (∃ st', r = Ok st' ∧ w = [Frontier k (I st')] ∧ wf n N st'
            ∧ (I st < I st')%nat).
Proof.
  intros (Hu & HuG & HuF & _) HI Hk. unfold convergence.
  destruct (record_errors n k st) as [st1|e] eqn:Hrec; simpl.
  - apply record_errors_inv in Hrec as (Eu & EuG & EuF & EI & _).
    intros [= <- <-]. right. eexists. split; [done|]. simpl.
    pose proof (scan_frontier k st1) as Hscan. rewrite EI in Hscan.
    destruct (Hscan HI) as (Hb & _).
    pose proof (scan_shaped k (I st) (seq (I st) (N - I st)) st1 Hk)
      as Hshape.
    rewrite Eu, EuG, EuF, EI in *. specialize (Hshape (conj Hu (conj HuG HuF))).
    simpl in Hshape. destruct Hshape as (? & ? & ?).
    split; [done|]. split; [|lia]. apply wf_intro; simpl; try done. lia.
  - intros [= <- <-]. left. eauto.
Qed.

(** *** The two passes over the slices *)

Lemma fine_pass_spec k (st : tables F) l :
  wf n N st → (1 ≤ k ≤ N)%nat →
  run_spec (for_run (fine_step f t n dt k) l st) (solve_of Fine k)
           (fun st' => wf n N st' ∧ I st' = I st).
Proof.
  intros Hwf Hk. apply run_spec_for_run; [|done].
  intros st1 i _ [Hwf1 HI1].
  eapply run_spec_weaken; [by apply fine_step_spec | done |].
  intros st2 (? & ? & _). split; [done | congruence].
Qed.

Lemma correct_pass_spec k (st : tables F) l :
  wf n N st → (k ≤ N)%nat →
  run_spec (for_run (correct_step f t n dT k) l st) (solve_of Coarse k)
           (fun st' => wf n N st' ∧ I st' = I st).
Proof.
  intros Hwf Hk. apply run_spec_for_run; [|done].
  intros st1 i _ [Hwf1 HI1].
  eapply run_spec_weaken; [by apply correct_step_spec | done |].
  intros st2 (? & ? & _). split; [done | congruence].
Qed.

(** What one predictor-corrector step leaves in the coarse array. *)
Lemma correct_step_inv k (st : tables F) i w st' :
  correct_step f t n dT k st i = (w, Ok st') →
  ∃ temp, w = [Solve Coarse k i (next n k (u st !!! i)) (Ok temp)]
          ∧ length temp = length (next n k (u st !!! i))
          ∧ uG st' = write (i + 1) (n * k) temp (uG st).
Proof.
  unfold correct_step. intros Hstep.
  apply bind_inv_Ok in Hstep as (w1 & temp & w2 & Hsolve & Hret & ->).
  injection Hret as <- <-.
  apply solve_inv in Hsolve
    as [(_ & [=] & _) | (ti & ti1 & _ & _ & -> & Hout)].
  exists temp. rewrite <- Hout, app_nil_r. split; [done|].
  split; [by eapply solve_on_copy_length | done].
Qed.

(** The pass over the slices [b, b + m) writes the rows [b + 1] and up. *)
Lemma correct_pass_rows k m : ∀ b (st : tables F) w st',
  for_run (correct_step f t n dT k) (seq b m) st = (w, Ok st') →
  ∀ r, (r ≤ b)%nat → uG st' !! r = uG st !! r.
Proof.
  induction m as [|m IH]; intros b st w st'; simpl.
  - by intros [= _ <-].
  - intros Hrun r Hr.
    apply bind_inv_Ok in Hrun as (w1 & st1 & w2 & Hstep & Hrest & _).
    apply correct_step_inv in Hstep as (temp & _ & _ & HuG).
    rewrite (IH _ _ _ _ Hrest r) by lia.
    rewrite HuG. apply write_lookup_ne. lia.
Qed.

(** A coarse result with a NaN stays in the coarse array until the pass
    ends, in the columns of the iteration. *)
Lemma correct_pass_nan k m : ∀ a (st : tables F) w st',
  wf n N st → (k ≤ N)%nat → (a + m ≤ N)%nat →
  for_run (correct_step f t n dT k) (seq a m) st = (w, Ok st') →
  ∀ i v out,
    Solve Coarse k i v (Ok out) ∈ w →
    existsb isnan out = true →
    any_nan (n * k) (n * (k + 1)) (uG st') = true.
Proof.
  induction m as [|m IH]; intros a st w st' Hwf Hk Ham; simpl.
  - intros [= <- _] i v out Hin. by apply elem_of_nil in Hin.
  - intros Hrun i v out Hin Hnan.
    apply bind_inv_Ok in Hrun as (w1 & st1 & w2 & Hstep & Hrest & ->).
    pose proof (correct_step_spec k st a Hwf Hk) as [_ Hst1].
    rewrite Hstep in Hst1. destruct (Hst1 st1 eq_refl) as (Hwf1 & _).
    apply elem_of_app in Hin as [Hin|Hin].
    + apply correct_step_inv in Hstep as (temp & -> & Hlen & HuG).
      apply list_elem_of_singleton in Hin. injection Hin as -> -> ->.
      destruct Hwf as (Hu & HuG0 & _).
      destruct (shaped_lookup n N (u st) a Hu) as (urow & Hurow & Hulen);
        [lia|].
      destruct (shaped_lookup n N (uG st) (a + 1) HuG0)
        as (grow & Hgrow & Hglen); [lia|].
      rewrite (list_lookup_total_correct _ _ _ Hurow) in Hlen.
      rewrite (length_next_shaped k urow Hulen Hk) in Hlen.
      eapply (any_nan_row _ _ _ (a + 1)).
      * rewrite (correct_pass_rows k m (S a) st1 w2 st' Hrest) by lia.
        rewrite HuG. by apply write_lookup_eq.
      * replace (n * (k + 1))%nat with (n * k + length temp)%nat by lia.
        rewrite slice_set_slice; [done|].
        pose proof (block_bound k Hk). lia.
    + eapply (IH (S a)); eauto. lia.
Qed.

(** *** The fine solves through the pool and one after the other *)

Lemma write_block_nil r c (tbl : list (list F)) : write_block r c [] tbl = tbl.
Proof.
  unfold write_block. apply list_eq. intros j.
  rewrite list_lookup_imap. destruct (tbl !! j); simpl; [|done].
  by case_decide.
Qed.

Lemma write_block_cons r c (v : list F) block tbl :
  write_block r c (v :: block) tbl
  = write_block (r + 1) c block (write r c v tbl).
Proof.
  unfold write_block, write. apply list_eq. intros j.
  rewrite !list_lookup_imap, list_lookup_alter.
  destruct (tbl !! j) as [row|] eqn:Hrow; simpl.
  - destruct (decide (r = j)) as [->|Hne]; simpl.
    + rewrite Hrow. simpl.
      rewrite decide_True by lia. rewrite decide_False by lia.
      by rewrite Nat.sub_diag.
    + destruct (decide (r ≤ j)%nat) as [Hle|Hgt].
      * rewrite decide_True by lia.
        replace (j - r)%nat with (S (j - (r + 1))) by lia. done.
      * by rewrite decide_False by lia.
  - destruct (decide (r = j)) as [->|]; [by rewrite Hrow | done].
Qed.

Lemma map_run_length {A B : Type} (g : A → run F B) (l : list A) ys :
  (map_run g l).2 = Ok ys → length ys = length l.
Proof.
  revert ys. induction l as [|x l IH]; intros ys; simpl.
  - by intros [= <-].
  - destruct (g x) as [w1 [y|e]]; simpl; [|done].
    destruct (map_run g l) as [w2 [ys'|e]]; simpl; [|done].
    intros [= <-]. simpl. by rewrite (IH ys').
Qed.

Lemma mesh_total i : (i < length t)%nat → mesh t i = Ok (t !!! i).
Proof.
  intros Hi. unfold mesh.
  destruct (lookup_lt_is_Some_2 t i Hi) as [x Hx].
  by rewrite Hx, (list_lookup_total_correct _ _ _ Hx).
Qed.


Lemma solve_as_task k (st : tables F) i :
  (i + 1 < length t)%nat →
  solve f t Fine k i dt (cur n k (u st !!! i))
  = (let '(i, tspan, v) := fine_input t n k st i in
     let out := solve_on_copy Fine tspan dt v f in
     do! _ := emit (Solve Fine k i v out) in lift out).
Proof.
  intros Hi. unfold solve, fine_input. by rewrite !mesh_total by lia.
Qed.

(** *** The pool *)

Lemma map_run_app {A B : Type} (g : A → run F B) (l1 l2 : list A) :
  map_run g (l1 ++ l2)
  = (do! ys1 := map_run g l1 in
     do! ys2 := map_run g l2 in ret (ys1 ++ ys2)).
Proof.
  induction l1 as [|x l1 IH]; cbn [map_run app].
  - rewrite bind_ret_l. symmetry. apply bind_ret_r.
  - rewrite bind_assoc. apply bind_ext. intros y _.
    rewrite IH, !bind_assoc. apply bind_ext. intros ys1 _.
    rewrite bind_ret_l, bind_assoc. apply bind_ext. intros ys2 _.
    by rewrite bind_ret_l.
Qed.

Lemma map_run_events {A B : Type} (g : A → run F B) (l : list A)
    (P : event F → Prop) :
  (∀ x, x ∈ l → Forall P (g x).1) → Forall P (map_run g l).1.
Proof.
  induction l as [|x l IH]; intros Hg; cbn [map_run]; [constructor|].
  rewrite bind_trace. apply Forall_app. split; [apply Hg; by left|].
  destruct (g x).2; [|constructor].
  rewrite bind_trace. apply Forall_app. split.
  - apply IH. intros y Hy. apply Hg. by right.
  - destruct (map_run g l).2; constructor.
Qed.

Lemma map_run_calls {A B : Type} (g : A → run F B) (l : list A) :
  (∀ x, length (g x).1 ≤ 1)%nat →
  (length (map_run g l).1 ≤ length l)%nat.
Proof.
  intros Hg. induction l as [|x l IH]; cbn [map_run]; [done|].
  rewrite bind_trace, length_app. specialize (Hg x).
  destruct (g x).2; simpl; [|lia].
  rewrite bind_trace, length_app.
  destruct (map_run g l).2; simpl; lia.
Qed.

Lemma map_run_raises {A B : Type} (g : A → run F B) (l : list A) e :
  (map_run g l).2 = Raise e → ∃ x, x ∈ l ∧ (g x).2 = Raise e.
Proof.
  induction l as [|x l IH]; cbn [map_run]; [done|].
  destruct (g x) as [w1 [y|e1]] eqn:Hx; simpl.
  - destruct (map_run g l) as [w2 [ys|e2]]; simpl; [done|].
    intros [= ->]. destruct (IH eq_refl) as (x' & ? & ?).
    exists x'. split; [by right | done].
  - intros [= ->]. exists x. split; [by left|]. by rewrite Hx.
Qed.

Lemma get_tasks_prefix {A : Type} fuel size : ∀ it : list A,
  ∃ rest, it = concat (get_tasks fuel size it) ++ rest.
Proof.
  induction fuel as [|fuel IH]; intros it; cbn [get_tasks].
  - by exists it.
  - destruct (take size it) as [|x xs] eqn:Htake; [by exists it|].
    destruct (IH (drop size it)) as (rest & Hrest). exists rest.
    cbn [concat]. rewrite <- app_assoc, <- Hrest, <- Htake.
    by rewrite take_drop.
Qed.

Lemma get_tasks_concat {A : Type} fuel size : ∀ it : list A,
  (1 ≤ size)%nat → (length it ≤ fuel)%nat →
  concat (get_tasks fuel size it) = it.
Proof.
  induction fuel as [|fuel IH]; intros it Hsize Hfuel; cbn [get_tasks].
  - destruct it; [done | simpl in Hfuel; lia].
  - destruct (take size it) as [|x xs] eqn:Htake.
    + destruct it as [|y it]; [done|]. destruct size; [lia | done].
    + cbn [concat]. rewrite IH; [|done|].
      * by rewrite <- Htake, take_drop.
      * rewrite length_drop. destruct it; simpl in *; [|lia].
        by rewrite take_nil in Htake.
Qed.

Lemma elem_of_concat {A : Type} (x : A) c (cs : list (list A)) :
  x ∈ c → c ∈ cs → x ∈ concat cs.
Proof.
  intros Hx. induction 1 as [c cs|c c' cs _ IH]; simpl;
    apply elem_of_app; auto.
Qed.

Lemma chunksize_pos len procs : (0 < len)%nat → (1 ≤ chunksize len procs)%nat.
Proof.
  intros Hlen. unfold chunksize.
  destruct (Nat.eqb_spec (len mod (procs * 4)) 0) as [Hmod|]; [|lia].
  destruct (decide (procs * 4 = 0)%nat) as [Hz|Hnz].
  - rewrite Hz in Hmod. simpl in Hmod. lia.
  - pose proof (Nat.div_mod_eq len (procs * 4)). nia.
Qed.

Lemma chunks_inputs {A : Type} procs (it : list A) :
  concat (get_tasks (length it) (chunksize (length it) procs) it) = it.
Proof.
  destruct it as [|x it]; [done|].
  apply get_tasks_concat; [|done]. apply chunksize_pos. simpl. lia.
Qed.

Lemma chunks_all_ok {A B : Type} (g : A → run F B) (cs : list (list A)) :
  failures (map_run g <$> cs) = [] →
  map_run g (concat cs)
  = (concat (fst <$> (map_run g <$> cs)), Ok (gathered (map_run g <$> cs))).
Proof.
  unfold failures, gathered.
  induction cs as [|c cs IH]; [done|]. cbn [fmap list_fmap omap list_omap concat].
  rewrite map_run_app.
  destruct (map_run g c) as [w1 [ys1|e1]]; simpl; [|done].
  intros Hnil. rewrite (IH Hnil). simpl. by rewrite app_nil_r.
Qed.

Lemma chunks_failed {A B : Type} (g : A → run F B) (cs : list (list A)) :
  failures (map_run g <$> cs) ≠ [] →
  ∃ e, (map_run g (concat cs)).2 = Raise e.
Proof.
  unfold failures.
  induction cs as [|c cs IH]; [done|]. cbn [fmap list_fmap omap list_omap concat].
  rewrite map_run_app.
  destruct (map_run g c) as [w1 [ys1|e1]]; simpl; [|eauto].
  intros Hne. destruct (IH Hne) as [e He].
  destruct (map_run g (concat cs)) as [w2 [ys2|e2]]; simpl in *; [done|eauto].
Qed.

Lemma failures_from {A : Type} (outs : list (run F A)) e :
  e ∈ failures outs → ∃ o, o ∈ outs ∧ o.2 = Raise e.
Proof.
  unfold failures. intros (o & Ho & Hoe)%list_elem_of_omap.
  exists o. split; [done|]. by destruct o.2 as [|e']; simplify_eq.
Qed.

Lemma first_back_failed (e : exn) es j :
  default e ((e :: es) !! j) ∈ e :: es.
Proof.
  destruct ((e :: es) !! j) as [e'|] eqn:Hj; simpl.
  - by eapply list_elem_of_lookup_2.
  - by left.
Qed.

Lemma mapstar_events k chunk (P : event F → Prop) :
  (∀ a, a ∈ chunk → Forall P (task f dt k a).1) →
  Forall P (mapstar hst f dt k chunk).1.
Proof.
  intros Hchunk. unfold mapstar.
  destruct (pickling hst); [constructor|]. by apply map_run_events.
Qed.

Lemma task_one_call k a : (length (task f dt k a).1 ≤ 1)%nat.
Proof.
  destruct a as [[i tspan] v]. unfold task.
  by destruct (solve_on_copy Fine tspan dt v f).
Qed.

Lemma task_event k i tspan v :
  Forall (fun e => ∃ v' out, e = Solve Fine k i v' out)
         (task f dt k (i, tspan, v)).1.
Proof.
  unfold task. destruct (solve_on_copy Fine tspan dt v f);
    repeat constructor; eauto.
Qed.

Lemma mapstar_calls k chunk :
  (length (mapstar hst f dt k chunk).1 ≤ length chunk)%nat.
Proof.
  unfold mapstar. destruct (pickling hst); simpl; [lia|].
  apply map_run_calls, task_one_call.
Qed.

Lemma starmap_trace procs k inputs :
  (starmap_FineSolver hst f dt procs k inputs).1
  = concat (fst <$> (mapstar hst f dt k
                       <$> get_tasks (length inputs)
                             (chunksize (length inputs) procs) inputs)).
Proof. unfold starmap_FineSolver. by destruct (failures _). Qed.

Lemma starmap_events procs k inputs (P : event F → Prop) :
  (∀ a, a ∈ inputs → Forall P (task f dt k a).1) →
  Forall P (starmap_FineSolver hst f dt procs k inputs).1.
Proof.
  intros Hin. rewrite starmap_trace.
  destruct (get_tasks_prefix (length inputs)
              (chunksize (length inputs) procs) inputs) as (rest & Hrest).
  revert Hrest. generalize (get_tasks (length inputs)
                              (chunksize (length inputs) procs) inputs).
  intros cs Hcs.
  assert (∀ a, a ∈ concat cs → Forall P (task f dt k a).1) as Hcs'.
  { intros a Ha. apply Hin. rewrite Hcs. apply elem_of_app. by left. }
  clear Hcs Hin. induction cs as [|c cs IH]; [constructor|].
  cbn [fmap list_fmap concat]. apply Forall_app. split.
  - apply mapstar_events. intros a Ha. apply Hcs'. simpl.
    apply elem_of_app. by left.
  - apply IH. intros a Ha. apply Hcs'. simpl. apply elem_of_app. by right.
Qed.

Lemma starmap_calls procs k inputs :
  (length (starmap_FineSolver hst f dt procs k inputs).1 ≤ length inputs)%nat.
Proof.
  rewrite starmap_trace.
  destruct (get_tasks_prefix (length inputs)
              (chunksize (length inputs) procs) inputs) as (rest & Hrest).
  apply (f_equal length) in Hrest. rewrite length_app in Hrest.
  revert Hrest. generalize (get_tasks (length inputs)
                              (chunksize (length inputs) procs) inputs).
  generalize (length inputs). intros len cs Hcs.
  assert (length (concat (fst <$> (mapstar hst f dt k <$> cs)))
          ≤ length (concat cs))%nat; [|lia].
  clear Hcs. induction cs as [|c cs IH]; [done|].
  cbn [fmap list_fmap concat]. rewrite !length_app.
  pose proof (mapstar_calls k c). lia.
Qed.

(** When the pool gives its results back, they are the results of the
    tasks one after the other, and so is the trace. *)
Lemma starmap_Ok procs k inputs results :
  (starmap_FineSolver hst f dt procs k inputs).2 = Ok results →
  starmap_FineSolver hst f dt procs k inputs = map_run (task f dt k) inputs.
Proof.
  unfold starmap_FineSolver.
  pose proof (chunks_inputs procs inputs) as Hcs. revert Hcs.
  generalize (get_tasks (length inputs) (chunksize (length inputs) procs)
                inputs).
  intros cs Hcs.
  destruct (failures (mapstar hst f dt k <$> cs)) as [|e es] eqn:Hfail;
    [|done].
  intros _. unfold mapstar in *. destruct (pickling hst) as [e|].
  - destruct cs as [|c cs]; [|done]. by rewrite <- Hcs.
  - change (fun chunk => map_run (task f dt k) chunk)
      with (map_run (F := F) (task f dt k)) in *.
    by rewrite <- Hcs, chunks_all_ok.
Qed.

(** When the pool raises, the tasks could not be pickled, or one of them
    raised that exception; then the tasks run one after the other raise
    too. *)
Lemma starmap_Raise procs k inputs e :
  (starmap_FineSolver hst f dt procs k inputs).2 = Raise e →
  pickling hst = Some e
  ∨ (pickling hst = None
     ∧ (∃ a, a ∈ inputs ∧ (task f dt k a).2 = Raise e)
     ∧ ∃ e', (map_run (task f dt k) inputs).2 = Raise e').
Proof.
  unfold starmap_FineSolver.
  pose proof (chunks_inputs procs inputs) as Hcs. revert Hcs.
  generalize (get_tasks (length inputs) (chunksize (length inputs) procs)
                inputs).
  intros cs Hcs.
  destruct (failures (mapstar hst f dt k <$> cs)) as [|e0 es] eqn:Hfail;
    [done|].
  simpl. intros [= <-].
  pose proof (first_back_failed e0 es (first_back hst k)) as Hin.
  rewrite <- Hfail in Hin.
  apply failures_from in Hin as (o & Ho & Hoe).
  apply list_elem_of_fmap in Ho as (c & -> & Hc).
  unfold mapstar in *. destruct (pickling hst) as [e|].
  - left. simpl in Hoe. congruence.
  - right. split; [done|]. split.
    + apply map_run_raises in Hoe as (a & Ha & Hae).
      exists a. split; [|by rewrite Hfail in Hae]. rewrite <- Hcs.
      by apply (elem_of_concat a c).
    + rewrite <- Hcs. apply chunks_failed.
      change (fun chunk => map_run (task f dt k) chunk)
        with (map_run (F := F) (task f dt k)) in Hfail.
      by rewrite Hfail.
Qed.


(** *** The fine solves through the pool *)

Lemma fine_pass_as_block k m : ∀ a (st : tables F),
  (a + m < length t)%nat →
  for_run (fine_step f t n dt k) (seq a m) st
  = (do! results := map_run (task f dt k) (fine_input t n k st <$> seq a m) in
     ret (Tables (u st) (uG st)
                 (write_block (a + 1) (n * (k - 1)) results (uF st))
                 (err st) (slices st) (I st))).
Proof.
  induction m as [|m IH]; intros a st Ham.
  - cbn [seq fmap list_fmap map_run for_run].
    rewrite bind_ret_l, write_block_nil. by destruct st.
  - cbn [seq for_run fmap list_fmap map_run]. unfold fine_step at 1.
    rewrite bind_assoc, solve_as_task by lia.
    unfold fine_input at 1 2, task at 1. cbv zeta.
    rewrite !bind_assoc. apply bind_ext. intros [] _.
    apply bind_ext. intros temp _.
    rewrite bind_ret_l, IH by lia. cbn [u uG uF err slices I].
    rewrite bind_assoc. apply bind_ext. intros results _.
    rewrite bind_ret_l, write_block_cons.
    by replace (S a + 1)%nat with (a + 1 + 1)%nat by lia.
Qed.

(** The list [inputs] is built without a call; it raises when the mesh is
    too short for one of the slices. *)
Lemma fine_inputs_list k (st : tables F) l :
  (map_run (fun i => do! ti := lift (mesh t i) in
                     do! ti1 := lift (mesh t (i + 1)) in
                     ret (F := F) (i, (ti, ti1), cur n k (u st !!! i))) l
   = ret (fine_input t n k st <$> l)
   ∧ Forall (fun i => i + 1 < length t)%nat l)
  ∨ map_run (fun i => do! ti := lift (mesh t i) in
                      do! ti1 := lift (mesh t (i + 1)) in
                      ret (F := F) (i, (ti, ti1), cur n k (u st !!! i))) l
    = ([], Raise IndexError).
Proof.
  induction l as [|i l IH]; [by left|]. cbn [map_run].
  destruct (decide (i + 1 < length t)%nat) as [Hi|Hi].
  - rewrite !mesh_total by lia. rewrite !lift_Ok, !bind_ret_l.
    destruct IH as [[-> Hl] | ->].
    + left. rewrite bind_ret_l. split; [done|]. by constructor.
    + by right.
  - right. unfold mesh at 1 2.
    destruct (t !! i) as [x|]; [|done].
    by rewrite (lookup_ge_None_2 t (i + 1)) by lia.
Qed.

Lemma fine_inputs_cases k (st : tables F) :
  (fine_inputs t n N k st = ret (fine_input t n k st <$> seq (I st) (N - I st))
   ∧ ((I st < N)%nat → (N < length t)%nat))
  ∨ fine_inputs t n N k st = ([], Raise IndexError).
Proof.
  unfold fine_inputs.
  destruct (fine_inputs_list k st (seq (I st) (N - I st)))
    as [[-> Hl] | ->]; [left | by right].
  split; [done|]. intros HI. rewrite Forall_forall in Hl.
  specialize (Hl (N - 1)%nat). rewrite elem_of_seq in Hl. lia.
Qed.

(** The calls of the pool in iteration [k] are fine solves of slices from
    the frontier on, one for each slice at most. *)
Lemma fine_parallel_trace k (st : tables F) :
  Forall (fun e => ∃ i v out, (I st ≤ i < N)%nat ∧ e = Solve Fine k i v out)
         (fine_parallel hst f t n N dt k st).1
  ∧ (length (fine_parallel hst f t n N dt k st).1 ≤ N - I st)%nat.
Proof.
  unfold fine_parallel.
  destruct (fine_inputs_cases k st) as [[-> _] | ->];
    [|split; [constructor | simpl; lia]].
  rewrite bind_ret_l.
  destruct (Pool hst N) as [procs|e]; [|split; [constructor | simpl; lia]].
  rewrite lift_Ok, bind_ret_l.
  pose proof (starmap_events procs k
                (fine_input t n k st <$> seq (I st) (N - I st))
                (fun e => ∃ i v out,
                   (I st ≤ i < N)%nat ∧ e = Solve Fine k i v out)) as Hev.
  pose proof (starmap_calls procs k
                (fine_input t n k st <$> seq (I st) (N - I st))) as Hlen.
  rewrite length_fmap, length_seq in Hlen.
  destruct (starmap_FineSolver hst f dt procs k
              (fine_input t n k st <$> seq (I st) (N - I st)))
    as [w [[|r rs]|e]]; simpl in *; rewrite ?app_nil_r;
    (split; [|done]); apply Hev;
    intros a (i & -> & Hi%elem_of_seq)%list_elem_of_fmap;
    (eapply Forall_impl; [apply (task_event k i)|]);
    intros e' (v & out & ->); exists i, v, out; (split; [lia|done]).
Qed.

(** When the pool gives its results back, the fine solves of the iteration
    are those of the sequential loop: the same calls in the same order and
    the same arrays. *)
Lemma fine_parallel_Ok k (st st' : tables F) :
  (fine_parallel hst f t n N dt k st).2 = Ok st' →
  fine_parallel hst f t n N dt k st
  = for_run (fine_step f t n dt k) (seq (I st) (N - I st)) st.
Proof.
  unfold fine_parallel.
  destruct (fine_inputs_cases k st) as [[-> Ht] | ->]; [|done].
  rewrite bind_ret_l.
  destruct (Pool hst N) as [procs|e]; [|done].
  rewrite lift_Ok, bind_ret_l.
  destruct (starmap_FineSolver hst f dt procs k
              (fine_input t n k st <$> seq (I st) (N - I st)))
    as [w [results|e]] eqn:Hpool; [|done].
  pose proof (starmap_Ok procs k _ results (f_equal snd Hpool)) as Hseq.
  rewrite Hpool in Hseq.
  pose proof (map_run_length _ _ results (f_equal snd (eq_sym Hseq))) as Hlen.
  rewrite length_fmap, length_seq in Hlen.
  destruct results as [|r results]; [done|]. intros _.
  simpl in Hlen. rewrite fine_pass_as_block by lia.
  by rewrite <- Hseq.
Qed.

Lemma fine_parallel_spec k (st : tables F) (P : event F → Prop)
    (Q : tables F → Prop) :
  (∀ i v out, (I st ≤ i < N)%nat → P (Solve Fine k i v out)) →
  run_spec (for_run (fine_step f t n dt k) (seq (I st) (N - I st)) st) P Q →
  run_spec (fine_parallel hst f t n N dt k st) P Q.
Proof.
  intros HP Hseq.
  destruct (fine_parallel hst f t n N dt k st).2 as [st'|e] eqn:Hpar.
  - by rewrite (fine_parallel_Ok k st st').
  - split; [|by rewrite Hpar].
    eapply Forall_impl; [apply fine_parallel_trace|].
    intros e' (i & v & out & Hi & ->). by apply HP.
Qed.


(** The fine solves of an iteration, whatever the flag. *)
Lemma fine_stage_spec parallel k (st : tables F) (P : event F → Prop)
    (Q : tables F → Prop) :
  (∀ i v out, (I st ≤ i < N)%nat → P (Solve Fine k i v out)) →
  run_spec (for_run (fine_step f t n dt k) (seq (I st) (N - I st)) st) P Q →
  run_spec (fine_stage hst f t n N dt parallel k st) P
           (fun o => match o with
                     | Some st' => Q st'
                     | None => parallel = PyOther
                     end).
Proof.
  intros HP Hseq. destruct parallel; cbn [fine_stage].
  - eapply run_spec_bind; [by apply fine_parallel_spec|].
    intros st' HQ. by apply run_spec_ret.
  - eapply run_spec_bind; [done|].
    intros st' HQ. by apply run_spec_ret.
  - by apply run_spec_ret.
Qed.

(** A fine stage that returns: the flag is neither [True] nor [False]
    and nothing was done, or the stage is the sequential loop over the
    slices. *)
Lemma fine_stage_Ok parallel k (st : tables F) w o :
  fine_stage hst f t n N dt parallel k st = (w, Ok o) →
  (o = None ∧ w = [] ∧ parallel = PyOther)
  ∨ (∃ st1, o = Some st1 ∧ parallel ≠ PyOther
            ∧ for_run (fine_step f t n dt k) (seq (I st) (N - I st)) st
              = (w, Ok st1)).
Proof.
  destruct parallel; cbn [fine_stage].
  - intros (w1 & st1 & w2 & Hpar & [= <- <-] & ->)%bind_inv_Ok.
    right. exists st1. rewrite app_nil_r. split; [done|]. split; [done|].
    by rewrite <- (fine_parallel_Ok k st st1) by (by rewrite Hpar).
  - intros (w1 & st1 & w2 & Hseq & [= <- <-] & ->)%bind_inv_Ok.
    right. exists st1. by rewrite app_nil_r.
  - intros [= <- <-]. by left.
Qed.

(** *** One iteration of the loop *)

Lemma solve_of_iter s k (e : event F) :
  solve_of s k e → is_solve e ∧ event_iter e = k.
Proof. destruct e; simpl; [|done]. by intros [_ ->]. Qed.

Lemma frontiers_solves (w : list (event F)) :
  Forall is_solve w → frontiers w = [].
Proof.
  induction 1 as [|e w He _ IH]; [done|]. by destruct e.
Qed.

Lemma frontiers_app (w1 w2 : list (event F)) :
  frontiers (w1 ++ w2) = frontiers w1 ++ frontiers w2.
Proof. apply omap_app. Qed.

(** How an iteration [k] of the loop goes, from a state whose frontier is
    below [N]: its two passes leave the calls [w1]; then the loop raises,
    or it is left on a NaN, or the frontier moves up and the loop is left
    or goes on with the next iteration. *)
Lemma iterations_cons_inv parallel k ks kl (st : tables F) w r :
  parallel ≠ PyOther →
  wf n N st → (I st < N)%nat → (1 ≤ k ≤ N)%nat →
  iterations hst f t n N dT dt epsilon parallel (k :: ks) kl st = (w, r) →
  ∃ w1,
    Forall (fun e => is_solve e ∧ event_iter e = k) w1
    ∧ ((w = w1 ∧ ∃ e, r = Raise e)
       ∨ (∃ st2, w = w1 ∧ r = Ok (Left k true st2) ∧ wf n N st2)
       ∨ (no_nan_calls k w1
          ∧ ((∃ st3, w = w1 ++ [Frontier k (I st3)]
                     ∧ r = Ok (Left k false st3) ∧ wf n N st3
                     ∧ I st3 = N ∧ (I st < I st3)%nat)
             ∨ (∃ st3 w',
                  w = w1 ++ Frontier k (I st3) :: w'
                  ∧ wf n N st3 ∧ (I st < I st3)%nat ∧ (I st3 < N)%nat
                  ∧ iterations hst f t n N dT dt epsilon parallel ks k st3
                    = (w', r))))).
Proof.
  intros Hflag Hwf HI Hk. cbn [iterations]. intros Hrun.
  pose proof (fine_stage_spec parallel k st (solve_of Fine k) _
                ltac:(by intros i v out _)
                (fine_pass_spec k st (seq (I st) (N - I st)) Hwf Hk))
    as [Hfine_w Hfine_r].
  apply bind_inv in Hrun
    as [(e & Hfine & ->) | (wa & [st1|] & w2 & Hfine & Hrun & ->)];
    rewrite Hfine in Hfine_w, Hfine_r; simpl in Hfine_w, Hfine_r.
  { exists w. split; [|eauto].
    eapply Forall_impl; [done|]. apply solve_of_iter. }
  2:{ by destruct (Hflag (Hfine_r None eq_refl)). }
  destruct (Hfine_r (Some st1) eq_refl) as [Hwf1 HI1].
  assert (k ≤ N)%nat as Hk' by lia.
  pose proof (correct_pass_spec k st1 (seq (I st1) (N - I st1)) Hwf1 Hk')
    as [Hcor_w Hcor_r].
  apply bind_inv in Hrun
    as [(e & Hcor & ->) | (wc & st2 & w3 & Hcor & Hrun & ->)];
    rewrite Hcor in Hcor_w, Hcor_r; simpl in Hcor_w, Hcor_r.
  { exists (wa ++ w2). split; [|eauto].
    apply Forall_app. split; (eapply Forall_impl; [done|]);
      apply solve_of_iter. }
  destruct (Hcor_r st2 eq_refl) as [Hwf2 HI2].
  exists (wa ++ wc). split.
  { apply Forall_app. split; (eapply Forall_impl; [done|]);
      apply solve_of_iter. }
  destruct (any_nan (n * k) (n * (k + 1)) (uG st2)) eqn:Hnan.
  { injection Hrun as <- <-. right. left. exists st2.
    by rewrite app_nil_r. }
  assert (no_nan_calls k (wa ++ wc)) as Hno.
  { intros i v out [Hin|Hin]%elem_of_app.
    - rewrite Forall_forall in Hfine_w. by destruct (Hfine_w _ Hin).
    - destruct (existsb isnan out) eqn:Hout; [|done].
      rewrite <- Hnan. symmetry.
      eapply (correct_pass_nan k (N - I st1) (I st1) st1 wc st2);
        eauto. lia. }
  apply bind_inv in Hrun
    as [(e & Hconv & ->) | (w4 & st3 & w5 & Hconv & Hrun & ->)];
    apply convergence_inv in Hconv
      as [(-> & e' & He') | (st3' & Hst3 & -> & Hwf3 & HI3)];
      try done; try lia.
  - left. rewrite app_nil_r. eauto.
  - injection Hst3 as <-. right. right. split; [done|].
    case_decide as HN.
    + injection Hrun as <- <-. left. exists st3.
      rewrite app_nil_r, app_assoc. split_and!; try done. lia.
    + right. exists st3, w5. pose proof Hwf3 as (_ & _ & _ & ?).
      rewrite <- app_assoc. split_and!; try done; lia.
Qed.

(** *** The whole loop *)

(** The frontier never decreases along the loop and never passes [N]. *)
Lemma iterations_frontiers parallel m : ∀ a kl (st : tables F) w r,
  parallel ≠ PyOther →
  wf n N st → (I st < N)%nat → (1 ≤ a)%nat → (a + m ≤ N + 1)%nat →
  iterations hst f t n N dT dt epsilon parallel (seq a m) kl st = (w, r) →
  ascending (I st) N (frontiers w).
Proof.
  induction m as [|m IH]; intros a kl st w r Hflag Hwf HI Ha Ham.
  - by intros [= <- _].
  - cbn [seq]. intros Hrun.
    apply iterations_cons_inv in Hrun
      as (w1 & Hw1 & [(-> & _) | [(st2 & -> & _) | (_ & Hrun)]]);
      try done; try lia.
    1,2: rewrite frontiers_solves; [done|];
         eapply Forall_impl; [done|]; by intros e [? _].
    assert (frontiers w1 = []) as Hnil.
    { apply frontiers_solves. eapply Forall_impl; [done|]. by intros e [? _]. }
    destruct Hrun as [(st3 & -> & _ & Hwf3 & HN & Hlt)
                     | (st3 & w' & -> & Hwf3 & Hlt & HN & Hrun)];
      rewrite frontiers_app, Hnil; simpl.
    + lia.
    + split; [lia|]. eapply (IH (S a)); eauto; lia.
Qed.

(** Every event of the loop over the iterations [a, a + m) belongs to one
    of them. *)
Lemma iterations_events parallel m : ∀ a kl (st : tables F) w r,
  parallel ≠ PyOther →
  wf n N st → (I st < N)%nat → (1 ≤ a)%nat → (a + m ≤ N + 1)%nat →
  iterations hst f t n N dT dt epsilon parallel (seq a m) kl st = (w, r) →
  Forall (fun e => a ≤ event_iter e < a + m)%nat w.
Proof.
  induction m as [|m IH]; intros a kl st w r Hflag Hwf HI Ha Ham.
  - intros [= <- _]. constructor.
  - cbn [seq]. intros Hrun.
    assert (∀ w1 : list (event F),
              Forall (fun e => is_solve e ∧ event_iter e = a) w1 →
              Forall (fun e => a ≤ event_iter e < a + S m)%nat w1) as Hsub.
    { intros w1 Hw1. eapply Forall_impl; [done|]. intros e [_ ->]. lia. }
    apply iterations_cons_inv in Hrun
      as (w1 & Hw1 & [(-> & _) | [(st2 & -> & _) | (_ & Hrun)]]);
      try done; try lia.
    1,2: by apply Hsub.
    destruct Hrun as [(st3 & -> & _ & Hwf3 & HN & Hlt)
                     | (st3 & w' & -> & Hwf3 & Hlt & HN & Hrun)].
    + apply Forall_app. split; [by apply Hsub|].
      repeat constructor; simpl; lia.
    + apply Forall_app. split; [by apply Hsub|].
      constructor; [simpl; lia|].
      eapply Forall_impl; [eapply (IH (S a)); eauto; lia|].
      intros e He. simpl in He. lia.
Qed.

(** The loop is left with tables of the right shape after one of its
    iterations. *)
Lemma iterations_result parallel m : ∀ a kl (st : tables F) w r,
  parallel ≠ PyOther →
  wf n N st → (I st < N)%nat → (1 ≤ a)%nat → (a + m ≤ N + 1)%nat →
  iterations hst f t n N dT dt epsilon parallel (seq a m) kl st = (w, r) →
  match r with
  | Ok Returned_None => False
  | Ok (Left k _ st') =>
      wf n N st' ∧ ((m = 0 ∧ k = kl)%nat ∨ (a ≤ k < a + m)%nat)
  | Raise _ => True
  end.
Proof.
  induction m as [|m IH]; intros a kl st w r Hflag Hwf HI Ha Ham.
  - intros [= _ <-]. auto.
  - cbn [seq]. intros Hrun.
    apply iterations_cons_inv in Hrun
      as (w1 & Hw1 & [(-> & e & ->) | [(st2 & -> & -> & ?) | (_ & Hrun)]]);
      try done; try lia.
    { split; [done|]. right. lia. }
    destruct Hrun as [(st3 & -> & -> & Hwf3 & HN & Hlt)
                     | (st3 & w' & -> & Hwf3 & Hlt & HN & Hrun)].
    + split; [done|]. right. lia.
    + apply (IH (S a)) in Hrun; try done; try lia.
      destruct r as [[|k nanflag st']|]; try done.
      destruct Hrun as [? [[? ?]|?]]; (split; [done|]); right; lia.
Qed.

(** Once a coarse result of iteration [k] holds a NaN, the loop is left
    after the pass of that iteration: no convergence test is made in
    iteration [k], no later iteration is run, and the loop ends on the NaN
    or on an exception. *)
Lemma iterations_nan parallel m : ∀ a kl (st : tables F) w r,
  parallel ≠ PyOther →
  wf n N st → (I st < N)%nat → (1 ≤ a)%nat → (a + m ≤ N + 1)%nat →
  iterations hst f t n N dT dt epsilon parallel (seq a m) kl st = (w, r) →
  ∀ k i v out,
    Solve Coarse k i v (Ok out) ∈ w →
    existsb isnan out = true →
    Forall (fun e => event_iter e ≤ k ∧ (event_iter e = k → is_solve e))%nat
           w
    ∧ ((∃ e, r = Raise e) ∨ ∃ st', r = Ok (Left k true st')).
Proof.
  induction m as [|m IH]; intros a kl st w r Hflag Hwf HI Ha Ham.
  - intros [= <- _] k i v out Hin. by apply elem_of_nil in Hin.
  - cbn [seq]. intros Hrun k i v out Hin Hnan.
    apply iterations_cons_inv in Hrun
      as (w1 & Hw1 & Hcases); try done; try lia.
    assert (Solve Coarse k i v (Ok out) ∈ w1 → k = a) as Hk.
    { intros Hin1. rewrite Forall_forall in Hw1.
      by destruct (Hw1 _ Hin1) as [_ <-]. }
    assert (k = a →
            Forall (fun e : event F =>
                      event_iter e ≤ k ∧ (event_iter e = k → is_solve e))%nat
                   w1) as Hhead.
    { intros ->. eapply Forall_impl; [done|]. intros e [? ->]. auto. }
    destruct Hcases as [(-> & e & ->) | [(st2 & -> & -> & ?) | (Hno & Hrun)]].
    + specialize (Hk Hin). split; [auto | eauto].
    + specialize (Hk Hin) as ->. split; [auto | eauto].
    + assert (Solve Coarse k i v (Ok out) ∉ w1) as Hnotin.
      { intros Hin1. pose proof (Hk Hin1) as ->.
        rewrite (Hno _ _ _ Hin1) in Hnan. done. }
      destruct Hrun as [(st3 & -> & _ & Hwf3 & HN & Hlt)
                       | (st3 & w' & -> & Hwf3 & Hlt & HN & Hrun)].
      * apply elem_of_app in Hin as [?|Hin]; [done|].
        by apply list_elem_of_singleton in Hin.
      * apply elem_of_app in Hin as [?|Hin]; [done|].
        apply elem_of_cons in Hin as [?|Hin]; [done|].
        pose proof (iterations_events parallel m (S a) a st3 w' r Hflag
                      Hwf3 HN
                      ltac:(lia) ltac:(lia) Hrun) as Hev.
        rewrite Forall_forall in Hev. pose proof (Hev _ Hin) as Hka.
        simpl in Hka.
        destruct (IH (S a) a st3 w' r Hflag Hwf3 HN ltac:(lia) ltac:(lia)
                     Hrun
                     k i v out Hin Hnan) as [Htail Hr].
        split; [|done].
        apply Forall_app. split.
        { eapply Forall_impl; [done|]. intros e [? ->]. split; lia. }
        constructor; [simpl; split; lia | done].
Qed.

(** *** The loop with another flag *)


(** With a flag that is neither [True] nor [False] the first iteration
    returns at once. *)
Lemma iterations_other k ks kl (st : tables F) :
  iterations hst f t n N dT dt epsilon PyOther (k :: ks) kl st
  = ret Returned_None.
Proof. done. Qed.

(** *** The first coarse sweep *)

Lemma bootstrap_spec (st : tables F) m :
  wf n N st →
  run_spec (for_run (bootstrap_step f t n dT) (seq 0 m) st)
           (solve_of Coarse 0)
           (fun st' => wf n N st' ∧ I st' = I st
                       ∧ (0 < m → m < length t)%nat).
Proof.
  intros Hwf.
  induction m as [|m IH];
    [apply run_spec_ret; split; [done|]; split; [done|lia]|].
  rewrite seq_S, for_run_app. cbn [for_run].
  eapply run_spec_bind; [apply IH|].
  intros st1 (Hwf1 & HI1 & _). rewrite bind_ret_r.
  eapply run_spec_weaken; [by apply bootstrap_step_spec | done |].
  intros st2 (? & ? & ?). split; [done|]. split; [congruence|lia].
Qed.

(** *** The algorithm from the storage on *)

Lemma algorithm_unfold parallel (st : tables F) :
  algorithm hst f t n N dT dt epsilon parallel st
  = (do! st0 := for_run (bootstrap_step f t n dT) (seq 0 N) st in
     do! e := iterations hst f t n N dT dt epsilon parallel (seq 1 N) 0%nat
                         st0 in
     output t n e).
Proof. unfold algorithm, sweeps. apply bind_assoc. Qed.

Lemma flag_eq_dec (x y : flag) : {x = y} + {x ≠ y}.
Proof. decide equality. Qed.

(** A run of the algorithm: the first sweep raises, or it is followed by
    the loop and the output. *)
Lemma algorithm_inv parallel (st : tables F) w r :
  wf n N st → (I st < N)%nat →
  algorithm hst f t n N dT dt epsilon parallel st = (w, r) →
  (Forall (solve_of Coarse 0) w ∧ ∃ e, r = Raise e)
  ∨ (∃ w0 st0 w1 r1,
       w = w0 ++ w1 ∧ Forall (solve_of Coarse 0) w0
       ∧ wf n N st0 ∧ (I st0 < N)%nat ∧ I st0 = I st
       ∧ for_run (bootstrap_step f t n dT) (seq 0 N) st = (w0, Ok st0)
       ∧ iterations hst f t n N dT dt epsilon parallel (seq 1 N) 0 st0
         = (w1, r1)
       ∧ r = (let! e := r1 in (output t n e).2)
       ∧ (∀ e, r1 = Ok e → (output t n e).1 = [])).
Proof.
  intros Hwf HI. rewrite algorithm_unfold. intros Hrun.
  pose proof (bootstrap_spec st N Hwf) as [Hw0 Hr0].
  apply bind_inv in Hrun
    as [(e & Hboot & ->) | (w0 & st0 & w' & Hboot & Hrun & ->)];
    rewrite Hboot in Hw0, Hr0; simpl in Hw0, Hr0.
  { left. eauto. }
  destruct (Hr0 st0 eq_refl) as (Hwf0 & HI0 & _).
  right.
  destruct (iterations hst f t n N dT dt epsilon parallel (seq 1 N) 0 st0)
    as [w1 r1] eqn:Hiter.
  assert (∀ e, (output t n e).1 = []) as Hout.
  { intros [|k [] st']; done. }
  destruct r1 as [e|e]; simpl in Hrun.
  - destruct (output t n e) as [w2 r2] eqn:Houtput.
    injection Hrun as <- <-. specialize (Hout e).
    rewrite Houtput in Hout. simpl in Hout. subst w2.
    exists w0, st0, w1, (Ok e). simpl. rewrite app_nil_r, Houtput.
    split_and!; try done; try lia. intros e' [= <-]. by rewrite Houtput.
  - injection Hrun as <- <-.
    exists w0, st0, w1, (Raise e). split_and!; try done; lia.
Qed.

Lemma algorithm_other (st : tables F) :
  (0 < N)%nat →
  algorithm hst f t n N dT dt epsilon PyOther st
  = (do! _ := for_run (bootstrap_step f t n dT) (seq 0 N) st in
     ret (RNone "Error: Please define parallel = True or False.")).
Proof.
  intros HN. rewrite algorithm_unfold. apply bind_ext. intros st0 _.
  destruct (seq 1 N) as [|k ks] eqn:Hks.
  - apply (f_equal length) in Hks. rewrite length_seq in Hks. simpl in Hks. lia.
  - by rewrite iterations_other, bind_ret_l.
Qed.

(** The three facts about a whole run of the algorithm, whatever the flag:
    the frontier, the output, and what follows a NaN. *)
Lemma algorithm_frontiers parallel (st : tables F) w r :
  wf n N st → I st = 0%nat → (0 < N)%nat →
  algorithm hst f t n N dT dt epsilon parallel st = (w, r) →
  ascending 0 N (frontiers w).
Proof.
  intros Hwf HI HN.
  assert (∀ w0 : list (event F),
            Forall (solve_of Coarse 0) w0 → frontiers w0 = []) as Hsolves.
  { intros w0 Hw0. apply frontiers_solves. eapply Forall_impl; [done|].
    intros e He. by apply solve_of_iter in He as [? _]. }
  destruct (flag_eq_dec parallel PyOther) as [->|Hflag].
  - rewrite algorithm_other by done. intros Hrun.
    pose proof (bootstrap_spec st N Hwf) as [Hw0 _].
    destruct (for_run _ _ _) as [w0 [st0|e]]; injection Hrun as <- _;
      simpl in *; rewrite ?app_nil_r; by rewrite Hsolves.
  - intros Hrun.
    apply algorithm_inv in Hrun
      as [(Hw & _)
         | (w0 & st0 & w1 & r1 & -> & Hw0 & ? & ? & HI0 & _ & Hit & _)];
      try done; try lia.
    + by rewrite Hsolves.
    + rewrite frontiers_app, Hsolves by done. simpl.
      rewrite <- HI, <- HI0.
      eapply (iterations_frontiers parallel N 1); eauto; lia.
Qed.

(** A run that returns the tuple: the first sweep and the loop returned,
    the loop was left without a NaN after an iteration [k] between [1] and
    [N], and the output is cut out of the arrays it was left with. *)
Lemma algorithm_output parallel (st : tables F) w t' uo d :
  wf n N st → I st = 0%nat → (0 < N)%nat →
  algorithm hst f t n N dT dt epsilon parallel st = (w, Ok (RTuple t' uo d)) →
  t' = t ∧ (1 ≤ Iterations d ≤ N)%nat
  ∧ ∃ st', (sweeps hst f t n N dT dt epsilon parallel st).2
           = Ok (Left (Iterations d) false st')
           ∧ wf n N st'
           ∧ uo = slice n (n * (Iterations d + 1)) <$> u st'.
Proof.
  intros Hwf HI HN.
  destruct (flag_eq_dec parallel PyOther) as [->|Hflag].
  { rewrite algorithm_other by done. intros Hrun.
    destruct (for_run _ _ _) as [w0 [st0|e]]; by injection Hrun. }
  intros Hrun.
  apply algorithm_inv in Hrun
    as [(_ & e & [=])
       | (w0 & st0 & w1 & r1 & _ & _ & Hwf0 & HI0 & _ & Hboot & Hit & Hr & _)];
    try done; try lia.
  pose proof (iterations_result parallel N 1 0 st0 w1 r1 Hflag Hwf0 HI0
                ltac:(lia) ltac:(lia) Hit) as Hres.
  destruct r1 as [[|k nanflag st']|e]; try done.
  destruct nanflag; [done|]. simpl in Hr. injection Hr as -> -> ->.
  simpl. destruct Hres as (Hwf' & [[? ?]|?]); [lia|].
  split; [done|]. split; [lia|]. exists st'.
  unfold sweeps. rewrite Hboot. cbn [bind]. by rewrite Hit.
Qed.

Lemma algorithm_nan parallel (st : tables F) w r :
  wf n N st → I st = 0%nat → (0 < N)%nat →
  algorithm hst f t n N dT dt epsilon parallel st = (w, r) →
  ∀ k i v out,
    (1 ≤ k)%nat →
    Solve Coarse k i v (Ok out) ∈ w →
    existsb isnan out = true →
    Forall (fun e => event_iter e ≤ k ∧ (event_iter e = k → is_solve e))%nat
           w
    ∧ ∃ e, r = Raise e.
Proof.
  intros Hwf HI HN.
  assert (∀ (w0 : list (event F)) k,
            (1 ≤ k)%nat → Forall (solve_of Coarse 0) w0 →
            Forall (fun e => event_iter e ≤ k
                             ∧ (event_iter e = k → is_solve e))%nat w0)
    as Hboot.
  { intros w0 k Hk Hw0. eapply Forall_impl; [done|].
    intros e [? ->]%solve_of_iter. split; [lia|done]. }
  assert (∀ (w0 : list (event F)) k i v out,
            (1 ≤ k)%nat → Forall (solve_of Coarse 0) w0 →
            Solve Coarse k i v (Ok out) ∉ w0) as Hnotin.
  { intros w0 k i v out Hk Hw0 Hin. rewrite Forall_forall in Hw0.
    destruct (Hw0 _ Hin) as [_ Hk0]. lia. }
  destruct (flag_eq_dec parallel PyOther) as [->|Hflag].
  { rewrite algorithm_other by done. intros Hrun k i v out Hk Hin.
    pose proof (bootstrap_spec st N Hwf) as [Hw0 _].
    destruct (for_run _ _ _) as [w0 [st0|e]]; injection Hrun as <- _;
      simpl in *; rewrite ?app_nil_r in Hin;
      by destruct (Hnotin w0 k i v out). }
  intros Hrun k i v out Hk Hin Hnan.
  apply algorithm_inv in Hrun
    as [(Hw0 & _)
       | (w0 & st0 & w1 & r1 & -> & Hw0 & Hwf0 & HI0 & _ & _ & Hit & -> & _)];
    try done; try lia.
  { by destruct (Hnotin w k i v out). }
  apply elem_of_app in Hin as [Hin|Hin];
    [by destruct (Hnotin w0 k i v out)|].
  destruct (iterations_nan parallel N 1 0 st0 w1 r1 Hflag Hwf0 HI0
              ltac:(lia) ltac:(lia) Hit k i v out Hin Hnan) as [Hw1 Hr1].
  split; [apply Forall_app; auto|].
  destruct Hr1 as [[e ->] | [st' ->]]; simpl; eauto.
Qed.

End CoordinatorFacts.

(** ** The function [Parareal] *)

Section PararealFacts.
Context {F : Type} `{Arith F}.
#[local] Existing Instance F_inhabited.
Variable hst : host.

Lemma storage_wf (u0 : list F) N :
  wf (length u0) N (storage u0 (length u0) N)
  ∧ I (storage u0 (length u0) N) = 0%nat.
Proof.
  assert (shaped (length u0) N
            (<[0%nat := tile u0 (N + 1)]>
               (replicate (N + 1) (replicate (length u0 * (N + 1)) nan))))
    as Hshaped.
  { split.
    - by rewrite length_insert, length_replicate.
    - apply Forall_insert.
      + apply Forall_replicate. apply length_replicate.
      + rewrite length_tile. lia. }
  split; [|done]. apply wf_intro; simpl; try done; try lia.
  all: rewrite list_lookup_total_insert_eq
    by (rewrite length_replicate; lia); done.
Qed.

Lemma ascending_spec lo hi l :
  ascending lo hi l →
  Forall (fun x => lo ≤ x ≤ hi)%nat l
  ∧ ∀ i j x y,
      (i ≤ j)%nat → l !! i = Some x → l !! j = Some y → (x ≤ y)%nat.
Proof.
  revert lo. induction l as [|z l IH]; intros lo; simpl.
  - intros _. split; [constructor|]. intros i j x y _ Hi. by destruct i.
  - intros [Hz Hl]. destruct (IH z Hl) as [Hall Hsorted]. split.
    + constructor; [done|]. eapply Forall_impl; [done|]. simpl. lia.
    + intros [|i] [|j] x y Hij; simpl; try lia.
      * by intros [= <-] [= <-].
      * intros [= <-] Hy. rewrite Forall_lookup in Hall.
        apply (Hall _ _ Hy).
      * apply Hsorted. lia.
Qed.

(** [Parareal] leaves before any call, with a printed message or an
    exception, or it runs the algorithm on [N >= 1] slices with step counts
    that divide each other, on the mesh and with the two steps of the
    initialization; the flag [parallel] plays no part in that. *)
Lemma Parareal_setup f tspan (u0 : list F) N Ng Nf epsilon :
  (∃ r, (∀ parallel,
           Parareal hst f tspan u0 N Ng Nf epsilon parallel = ([], r))
        ∧ (r = Ok (RNone steps_message)
           ∨ ∃ e, r = Raise e))
  ∨ (∃ L_sub t dT dt,
       (1 ≤ N)%Z ∧ (N | Ng)%Z ∧ (Ng | Nf)%Z
       ∧ py_div (sub tspan.2 tspan.1) N = Ok L_sub
       ∧ py_div (sub tspan.2 tspan.1) Ng = Ok dT
       ∧ py_div (sub tspan.2 tspan.1) Nf = Ok dt
       ∧ np_arange tspan.1 (add tspan.2 L_sub) L_sub = Ok t
       ∧ ∀ parallel,
           Parareal hst f tspan u0 N Ng Nf epsilon parallel
           = algorithm hst f t (length u0) (Z.to_nat N) dT dt epsilon parallel
                       (storage u0 (length u0) (Z.to_nat N))).
Proof.
  set (L := sub tspan.2 tspan.1).
  destruct (Z.eqb N 0) eqn:HN.
  { left. exists (Raise ZeroDivisionError). split; [|eauto].
    intros parallel. unfold Parareal, py_div. by rewrite HN. }
  destruct (Z.eqb Ng 0) eqn:HNg.
  { left. exists (Raise ZeroDivisionError). split; [|eauto].
    intros parallel. unfold Parareal, py_div. by rewrite HN, HNg. }
  destruct (Z.eqb Nf 0) eqn:HNf.
  { left. exists (Raise ZeroDivisionError). split; [|eauto].
    intros parallel. unfold Parareal, py_div. by rewrite HN, HNg, HNf. }
  destruct (np_arange tspan.1 (add tspan.2 (div L (fl N))) (div L (fl N)))
    as [t|e] eqn:Ht.
  2:{ left. exists (Raise e). split; [|eauto].
      intros parallel. unfold Parareal, py_div. rewrite HN, HNg, HNf.
      rewrite !lift_Ok, !bind_ret_l. fold L. by rewrite Ht. }
  destruct (negb (Ng mod N =? 0)%Z || negb (Nf mod Ng =? 0)%Z) eqn:Hdiv.
  { left. exists (Ok (RNone steps_message)). split; [|eauto].
    intros parallel. unfold Parareal, py_div. rewrite HN, HNg, HNf.
    rewrite !lift_Ok, !bind_ret_l. fold L.
    by rewrite Ht, lift_Ok, bind_ret_l, Hdiv. }
  destruct (N <? 0)%Z eqn:Hneg.
  { left. exists (Raise ValueError). split; [|eauto].
    intros parallel. unfold Parareal, py_div. rewrite HN, HNg, HNf.
    rewrite !lift_Ok, !bind_ret_l. fold L.
    by rewrite Ht, lift_Ok, bind_ret_l, Hdiv, Hneg. }
  right. exists (div L (fl N)), t, (div L (fl Ng)), (div L (fl Nf)).
  assert ((N | Ng) ∧ (Ng | Nf))%Z as [? ?].
  { pose proof Hdiv as Hd.
    apply orb_false_elim in Hd as [H1%negb_false_iff H2%negb_false_iff].
    pose proof HN as HN'. pose proof HNg as HNg'.
    apply Z.eqb_eq in H1, H2. apply Z.eqb_neq in HN', HNg'.
    split; by apply Z.mod_divide. }
  pose proof (proj1 (Z.ltb_ge _ _) Hneg).
  pose proof (proj1 (Z.eqb_neq _ _) HN).
  unfold py_div. rewrite HN, HNg, HNf.
  split_and!; try done; try lia.
  intros parallel. unfold Parareal, py_div. rewrite HN, HNg, HNf.
  rewrite !lift_Ok, !bind_ret_l. fold L.
  by rewrite Ht, lift_Ok, bind_ret_l, Hdiv, Hneg.
Qed.

Lemma Parareal_cases f tspan (u0 : list F) N Ng Nf epsilon :
  (∃ r, (∀ parallel,
           Parareal hst f tspan u0 N Ng Nf epsilon parallel = ([], r))
        ∧ (r = Ok (RNone steps_message)
           ∨ ∃ e, r = Raise e))
  ∨ (∃ t dT dt (N' : nat),
       N = Z.of_nat N' ∧ (1 ≤ N')%nat ∧ (N | Ng)%Z ∧ (Ng | Nf)%Z
       ∧ ∀ parallel,
           Parareal hst f tspan u0 N Ng Nf epsilon parallel
           = algorithm hst f t (length u0) N' dT dt epsilon parallel
                       (storage u0 (length u0) N')).
Proof.
  destruct (Parareal_setup f tspan u0 N Ng Nf epsilon)
    as [? | (L_sub & t & dT & dt & HN & ? & ? & _ & _ & _ & _ & Hrun)];
    [by left|].
  right. exists t, dT, dt, (Z.to_nat N). split_and!; try done; lia.
Qed.

(** With step counts that do not divide each other, [Parareal] is in the
    first case. *)
Lemma Parareal_invalid f tspan (u0 : list F) N Ng Nf epsilon parallel :
  (¬ (N | Ng) ∨ ¬ (Ng | Nf))%Z →
  (Parareal hst f tspan u0 N Ng Nf epsilon parallel).1 = []
  ∧ ((Parareal hst f tspan u0 N Ng Nf epsilon parallel).2
     = Ok (RNone steps_message)
     ∨ ∃ e, (Parareal hst f tspan u0 N Ng Nf epsilon parallel).2 = Raise e).
Proof.
  intros Hinvalid.
  destruct (Parareal_cases f tspan u0 N Ng Nf epsilon)
    as [(r & Hrun & Hr) | (t & dT & dt & N' & _ & _ & ? & ? & _)];
    [|tauto].
  by rewrite Hrun.
Qed.

End PararealFacts.

(** ** The time loops, step by step *)

Section StepperLoops.
Context {F : Type} `{Arith F}.
Local Open Scope arith_scope.
#[local] Existing Instance F_inhabited.


(** The dense loop over the steps [a, a + m) keeps the number of rows, the
    rows up to [a], and the length of every row. *)
Lemma steps_dense_rows tb f t0 dt dim m : ∀ a (un un' : list (list F)),
  (a + m < length un)%nat →
  for_each (step_dense tb f t0 dt dim) (seq a m) un = Ok un' →
  length un' = length un
  ∧ (∀ r, (r ≤ a)%nat → un' !! r = un !! r)
  ∧ (Forall (fun row => length row = dim) un →
     Forall (fun row => length row = dim) un').
Proof.
  induction m as [|m IH]; intros a un un' Ham; simpl.
  - by intros [= <-].
  - intros Hrun. apply rbind_Ok in Hrun as (un1 & Hstep & Hrun).
    unfold step_dense in Hstep.
    apply rbind_Ok in Hstep as (inc & Hinc & Hstep). injection Hstep as <-.
    apply rk_increment_length in Hinc.
    apply IH in Hrun as (Hlen & Hrows & Hdim);
      [|rewrite length_insert; lia].
    rewrite length_insert in Hlen. split; [done|]. split.
    + intros r Hr. rewrite Hrows by lia.
      apply list_lookup_insert_ne. lia.
    + intros Hun. apply Hdim. apply Forall_insert; [done|].
      assert (is_Some (un !! a)) as [row Hrow]
        by (apply lookup_lt_is_Some; lia).
      rewrite (list_lookup_total_correct _ _ _ Hrow), length_vadd.
      rewrite (Forall_lookup_1 _ _ _ _ Hun Hrow). lia.
Qed.

(** The methods that the registry knows. *)
Lemma select_method_known method (tb : tableau F) :
  select_method method = Some tb →
  method ∈ ["RK1"; "RK2"; "RK3"; "RK4"; "RK5"; "RK6"; "RK7"; "RK8"]%string.
Proof.
  unfold select_method.
  repeat match goal with
         | |- context [String.eqb method ?s] =>
             destruct (String.eqb_spec method s) as [->|_];
             [intros _; repeat constructor|]
         end.
  done.
Qed.

(** In each tableau of the registry [a] has as many rows and columns as
    [b] has weights, and [c] has as many nodes. *)
Lemma tableaux_square (method : string) (tb : tableau F) :
  select_method method = Some tb →
  length (tab_c tb) = length (tab_b tb)
  ∧ length (tab_a tb) = length (tab_b tb)
  ∧ Forall (fun row => length row = length (tab_b tb)) (tab_a tb).
Proof.
  unfold select_method.
  repeat match goal with
         | |- context [String.eqb method ?s] =>
             destruct (String.eqb_spec method s) as [_|_];
             [intros [= <-]; split_and!; try done; repeat constructor|]
         end.
  done.
Qed.

End StepperLoops.

(** ** What the passes of a run keep *)

Section KeptFacts.
Context {F : Type} `{Arith F}.
#[local] Existing Instance F_inhabited.
Variable hst : host.
Variable f : F → list F → list F.
Variables (t : list F) (n N : nat) (dT dt epsilon : F).
Variable row0 : list F.

Lemma solve_event s k i step v :
  run_spec (solve f t s k i step v)
           (fun e => ∃ v' out, e = Solve s k i v' out) (fun _ => True).
Proof.
  destruct (solve f t s k i step v) as [w r] eqn:Hsolve.
  apply solve_inv in Hsolve
    as [(-> & -> & _) | (ti & ti1 & _ & _ & -> & ->)].
  - apply (run_spec_raise IndexError).
  - split; [|done]. repeat constructor. eauto.
Qed.

Lemma kept_intro (st : tables F) :
  wf n N st → u st !! 0%nat = Some row0 →
  length (err st) = (N + 1)%nat →
  Forall (fun row => length row = N) (err st) →
  length (slices st) = (N + 1)%nat →
  slices st !! 0%nat = Some (of_int (Z.of_nat N)) →
  kept n N row0 st.
Proof. unfold kept. auto 10. Qed.

Lemma bootstrap_step_frame st i :
  run_spec (bootstrap_step f t n dT st i)
           (fun e => ∃ v out, e = Solve Coarse 0 i v out)
           (fun st' => u st' !! 0%nat = u st !! 0%nat
                       ∧ err st' = err st ∧ slices st' = slices st).
Proof.
  unfold bootstrap_step.
  eapply run_spec_bind; [apply solve_event|].
  intros temp _. apply run_spec_ret. simpl.
  split; [|done]. apply write_lookup_ne. lia.
Qed.

Lemma fine_step_frame k st i :
  run_spec (fine_step f t n dt k st i)
           (fun e => ∃ v out, e = Solve Fine k i v out)
           (fun st' => err st' = err st ∧ slices st' = slices st).
Proof.
  unfold fine_step.
  eapply run_spec_bind; [apply solve_event|].
  intros temp _. by apply run_spec_ret.
Qed.

Lemma correct_step_frame k st i :
  run_spec (correct_step f t n dT k st i)
           (fun e => ∃ v out, e = Solve Coarse k i v out)
           (fun st' => u st' !! 0%nat = u st !! 0%nat
                       ∧ err st' = err st ∧ slices st' = slices st).
Proof.
  unfold correct_step.
  eapply run_spec_bind; [apply solve_event|].
  intros temp _. apply run_spec_ret. simpl.
  split; [|done]. apply write_lookup_ne. lia.
Qed.

Lemma bootstrap_kept (st : tables F) :
  kept n N row0 st →
  run_spec (for_run (bootstrap_step f t n dT) (seq 0 N) st) (in_range N)
           (fun st' => kept n N row0 st' ∧ I st' = I st).
Proof.
  intros Hst. apply run_spec_for_run; [|done].
  intros st1 i Hi%elem_of_seq [(Hwf & Hrow & He & Her & Hs & Hs0) HI].
  eapply run_spec_weaken;
    [exact (run_spec_conj _ _ _ _ _ (bootstrap_step_spec f t n N dT st1 i Hwf)
              (bootstrap_step_frame st1 i)) | |].
  - intros e [_ (v & out & ->)]. simpl. split; [lia|done].
  - intros st2 [(Hwf2 & HI2 & _) (Hrow2 & He2 & Hs2)].
    split; [|congruence]. apply kept_intro; congruence.
Qed.

Lemma fine_pass_kept k (st : tables F) :
  kept n N row0 st → (1 ≤ k ≤ N)%nat → (k ≤ I st + 1)%nat →
  run_spec (for_run (fine_step f t n dt k) (seq (I st) (N - I st)) st)
           (in_range N)
           (fun st' => kept n N row0 st' ∧ I st' = I st).
Proof.
  intros Hst Hk HkI. apply run_spec_for_run; [|done].
  intros st1 i Hi%elem_of_seq [(Hwf & Hrow & He & Her & Hs & Hs0) HI].
  eapply run_spec_weaken;
    [exact (run_spec_conj _ _ _ _ _ (fine_step_spec f t n N dt k st1 i Hwf Hk)
              (fine_step_frame k st1 i)) | |].
  - intros e [_ (v & out & ->)]. simpl. split; [lia|]. intros ->. lia.
  - intros st2 [(Hwf2 & HI2 & Hu2 & _) (He2 & Hs2)].
    split; [|congruence]. apply kept_intro; congruence.
Qed.

Lemma correct_pass_kept k (st : tables F) :
  kept n N row0 st → (1 ≤ k ≤ N)%nat → (k ≤ I st + 1)%nat →
  run_spec (for_run (correct_step f t n dT k) (seq (I st) (N - I st)) st)
           (in_range N)
           (fun st' => kept n N row0 st' ∧ I st' = I st).
Proof.
  intros Hst Hk HkI. apply run_spec_for_run; [|done].
  intros st1 i Hi%elem_of_seq [(Hwf & Hrow & He & Her & Hs & Hs0) HI].
  eapply run_spec_weaken;
    [exact (run_spec_conj _ _ _ _ _
              (correct_step_spec f t n N dT k st1 i Hwf ltac:(lia))
              (correct_step_frame k st1 i)) | |].
  - intros e [_ (v & out & ->)]. simpl. split; [lia|]. intros ->. lia.
  - intros st2 [(Hwf2 & HI2 & _) (Hrow2 & He2 & Hs2)].
    split; [|congruence]. apply kept_intro; congruence.
Qed.

Lemma map_result_length {A B : Type} (g : A → result B) (l : list A) ys :
  map_result g l = Ok ys → length ys = length l.
Proof.
  revert ys. induction l as [|x l IH]; intros ys; simpl.
  - by intros [= <-].
  - intros Hrun. apply rbind_Ok in Hrun as (y & _ & Hrun).
    apply rbind_Ok in Hrun as (ys' & Hys & Hrun). injection Hrun as <-.
    simpl. by rewrite (IH ys').
Qed.

Lemma map_result_lookup {A B : Type} (g : A → result B) (l : list A) ys :
  map_result g l = Ok ys →
  ∀ i x, l !! i = Some x → ∃ y, g x = Ok y ∧ ys !! i = Some y.
Proof.
  revert ys. induction l as [|x0 l IH]; intros ys; simpl.
  - intros _ i x Hi. by destruct i.
  - intros Hrun. apply rbind_Ok in Hrun as (y0 & Hy0 & Hrun).
    apply rbind_Ok in Hrun as (ys' & Hys & Hrun). injection Hrun as <-.
    intros [|i] x; simpl.
    + intros [= <-]. eauto.
    + by apply IH.
Qed.

(** The norm of a row of no entry raises: the errors of an iteration
    exist only for a system of one equation at least. *)
Lemma record_errors_dim k (st st' : tables F) :
  record_errors n k st = Ok st' → u st ≠ [] → (0 < n)%nat.
Proof.
  unfold record_errors. intros Hrec Hu.
  apply rbind_Ok in Hrec as (e & He & _).
  destruct (u st) as [|row rows]; [done|]. simpl in He.
  apply rbind_Ok in He as (y & Hy & _). unfold sup_norm in Hy.
  destruct (absf <$> vsub (next n k row) (cur n k row)) eqn:Habs; [done|].
  apply (f_equal length) in Habs.
  rewrite length_fmap in Habs. unfold vsub in Habs.
  rewrite length_zip_with in Habs. simpl in Habs.
  pose proof (length_next n k row). lia.
Qed.

Lemma record_errors_shape k (st st' : tables F) :
  record_errors n k st = Ok st' →
  length (u st) = (N + 1)%nat →
  length (err st) = (N + 1)%nat →
  Forall (fun row => length row = N) (err st) →
  length (err st') = (N + 1)%nat
  ∧ Forall (fun row => length row = N) (err st').
Proof.
  unfold record_errors. intros Hrec Hu He Her.
  apply rbind_Ok in Hrec as (e & Hmap & Hrec). injection Hrec as <-.
  apply map_result_length in Hmap. simpl. split.
  - rewrite length_zip_with. lia.
  - eapply Forall_zip_with_fst; [done|].
    apply Forall_forall. intros x _ row Hrow. by rewrite length_insert.
Qed.

Lemma scan_row0 k II ps : ∀ st : tables F,
  u (scan n N epsilon k II ps st) !! 0%nat = u st !! 0%nat.
Proof.
  induction ps as [|p ps IH]; intros st; simpl; [done|].
  repeat case_match; try done; rewrite IH; simpl;
    apply write_lookup_ne; lia.
Qed.

(** The convergence checks of an iteration [k <= I + 1]: the frontier
    moves up and is recorded in [slices[k]]; with a tolerance that no
    number is below it moves up by one. *)
Lemma convergence_kept k (st : tables F) :
  kept n N row0 st → (I st < N)%nat → (1 ≤ k ≤ N)%nat →
  (k ≤ I st + 1)%nat →
  run_spec (convergence n N epsilon k st) (in_range N)
           (fun st' =>
              kept n N row0 st' ∧ (I st < I st' ≤ N)%nat
              ∧ slices st' !! k
                = Some (of_int (Z.of_nat N - Z.of_nat (I st')))
              ∧ (0 < n)%nat
              ∧ (never_below epsilon → I st' = (I st + 1)%nat)).
Proof.
  intros (Hwf & Hrow & He & Her & Hs & Hs0) HI Hk HkI. unfold convergence.
  destruct (record_errors n k st) as [st1|e] eqn:Hrec;
    [|apply (run_spec_raise e)].
  rewrite lift_Ok, bind_ret_l.
  pose proof Hwf as (Hu & HuG & HuF & _).
  pose proof (record_errors_dim _ _ _ Hrec) as Hn.
  pose proof (record_errors_shape _ _ _ Hrec (proj1 Hu) He Her)
    as [He1 Her1].
  apply record_errors_inv in Hrec as (Eu & EuG & EuF & EI & Es).
  pose proof (scan_frontier n N epsilon k st1) as Hscan.
  pose proof (scan_shaped n N epsilon k (I st1) (seq (I st1) (N - I st1))
                st1 ltac:(lia)) as Hshape.
  pose proof (scan_row0 k (I st1) (seq (I st1) (N - I st1)) st1) as Hr0.
  set (st2 := scan n N epsilon k (I st1) (seq (I st1) (N - I st1)) st1) in *.
  rewrite EI in Hscan.
  destruct (Hscan HI) as (Hb & Hlt & Hstop & Hes & Hss).
  rewrite Eu, EuG, EuF in Hshape.
  destruct (Hshape (conj Hu (conj HuG HuF))) as (Hu2 & HuG2 & HuF2).
  split; simpl.
  - repeat constructor; simpl; lia.
  - intros st' [= <-]. simpl. split_and!; try lia.
    + apply kept_intro; simpl.
      * apply wf_intro; simpl; try done. lia.
      * by rewrite Hr0, Eu.
      * by rewrite Hes.
      * by rewrite Hes.
      * by rewrite length_insert, Hss, Es.
      * rewrite list_lookup_insert_ne by lia. by rewrite Hss, Es.
    + apply list_lookup_insert_eq. rewrite Hss, Es. lia.
    + apply Hn. destruct Hu as [Hrows _]. intros Hnil.
      rewrite Hnil in Hrows. simpl in Hrows. lia.
    + intros Hnever.
      destruct (decide (I st2 = I st + 1)%nat) as [|Hne]; [done|].
      specialize (Hlt (I st + 1)%nat ltac:(lia)).
      by rewrite Hnever in Hlt.
Qed.

(** The loop over the iterations [a] to [N] from a frontier [I >= a - 1]
    below [N]: it is left on a NaN, or with all the slices behind the
    frontier. *)
Lemma iterations_kept parallel m : ∀ a kl (st : tables F),
  parallel ≠ PyOther →
  kept n N row0 st → (I st < N)%nat → (1 ≤ a)%nat →
  (a + m = N + 1)%nat → (a ≤ I st + 1)%nat →
  (never_below epsilon → (I st + 1)%nat = a) →
  run_spec (iterations hst f t n N dT dt epsilon parallel (seq a m) kl st)
           (in_range N)
           (fun e => match e with
                     | Returned_None => False
                     | Left k false st' =>
                         settled n N row0 epsilon a (a + m) k st'
                     | Left k true st' => True
                     end).
Proof.
  induction m as [|m IH]; intros a kl st Hflag Hst HI Ha Ham HaI Hnv.
  { lia. }
  cbn [seq iterations].
  eapply run_spec_bind.
  { apply fine_stage_spec; [|by apply (fine_pass_kept a st); try lia].
    intros i v out Hi. simpl. split; [lia|]. intros ->. lia. }
  intros [st1|] Hst1; [|done]. destruct Hst1 as [Hst1 HI1].
  eapply run_spec_bind.
  { rewrite <- HI1 in HaI. apply (correct_pass_kept a st1); try done; lia. }
  intros st2 [Hst2 HI2].
  destruct (any_nan _ _ _); [by apply run_spec_ret|].
  eapply run_spec_bind.
  { apply (convergence_kept a st2); try done; lia. }
  intros st3 (Hst3 & HI3 & Hs3 & Hn & Hnv3).
  case_decide as HN.
  - apply run_spec_ret. rewrite HN in Hs3.
    split_and!; try done; try lia. intros Hnever.
    specialize (Hnv Hnever). specialize (Hnv3 Hnever). lia.
  - eapply run_spec_weaken;
      [apply (IH (S a) a st3); try done; try lia | done |].
    + intros Hnever. specialize (Hnv Hnever). specialize (Hnv3 Hnever). lia.
    + intros [|k [] st']; try done.
      intros (? & ? & ? & ? & ? & ?). split_and!; try done; lia.
Qed.

Lemma algorithm_kept parallel (st : tables F) :
  kept n N row0 st → I st = 0%nat → (0 < N)%nat →
  run_spec (algorithm hst f t n N dT dt epsilon parallel st) (in_range N)
           (fun r => match r with
                     | RNone _ => True
                     | RTuple t' uo d =>
                         ∃ st',
                           settled n N row0 epsilon 1 (N + 1)
                                   (Iterations d) st'
                           ∧ t' = t
                           ∧ uo = slice n (n * (Iterations d + 1)) <$> u st'
                           ∧ Errors d = take (Iterations d) <$> err st'
                           ∧ Slices d = take (Iterations d + 1) (slices st')
                     end).
Proof.
  intros Hst HI HN.
  assert (run_spec (for_run (bootstrap_step f t n dT) (seq 0 N) st)
                   (in_range N)
                   (fun st' => kept n N row0 st' ∧ I st' = 0%nat)) as Hboot.
  { eapply run_spec_weaken; [by apply bootstrap_kept | done |].
    intros st0 [? ?]. split; [done | congruence]. }
  destruct (flag_eq_dec parallel PyOther) as [->|Hflag].
  { rewrite algorithm_other by done.
    eapply run_spec_bind; [exact Hboot|]. intros st0 _.
    by apply run_spec_ret. }
  rewrite algorithm_unfold. eapply run_spec_bind; [exact Hboot|].
  intros st0 [Hst0 HI0]. eapply run_spec_bind;
    [apply (iterations_kept parallel N 1 0%nat st0); try done; lia|].
  intros [|k [] st'] He; try done.
  apply run_spec_ret. exists st'. simpl. split; [|done].
  destruct He as (? & ? & ? & ? & ? & ?). split_and!; try done; lia.
Qed.

End KeptFacts.

(** ** Rows of copies *)

Section TileFacts.
Context {F : Type} `{Arith F}.
#[local] Existing Instance F_inhabited.

Lemma tile_add (v : list F) a b : tile v (a + b) = tile v a ++ tile v b.
Proof. unfold tile. by rewrite replicate_add, join_app. Qed.

(** The column blocks 1 to [k] of a row of [N + 1] copies of [v]. *)
Lemma slice_tile (v : list F) k N :
  (k ≤ N)%nat →
  slice (length v) (length v * (k + 1)) (tile v (N + 1)) = tile v k.
Proof.
  intros Hk. replace (N + 1)%nat with (1 + (k + (N - k)))%nat by lia.
  rewrite !tile_add. unfold slice.
  rewrite drop_app_length' by (rewrite length_tile; lia).
  apply take_app_length'. rewrite length_tile. lia.
Qed.

(** The column block 0 of such a row. *)
Lemma slice_tile_first (v : list F) N :
  slice 0 (length v) (tile v (N + 1)) = v.
Proof.
  replace (N + 1)%nat with (1 + N)%nat by lia. rewrite tile_add.
  change (tile v 1) with (v ++ []). rewrite app_nil_r.
  unfold slice. rewrite Nat.sub_0_r. apply take_app_length.
Qed.

(** A slice that ends before the columns that are assigned. *)
Lemma slice_set_slice_before a b c (v row : list F) :
  (b ≤ c)%nat → (c ≤ length row)%nat →
  slice a b (set_slice c v row) = slice a b row.
Proof.
  intros Hbc Hc. unfold slice, set_slice.
  destruct (decide (a ≤ b)%nat) as [Hab|Hab].
  - rewrite drop_app_le by (rewrite length_take; lia).
    rewrite take_app_le by (rewrite length_drop, length_take; lia).
    rewrite skipn_firstn_comm, take_take. f_equal. lia.
  - by replace (b - a)%nat with 0%nat by lia.
Qed.

(** The column block [j] of the copies written from the column [c]. *)
Lemma slice_set_slice_tile c r j (v row : list F) :
  (c ≤ length row)%nat → (j < r)%nat →
  slice (c + length v * j) (c + length v * (j + 1))
        (set_slice c (tile v r) row) = v.
Proof.
  intros Hc Hj. unfold slice, set_slice.
  replace r with (j + (1 + (r - j - 1)))%nat by lia.
  rewrite !tile_add. change (tile v 1) with (v ++ []). rewrite app_nil_r.
  rewrite drop_app_add' by (rewrite length_take; lia).
  rewrite <- !app_assoc.
  rewrite drop_app_length' by (rewrite length_tile; lia).
  apply take_app_length'. lia.
Qed.

(** After the copies of the block [k] of a row are written from the
    column block [k + 1] on, every block from [k] to [N] holds it. *)
Lemma slice_frozen_block n N k j (v row : list F) :
  length v = n → length row = (n * (N + 1))%nat → (k ≤ j ≤ N)%nat →
  slice (n * k) (n * (k + 1)) row = v →
  slice (n * j) (n * (j + 1))
        (set_slice (n * (k + 1)) (tile v (N - k)) row) = v.
Proof.
  intros Hv Hrow Hj Hblock.
  destruct (decide (j = k)) as [->|Hne].
  - rewrite slice_set_slice_before; [done | lia | nia].
  - replace (n * j)%nat
      with (n * (k + 1) + length v * (j - k - 1))%nat by nia.
    replace (n * (j + 1))%nat
      with (n * (k + 1) + length v * (j - k - 1 + 1))%nat by nia.
    apply slice_set_slice_tile; [nia | lia].
Qed.

(** Every column block of a row of copies of [v] is [v]. *)
Lemma slice_tile_block (v : list F) j N :
  (j ≤ N)%nat →
  slice (length v * j) (length v * (j + 1)) (tile v (N + 1)) = v.
Proof.
  intros Hj. replace (N + 1)%nat with (j + (1 + (N - j)))%nat by lia.
  rewrite !tile_add. change (tile v 1) with (v ++ []). rewrite app_nil_r.
  unfold slice. rewrite drop_app_length' by (rewrite length_tile; lia).
  apply take_app_length'. lia.
Qed.

(** An array whose rows hold no NaN between two columns. *)
Lemma any_nan_clean a b (tbl : list (list F)) :
  (∀ r row, tbl !! r = Some row → clean (slice a b row)) →
  any_nan a b tbl = false.
Proof.
  intros Hrows. unfold any_nan. apply not_true_iff_false.
  intros (row & Hin & Hnan)%existsb_exists.
  apply list_elem_of_In, list_elem_of_lookup in Hin as [r Hr].
  specialize (Hrows r row Hr). unfold clean in Hrows. congruence.
Qed.

Lemma storage_kept (u0 : list F) N :
  kept (length u0) N (tile u0 (N + 1)) (storage u0 (length u0) N).
Proof.
  destruct (storage_wf u0 N) as [Hwf _].
  split; [done|]. simpl. split_and!.
  - apply list_lookup_insert_eq. rewrite length_replicate. lia.
  - by rewrite length_replicate.
  - apply Forall_replicate. apply length_replicate.
  - by rewrite length_insert, length_replicate.
  - apply list_lookup_insert_eq. rewrite length_replicate. lia.
Qed.

End TileFacts.

(** ** The first sweep and the rows of the convergence scan *)

Section SweepFacts.
Context {F : Type} `{Arith F}.
#[local] Existing Instance F_inhabited.
Variable hst : host.
Variable f : F → list F → list F.
Variables (t : list F) (n N : nat) (dT dt epsilon : F).

(** Each call of the first sweep starts from what the call before it gave
    back. *)
Lemma bootstrap_chained m : ∀ a (st : tables F),
  wf n N st → (a + m ≤ N)%nat →
  chained a (slice 0 n (uG st !!! a))
          (for_run (bootstrap_step f t n dT) (seq a m) st).1.
Proof.
  induction m as [|m IH]; intros a st Hwf Ham; [done|].
  cbn [seq for_run]. rewrite bind_trace.
  pose proof (bootstrap_step_spec f t n N dT st a Hwf) as [_ Hst1].
  unfold bootstrap_step in *.
  destruct (solve f t Coarse 0 a dT (slice 0 n (uG st !!! a)))
    as [w r] eqn:Hsolve.
  apply solve_inv in Hsolve
    as [(-> & -> & _) | (ti & ti1 & _ & _ & -> & ->)]; [done|].
  destruct (solve_on_copy Coarse (ti, ti1) dT (slice 0 n (uG st !!! a)) f)
    as [temp|e] eqn:Hout; simpl.
  - eexists. split; [done|]. simpl in Hst1.
    destruct (Hst1 _ eq_refl) as (Hwf1 & _).
    specialize (IH (S a) _ Hwf1 ltac:(lia)). simpl in IH.
    replace (slice 0 n (write (a + 1) 0 temp (uG st) !!! S a)) with temp
      in IH; [done|].
    apply solve_on_copy_length in Hout.
    destruct Hwf as (_ & HuG & _).
    destruct (shaped_lookup n N (uG st) a HuG) as (row & Hrow & Hlen);
      [lia|].
    destruct (shaped_lookup n N (uG st) (a + 1) HuG)
      as (row1 & Hrow1 & Hlen1); [lia|].
    rewrite (list_lookup_total_correct _ _ _ Hrow), length_slice in Hout.
    replace (S a) with (a + 1)%nat by lia.
    rewrite (list_lookup_total_correct _ _ _
               (write_lookup_eq _ _ temp _ _ Hrow1)).
    assert (length temp = n) as Htemp by nia.
    rewrite <- Htemp at 1.
    symmetry. apply (slice_set_slice 0). nia.
  - eexists. split; [done|]. done.
Qed.

(** One step of the first sweep: the mesh is too short and no call is
    made, or the call returns, or it raises. *)
Lemma bootstrap_step_call (st : tables F) a :
  (∃ e, bootstrap_step f t n dT st a = ([], Raise e))
  ∨ (∃ v temp st1,
       bootstrap_step f t n dT st a = ([Solve Coarse 0 a v (Ok temp)], Ok st1))
  ∨ (∃ v e,
       bootstrap_step f t n dT st a
       = ([Solve Coarse 0 a v (Raise e)], Raise e)).
Proof.
  unfold bootstrap_step.
  destruct (solve f t Coarse 0 a dT (slice 0 n (uG st !!! a)))
    as [w r] eqn:Hsolve.
  apply solve_inv in Hsolve
    as [(-> & -> & _) | (ti & ti1 & _ & _ & -> & ->)]; [left; by eexists|].
  right.
  destruct (solve_on_copy Coarse (ti, ti1) dT (slice 0 n (uG st !!! a)) f)
    as [temp|e0]; [left | right]; by repeat eexists.
Qed.

(** The first sweep makes one call for each slice at most; when it
    returns it has made them all; and a call that raises ends it with
    that exception. *)
Lemma bootstrap_sweep m : ∀ a (st : tables F),
  let sweep := for_run (bootstrap_step f t n dT) (seq a m) st in
  (length sweep.1 ≤ m)%nat
  ∧ (∀ st', sweep.2 = Ok st' → length sweep.1 = m)
  ∧ (∀ i v e, Solve Coarse 0 i v (Raise e) ∈ sweep.1 → sweep.2 = Raise e).
Proof.
  induction m as [|m IH]; intros a st; cbn zeta.
  - split; [done|]. split; [done|]. intros i v e Hin.
    by apply elem_of_nil in Hin.
  - cbn [seq for_run].
    destruct (bootstrap_step_call st a)
      as [(e0 & ->) | [(v0 & temp & st1 & ->) | (v0 & e0 & ->)]].
    + simpl. split; [lia|]. split; [done|]. intros i v e Hin.
      by apply elem_of_nil in Hin.
    + specialize (IH (S a) st1). cbn zeta in IH. cbn [bind].
      destruct (for_run (bootstrap_step f t n dT) (seq (S a) m) st1)
        as [w1 r1].
      simpl in *. destruct IH as (Hlen & Hok & Hraise).
      split; [lia|]. split.
      * intros st' Hst'. by rewrite (Hok st').
      * intros i v e [[=]|Hin]%elem_of_cons. eauto.
    + simpl. split; [lia|]. split; [done|].
      intros i v e [[= _ _ ->]|Hin]%elem_of_cons; [done|].
      by apply elem_of_nil in Hin.
Qed.

(** The trace of the algorithm is the trace of the first sweep, followed
    by the events of the iterations; nothing follows a sweep that raises,
    which ends the run with its exception, and with a flag that is neither
    [True] nor [False] nothing follows the sweep either. *)
Lemma algorithm_trace parallel (st : tables F) :
  wf n N st → I st = 0%nat → (0 < N)%nat →
  ∃ w1, (algorithm hst f t n N dT dt epsilon parallel st).1
        = (for_run (bootstrap_step f t n dT) (seq 0 N) st).1 ++ w1
        ∧ Forall (fun e => 1 ≤ event_iter e)%nat w1
        ∧ (parallel = PyOther → w1 = [])
        ∧ (∀ e, (for_run (bootstrap_step f t n dT) (seq 0 N) st).2 = Raise e →
                w1 = []
                ∧ (algorithm hst f t n N dT dt epsilon parallel st).2
                  = Raise e).
Proof.
  intros Hwf HI HN.
  destruct (flag_eq_dec parallel PyOther) as [->|Hflag].
  { exists []. rewrite algorithm_other by done. rewrite bind_trace.
    split; [by destruct (for_run _ _ _).2|]. split; [done|]. split; [done|].
    intros e He. split; [done|].
    destruct (for_run _ _ _) as [w0 [st0|e0]]; by simplify_eq/=. }
  rewrite algorithm_unfold, bind_trace.
  pose proof (bootstrap_spec f t n N dT st N Hwf) as [_ Hst0].
  destruct (for_run (bootstrap_step f t n dT) (seq 0 N) st)
    as [w0 [st0|e0]]; simpl in *;
    [|exists []; split_and!; try done; by intros e [= ->]].
  destruct (Hst0 _ eq_refl) as (Hwf0 & HI0 & _).
  eexists. split; [done|]. rewrite bind_trace.
  destruct (iterations hst f t n N dT dt epsilon parallel (seq 1 N) 0 st0)
    as [w1 r1] eqn:Hit.
  apply iterations_events in Hit; try done; try lia. simpl.
  split_and!; try done. apply Forall_app. split.
  - eapply Forall_impl; [done|]. simpl. lia.
  - destruct r1 as [[|k [] st']|e]; constructor.
Qed.

Lemma length_cur_shaped k (row : list F) :
  length row = (n * (N + 1))%nat → (1 ≤ k ≤ N)%nat →
  length (cur n k row) = n.
Proof. intros Hrow Hk. unfold cur. rewrite length_slice, Hrow. nia. Qed.

(** Freezing the slice [p] writes the row [p + 1] only. *)
Lemma freeze_rows k p (st : tables F) r :
  r ≠ (p + 1)%nat →
  u (freeze n N k p st) !! r = u st !! r
  ∧ uG (freeze n N k p st) !! r = uG st !! r
  ∧ uF (freeze n N k p st) !! r = uF st !! r.
Proof. intros Hr. simpl. split_and!; apply write_lookup_ne; lia. Qed.

(** Beyond the first slice, the scan writes the rows above the one it
    starts from and up to the new frontier. *)
Lemma scan_rows k II m : ∀ p (st : tables F),
  (II < p)%nat → I st = p →
  let st' := scan n N epsilon k II (seq p m) st in
  ∀ r, (r ≤ p ∨ I st' < r)%nat →
       u st' !! r = u st !! r ∧ uG st' !! r = uG st !! r
       ∧ uF st' !! r = uF st !! r.
Proof.
  induction m as [|m IH]; intros p st Hp HI; simpl; [done|].
  rewrite decide_False by lia. rewrite decide_True by lia.
  destruct (ltb _ _); [|done].
  intros r Hr.
  pose proof (scan_tested n N epsilon k II m (S p) (freeze n N k p st)
                ltac:(lia) ltac:(simpl; lia)) as (Hb & _).
  simpl in Hb.
  destruct (IH (S p) (freeze n N k p st) ltac:(lia) ltac:(simpl; lia) r
              ltac:(lia)) as (-> & -> & ->).
  apply freeze_rows. lia.
Qed.

End SweepFacts.

(** ** The rows that the passes write *)

Section PassRows.
Context {F : Type} `{Arith F}.
#[local] Existing Instance F_inhabited.
Variable f : F → list F → list F.
Variables (t : list F) (n N : nat) (dT dt : F).

(** The fine pass over the slices [b, b + m) writes the rows [b + 1] and
    up of [uF] and nothing else. *)
Lemma fine_pass_rows k m : ∀ b (st : tables F) w st',
  for_run (fine_step f t n dt k) (seq b m) st = (w, Ok st') →
  u st' = u st ∧ uG st' = uG st ∧ I st' = I st
  ∧ ∀ r, (r ≤ b)%nat → uF st' !! r = uF st !! r.
Proof.
  induction m as [|m IH]; intros b st w st'; simpl.
  - by intros [= _ <-].
  - intros Hrun.
    apply bind_inv_Ok in Hrun as (w1 & st1 & w2 & Hstep & Hrest & _).
    unfold fine_step in Hstep.
    apply bind_inv_Ok in Hstep as (w3 & temp & w4 & _ & Hret & _).
    injection Hret as _ <-.
    apply IH in Hrest as (-> & -> & -> & Hrows). simpl.
    split_and!; try done. intros r Hr. rewrite Hrows by lia. simpl.
    apply write_lookup_ne. lia.
Qed.

(** The correction pass over the slices [b, b + m) writes the rows
    [b + 1] and up of [u] and [uG] and nothing else. *)
Lemma correct_pass_frame k m : ∀ b (st : tables F) w st',
  for_run (correct_step f t n dT k) (seq b m) st = (w, Ok st') →
  uF st' = uF st ∧ I st' = I st
  ∧ ∀ r, (r ≤ b)%nat → u st' !! r = u st !! r ∧ uG st' !! r = uG st !! r.
Proof.
  induction m as [|m IH]; intros b st w st'; simpl.
  - by intros [= _ <-].
  - intros Hrun.
    apply bind_inv_Ok in Hrun as (w1 & st1 & w2 & Hstep & Hrest & _).
    unfold correct_step in Hstep.
    apply bind_inv_Ok in Hstep as (w3 & temp & w4 & _ & Hret & _).
    injection Hret as _ <-.
    apply IH in Hrest as (-> & -> & Hrows). simpl.
    split_and!; try done. intros r Hr.
    destruct (Hrows r ltac:(lia)) as [-> ->]. simpl.
    split; apply write_lookup_ne; lia.
Qed.

End PassRows.

(** ** The number of fine calls *)

Section CallCounts.
Context {F : Type} `{Arith F}.
#[local] Existing Instance F_inhabited.
Variable hst : host.
Variable f : F → list F → list F.
Variables (t : list F) (n N : nat) (dT dt epsilon : F).
Variable row0 : list F.

Lemma fine_calls_nil : fine_calls (F := F) [] = 0%nat.
Proof. done. Qed.

Lemma fine_calls_app (w1 w2 : list (event F)) :
  fine_calls (w1 ++ w2) = (fine_calls w1 + fine_calls w2)%nat.
Proof. unfold fine_calls. by rewrite filter_app, length_app. Qed.

Lemma fine_calls_le (w : list (event F)) : (fine_calls w ≤ length w)%nat.
Proof. apply length_filter. Qed.

Lemma fine_calls_coarse k (w : list (event F)) :
  Forall (solve_of Coarse k) w → fine_calls w = 0%nat.
Proof.
  unfold fine_calls. induction 1 as [|e w He _ IH]; [done|].
  rewrite filter_cons_False; [done|].
  destruct e as [[] ? ? ? ?|]; simpl in *; [done | by destruct He | done].
Qed.

(** A loop whose body leaves one event at most. *)
Lemma for_run_trace_length {A B : Type} (body : A → B → run F A)
    (l : list B) :
  (∀ a x, length (body a x).1 ≤ 1)%nat →
  ∀ a, (length (for_run body l a).1 ≤ length l)%nat.
Proof.
  intros Hbody. induction l as [|x l IH]; intros a; simpl; [done|].
  rewrite bind_trace, length_app. specialize (Hbody a x).
  destruct (body a x).2 as [a'|e]; simpl; [specialize (IH a')|]; lia.
Qed.

Lemma fine_step_one_call k (st : tables F) i :
  (length (fine_step f t n dt k st i).1 ≤ 1)%nat.
Proof.
  unfold fine_step. rewrite bind_trace, length_app.
  destruct (solve f t Fine k i dt (cur n k (u st !!! i))) as [w r] eqn:Hs.
  apply solve_inv in Hs as [(-> & -> & _) | (ti & ti1 & _ & _ & -> & ->)];
    simpl; [lia|].
  destruct (solve_on_copy _ _ _ _ _); simpl; lia.
Qed.

(** The fine solves of an iteration leave one event for each slice from
    the frontier on at most, through the pool too. *)
Lemma fine_stage_calls parallel k (st : tables F) :
  (length (fine_stage hst f t n N dt parallel k st).1 ≤ N - I st)%nat.
Proof.
  destruct parallel; cbn [fine_stage].
  - rewrite bind_trace, length_app.
    pose proof (fine_parallel_trace hst f t n N dt k st) as [_ Hlen].
    destruct (fine_parallel hst f t n N dt k st).2; simpl; lia.
  - rewrite bind_trace, length_app.
    pose proof (for_run_trace_length _ (seq (I st) (N - I st))
                  (fine_step_one_call k) st) as Hlen.
    rewrite length_seq in Hlen.
    destruct (for_run _ _ _).2; simpl; lia.
  - simpl. lia.
Qed.

(** The iterations [a] to [N] call the fine solver
    [(N + 1 - a) * (N + 2 - a) / 2] times at most: the iteration [k] calls
    it on the slices from the frontier on, of which there are
    [N + 1 - k] at most. *)
Lemma iterations_fine_calls parallel m : ∀ a kl (st : tables F),
  kept n N row0 st → (I st < N)%nat → (1 ≤ a)%nat →
  (a + m = N + 1)%nat → (a ≤ I st + 1)%nat →
  (2 * fine_calls
         (iterations hst f t n N dT dt epsilon parallel (seq a m) kl st).1
   ≤ m * (m + 1))%nat.
Proof.
  induction m as [|m IH]; intros a kl st Hst HI Ha Ham HaI; [lia|].
  cbn [seq iterations]. rewrite bind_trace, fine_calls_app.
  pose proof (fine_calls_le (fine_stage hst f t n N dt parallel a st).1)
    as Hle.
  pose proof (fine_stage_calls parallel a st) as Hlen.
  pose proof (fine_stage_spec hst f t n N dt parallel a st (in_range N) _
                ltac:(intros i v out Hi; simpl; split; [lia|]; intros ->; lia)
                (fine_pass_kept f t n N dt row0 a st Hst ltac:(lia) HaI))
    as [_ Hst1].
  destruct (fine_stage hst f t n N dt parallel a st).2 as [[st1|]|e];
    [|simpl; rewrite ?fine_calls_nil; nia
     |simpl; rewrite ?fine_calls_nil; nia].
  destruct (Hst1 _ eq_refl) as [Hk1 HI1].
  rewrite bind_trace, fine_calls_app.
  pose proof (correct_pass_spec f t n N dT a st1
                (seq (I st1) (N - I st1)) (proj1 Hk1) ltac:(lia))
    as [Hcoarse _].
  rewrite (fine_calls_coarse a _ Hcoarse).
  pose proof (correct_pass_kept f t n N dT row0 a st1 Hk1 ltac:(lia)
                ltac:(lia)) as [_ Hst2].
  destruct (for_run (correct_step f t n dT a) _ st1).2 as [st2|e];
    [|simpl; rewrite ?fine_calls_nil; nia].
  destruct (Hst2 _ eq_refl) as [Hk2 HI2].
  destruct (any_nan _ _ _); [simpl; rewrite ?fine_calls_nil; nia|].
  rewrite bind_trace, fine_calls_app.
  pose proof (convergence_kept n N epsilon row0 a st2 Hk2 ltac:(lia)
                ltac:(lia) ltac:(lia)) as [_ Hst3].
  destruct (convergence n N epsilon a st2) as [w3 r3] eqn:Hconv.
  apply convergence_inv in Hconv
    as [(-> & e & ->) | (st3 & -> & -> & _ & _)];
    [simpl; rewrite ?fine_calls_nil; nia | | by destruct Hk2 | lia | lia].
  simpl in Hst3. destruct (Hst3 _ eq_refl) as (Hk3 & HI3 & _).
  cbn [fst snd]. change (fine_calls [Frontier a (I st3)]) with 0%nat.
  case_decide as HN; [simpl; rewrite ?fine_calls_nil; nia|].
  specialize (IH (S a) a st3 Hk3 ltac:(lia) ltac:(lia) ltac:(lia)
                 ltac:(lia)).
  rewrite ?fine_calls_nil. nia.
Qed.

Lemma algorithm_fine_calls parallel (st : tables F) :
  kept n N row0 st → I st = 0%nat → (0 < N)%nat →
  (2 * fine_calls (algorithm hst f t n N dT dt epsilon parallel st).1
   ≤ N * (N + 1))%nat.
Proof.
  intros Hst HI HN.
  pose proof (bootstrap_spec f t n N dT st N (proj1 Hst)) as [Hboot _].
  pose proof (bootstrap_kept f t n N dT row0 st Hst) as [_ Hst0].
  rewrite algorithm_unfold, bind_trace, fine_calls_app.
  rewrite (fine_calls_coarse 0 _ Hboot).
  destruct (for_run (bootstrap_step f t n dT) _ st).2 as [st0|e];
    [|simpl; rewrite ?fine_calls_nil; nia].
  destruct (Hst0 _ eq_refl) as [Hk0 HI0].
  rewrite bind_trace, fine_calls_app.
  pose proof (iterations_fine_calls parallel N 1 0%nat st0 Hk0 ltac:(lia)
                ltac:(lia) ltac:(lia) ltac:(lia)) as Hit.
  destruct (iterations _ _ _ _ _ _ _ _ _ _ _ _).2 as [[|k [] st']|e];
    simpl; rewrite ?fine_calls_nil; lia.
Qed.

End CallCounts.

(** ** Runs that do not raise [TypeError] *)

Section QuietRuns.
Context {F : Type}.

Lemma quiet_bind {A B : Type} (m : run F A) (k : A → run F B) :
  quiet m → (∀ a, m.2 = Ok a → quiet (k a)) → quiet (bind m k).
Proof.
  unfold quiet, bind. destruct m as [w [a|e]]; simpl.
  - intros _ Hk. specialize (Hk a eq_refl). by destruct (k a).
  - intros Hm _ [= ->]. by destruct Hm.
Qed.

Lemma quiet_ret {A : Type} (a : A) : quiet (ret (F := F) a).
Proof. done. Qed.

Lemma quiet_for_run {A B : Type} (body : A → B → run F A) (l : list B) :
  (∀ a x, quiet (body a x)) → ∀ a, quiet (for_run body l a).
Proof.
  intros Hbody. induction l as [|x l IH]; intros a; simpl; [done|].
  apply quiet_bind; [done|]. intros a' _. apply IH.
Qed.

End QuietRuns.

Section StepperRaises.
Context {F : Type} `{Arith F}.
#[local] Existing Instance F_inhabited.

Lemma broadcast_raises dim (v : list F) e :
  broadcast dim v = Raise e → e = ValueError.
Proof.
  unfold broadcast. case_decide; [done|].
  destruct v as [|x [|y v]]; congruence.
Qed.

Lemma stages_raise tb f dt tn un dim (l : list nat) :
  ∀ (k : list (list F)) e,
    for_each (stage tb f dt tn un dim) l k = Raise e → e = ValueError.
Proof.
  induction l as [|i l IH]; intros k e; simpl; [done|].
  unfold stage at 1.
  destruct (broadcast dim _) as [col|e0] eqn:Hb; simpl.
  - apply IH.
  - intros [= <-]. by eapply broadcast_raises.
Qed.

Lemma rk_increment_raises tb f dt tn (un : list F) dim e :
  rk_increment tb f dt tn un dim = Raise e → e = ValueError.
Proof.
  unfold rk_increment.
  destruct (broadcast dim _) as [k0|e0] eqn:Hb; simpl.
  - destruct (for_each _ _ _) as [k|e1] eqn:Hst; simpl; [done|].
    intros [= <-]. by eapply stages_raise.
  - intros [= <-]. by eapply broadcast_raises.
Qed.

Lemma steps_in_place_raise tb f t0 dt u0 (ns : list nat) :
  ∀ (h : gmap loc (list F)) e,
    for_each (step_in_place tb f t0 dt u0) ns h = Raise e → e = ValueError.
Proof.
  induction ns as [|i ns IH]; intros h e; simpl; [done|].
  rewrite step_in_place_eq.
  destruct (rk_increment _ _ _ _ _ _) as [inc|e0] eqn:Hinc; simpl.
  - apply IH.
  - intros [= <-]. by eapply rk_increment_raises.
Qed.

(** A propagator called on a copy raises what [int] raises, or
    [ValueError]. *)
Lemma solve_on_copy_raises s tspan step (v : list F) f e :
  solve_on_copy s tspan step v f = Raise e →
  e = ValueError ∨ ∃ x, int_of x = Raise e.
Proof.
  unfold solve_on_copy, CoarseSolver, FineSolver, RungeKutta. cbv zeta.
  destruct s;
    [change (select_method "RK2") with (Some (RK2 (F := F)))
    |change (select_method "RK4") with (Some (RK4 (F := F)))];
    cbv beta iota;
    (destruct (int_of _) as [m|e0] eqn:Hm; simpl;
     [|intros [= <-]; eauto]);
    (destruct (for_each _ _ _) as [h'|e1] eqn:Hloop; simpl; [done|]);
    intros [= <-]; left; by eapply steps_in_place_raise.
Qed.

End StepperRaises.

(** ** A crash needs a NaN *)

Section CrashFacts.
Context {F : Type} `{Arith F}.
#[local] Existing Instance F_inhabited.
Variable hst : host.
Variable f : F → list F → list F.
Variables (t : list F) (n N : nat) (dT dt epsilon : F).
Hypothesis int_quiet : ∀ x, int_of x ≠ Raise TypeError.

Lemma solve_quiet s k i step v : quiet (solve f t s k i step v).
Proof.
  destruct (solve f t s k i step v) as [w r] eqn:Hsolve.
  apply solve_inv in Hsolve
    as [(_ & -> & _) | (ti & ti1 & _ & _ & _ & ->)]; [done|].
  intros [? | [x Hx]]%solve_on_copy_raises; [done|].
  by apply int_quiet in Hx.
Qed.

Lemma bootstrap_step_quiet st i : quiet (bootstrap_step f t n dT st i).
Proof. apply quiet_bind; [apply solve_quiet | intros; apply quiet_ret]. Qed.

Lemma fine_step_quiet k st i : quiet (fine_step f t n dt k st i).
Proof. apply quiet_bind; [apply solve_quiet | intros; apply quiet_ret]. Qed.

Lemma correct_step_quiet k st i : quiet (correct_step f t n dT k st i).
Proof. apply quiet_bind; [apply solve_quiet | intros; apply quiet_ret]. Qed.

(** The fine solves through the pool do not end with a [TypeError] when
    the pool itself does not. *)
Lemma fine_parallel_quiet k (st : tables F) :
  pool_quiet hst → quiet (fine_parallel hst f t n N dt k st).
Proof.
  intros [Hcpu Hpickle]. unfold fine_parallel.
  apply quiet_bind.
  { by destruct (fine_inputs_cases t n N k st) as [[-> _] | ->]. }
  intros inputs _. apply quiet_bind.
  { unfold Pool, quiet. destruct (cpu_count hst) as [c|]; [|done].
    by case_match. }
  intros procs _. apply quiet_bind; [|by intros [|r rs] _].
  intros Hpool.
  apply starmap_Raise in Hpool as [Hp | (_ & (a & _ & Ha) & _)];
    [done|].
  destruct a as [[i tspan] v]. unfold task in Ha.
  destruct (solve_on_copy Fine tspan dt v f) as [out|e] eqn:Hout;
    [done|].
  simpl in Ha. injection Ha as ->.
  apply solve_on_copy_raises in Hout as [? | [x Hx]]; [done|].
  by apply int_quiet in Hx.
Qed.

Lemma fine_stage_quiet parallel k (st : tables F) :
  (parallel = PyTrue → pool_quiet hst) →
  quiet (fine_stage hst f t n N dt parallel k st).
Proof.
  intros Hpool. destruct parallel; cbn [fine_stage]; [| |done].
  - apply quiet_bind; [by apply fine_parallel_quiet; apply Hpool|].
    intros st1 _. apply quiet_ret.
  - apply quiet_bind; [|intros st1 _; apply quiet_ret].
    apply quiet_for_run. intros. apply fine_step_quiet.
Qed.

Lemma map_result_raises {A B : Type} (g : A → result B) (l : list A) e :
  (∀ x e', g x = Raise e' → e' = ValueError) →
  map_result g l = Raise e → e = ValueError.
Proof.
  intros Hg. induction l as [|x l IH]; simpl; [done|].
  destruct (g x) as [y|e0] eqn:Hx; simpl; [|intros [= <-]; eauto].
  destruct (map_result g l) as [ys|e1]; simpl; [done|].
  intros [= <-]. by apply IH.
Qed.

Lemma convergence_quiet k (st : tables F) :
  quiet (convergence n N epsilon k st).
Proof.
  unfold convergence, quiet.
  destruct (record_errors n k st) as [st1|e] eqn:Hrec; simpl; [done|].
  intros [= ->]. unfold record_errors in Hrec.
  destruct (map_result _ _) as [es|e] eqn:Hmap; simpl in Hrec; [done|].
  injection Hrec as ->.
  apply map_result_raises in Hmap; [done|].
  intros row e'. unfold sup_norm.
  destruct (absf <$> _); [by intros [= <-] | done].
Qed.

(** The first sweep leaves the row 0 of [uG] as it is. *)
Lemma bootstrap_uG_row0 (l : list nat) (st : tables F) :
  run_spec (for_run (bootstrap_step f t n dT) l st) (fun _ => True)
           (fun st' => uG st' !! 0%nat = uG st !! 0%nat).
Proof.
  apply run_spec_for_run; [|done].
  intros st1 i _ Hrow. unfold bootstrap_step.
  eapply (run_spec_bind _ _ _ (fun _ => True));
    [eapply run_spec_weaken; [apply solve_event | done | done]|].
  intros temp _. apply run_spec_ret. simpl. rewrite <- Hrow.
  apply write_lookup_ne. lia.
Qed.

(** The results of the coarse calls of a correction pass are the column
    blocks [k] that the pass leaves in the rows it writes. *)
Lemma correct_pass_clean k m : ∀ b (st : tables F) w st',
  wf n N st → (k ≤ N)%nat → (b + m ≤ N)%nat →
  for_run (correct_step f t n dT k) (seq b m) st = (w, Ok st') →
  (∀ i v out, Solve Coarse k i v (Ok out) ∈ w → clean out) →
  ∀ r row, (b < r ≤ b + m)%nat → uG st' !! r = Some row →
           clean (next n k row).
Proof.
  induction m as [|m IH]; intros b st w st' Hwf Hk Hbm; simpl.
  - intros _ _ r row Hr. lia.
  - intros Hrun Hclean r row Hr Hrow.
    apply bind_inv_Ok in Hrun as (w1 & st1 & w2 & Hstep & Hrest & ->).
    pose proof (correct_step_spec f t n N dT k st b Hwf Hk) as [_ Hst1].
    rewrite Hstep in Hst1. destruct (Hst1 st1 eq_refl) as (Hwf1 & _).
    destruct (decide (r = b + 1)%nat) as [->|Hne].
    + apply correct_step_inv in Hstep as (temp & -> & Hlen & HuG).
      rewrite (correct_pass_rows f t n dT k m (S b) st1 w2 st' Hrest)
        in Hrow by lia.
      destruct Hwf as (Hu & HuG0 & _).
      destruct (shaped_lookup n N (u st) b Hu) as (urow & Hurow & Hulen);
        [lia|].
      destruct (shaped_lookup n N (uG st) (b + 1) HuG0)
        as (grow & Hgrow & Hglen); [lia|].
      rewrite (list_lookup_total_correct _ _ _ Hurow) in Hlen.
      rewrite (length_next_shaped n N k urow Hulen Hk) in Hlen.
      rewrite HuG, (write_lookup_eq _ _ temp _ _ Hgrow) in Hrow.
      injection Hrow as <-. unfold next.
      replace (n * (k + 1))%nat with (n * k + length temp)%nat by lia.
      rewrite slice_set_slice by (pose proof (block_bound n N k Hk); lia).
      eapply Hclean. apply elem_of_app. left. by left.
    + eapply (IH (S b) st1 w2 st'); eauto; try lia.
      intros i v out Hin. eapply Hclean. apply elem_of_app. by right.
Qed.

Lemma freeze_uG_block k p j (st : tables F) row :
  shaped n N (uG st) → (k ≤ N)%nat → (p < N)%nat → (k ≤ j ≤ N)%nat →
  uG st !! (p + 1)%nat = Some row →
  slice (n * j) (n * (j + 1)) (uG (freeze n N k p st) !!! (p + 1)%nat)
  = next n k row.
Proof.
  intros HuG Hk Hp Hj Hrow. simpl.
  rewrite (list_lookup_total_correct _ _ _ Hrow).
  rewrite (list_lookup_total_correct _ _ _
             (write_lookup_eq _ _ _ _ _ Hrow)).
  pose proof (Forall_lookup_1 _ _ _ _ (proj2 HuG) Hrow) as Hlen.
  simpl in Hlen.
  apply (slice_frozen_block n N); try done.
  by apply (length_next_shaped n N).
Qed.

(** Beyond the first slice of the scan: in each row that the scan
    freezes, the column blocks [k] to [N] of [uG] hold the block [k]
    that the row had. *)
Lemma scan_blocks k II m : ∀ p (st : tables F),
  (II < p)%nat → I st = p →
  shaped n N (u st) ∧ shaped n N (uG st) ∧ shaped n N (uF st) →
  (k ≤ N)%nat → (p + m ≤ N)%nat →
  let st' := scan n N epsilon k II (seq p m) st in
  ∀ r j row, (p < r ≤ I st')%nat → (k ≤ j ≤ N)%nat →
             uG st !! r = Some row →
             slice (n * j) (n * (j + 1)) (uG st' !!! r) = next n k row.
Proof.
  induction m as [|m IH]; intros p st Hp HI Hsh Hk Hpm; simpl.
  - intros r j row Hr. lia.
  - rewrite decide_False by lia. rewrite decide_True by lia.
    destruct (ltb _ _); [|intros r j row Hr; lia].
    intros r j row Hr Hj Hrow.
    pose proof (freeze_shaped n N k p st Hk Hsh) as Hsh1.
    destruct (decide (r = p + 1)%nat) as [->|Hne].
    + destruct (scan_rows n N epsilon k II m (S p) (freeze n N k p st)
                  ltac:(lia) ltac:(simpl; lia) (p + 1)%nat ltac:(lia))
        as (_ & HuG & _).
      rewrite !list_lookup_total_alt, HuG, <- list_lookup_total_alt.
      apply freeze_uG_block; try done; try lia. apply Hsh.
    + eapply (IH (S p) (freeze n N k p st)); try done; try lia.
      * simpl. lia.
      * destruct (freeze_rows n N k p st r Hne) as (_ & -> & _). done.
Qed.

(** The convergence checks leave the rows of [uG] behind the old
    frontier as they are, and fill the rows that they freeze with their
    block [k]. *)
Lemma convergence_uG k (st st' : tables F) :
  wf n N st → (I st < N)%nat → (k ≤ N)%nat →
  (convergence n N epsilon k st).2 = Ok st' →
  (∀ r, (r ≤ I st)%nat → uG st' !! r = uG st !! r)
  ∧ ∀ r j row, (I st < r ≤ I st')%nat → (k ≤ j ≤ N)%nat →
               uG st !! r = Some row →
               slice (n * j) (n * (j + 1)) (uG st' !!! r) = next n k row.
Proof.
  intros (Hu & HuG & HuF & _) HI Hk. unfold convergence.
  destruct (record_errors n k st) as [st1|e] eqn:Hrec; [|done].
  apply record_errors_inv in Hrec as (Eu & EuG & EuF & EI & _).
  simpl. intros [= <-]. simpl. rewrite <- EuG, <- EI.
  assert (shaped n N (u st1) ∧ shaped n N (uG st1) ∧ shaped n N (uF st1))
    as Hsh by (by rewrite Eu, EuG, EuF).
  rewrite <- EI in HI. clear Eu EuG EuF EI Hu HuG HuF.
  destruct (N - I st1)%nat as [|m] eqn:Hm; [lia|]. simpl.
  rewrite decide_True by done.
  pose proof (freeze_shaped n N k (I st1) st1 Hk Hsh) as Hsh1.
  split.
  - intros r Hr.
    destruct (scan_rows n N epsilon k (I st1) m (S (I st1))
                (freeze n N k (I st1) st1) ltac:(lia) ltac:(simpl; lia)
                r ltac:(lia)) as (_ & -> & _).
    apply freeze_rows. lia.
  - intros r j row Hr Hj Hrow.
    destruct (decide (r = I st1 + 1)%nat) as [->|Hne].
    + destruct (scan_rows n N epsilon k (I st1) m (S (I st1))
                  (freeze n N k (I st1) st1) ltac:(lia) ltac:(simpl; lia)
                  (I st1 + 1)%nat ltac:(lia)) as (_ & HuG & _).
      rewrite !list_lookup_total_alt, HuG, <- list_lookup_total_alt.
      apply freeze_uG_block; try done; try lia. apply Hsh.
    + eapply (scan_blocks k (I st1) m (S (I st1))
                (freeze n N k (I st1) st1)); try done; try lia.
      * simpl. lia.
      * destruct (freeze_rows n N k (I st1) st1 r Hne) as (_ & -> & _).
        done.
Qed.

(** When the coarse results of the iterations hold no NaN and the blocks
    behind the frontier hold none, the loop is not left on a NaN and does
    not raise [TypeError]. *)
Lemma iterations_no_crash parallel m : ∀ a kl (st : tables F) w r,
  (parallel = PyTrue → pool_quiet hst) →
  wf n N st → (I st < N)%nat → (1 ≤ a)%nat → (a + m ≤ N + 1)%nat →
  clean_behind n N a st →
  iterations hst f t n N dT dt epsilon parallel (seq a m) kl st = (w, r) →
  (∀ k i v out, Solve Coarse k i v (Ok out) ∈ w → (1 ≤ k)%nat → clean out) →
  r ≠ Raise TypeError ∧ ∀ k st', r ≠ Ok (Left k true st').
Proof.
  induction m as [|m IH]; intros a kl st w r Hpool Hwf HI Ha Ham Hbehind.
  { intros [= <- <-] _. done. }
  cbn [seq iterations].
  intros Hrun Hclean.
  apply bind_inv in Hrun
    as [(e & Hfine & ->) | (w1 & o & w' & Hfine & Hrun & ->)].
  { pose proof (fine_stage_quiet parallel a st Hpool) as Hq.
    rewrite Hfine in Hq.
    split; [intros [= ->]; by destruct Hq | done]. }
  apply fine_stage_Ok in Hfine
    as [(-> & -> & _) | (st1 & -> & _ & Hfine)].
  { by injection Hrun as <- <-. }
  pose proof (fine_pass_spec f t n N dt a st (seq (I st) (N - I st)) Hwf
                ltac:(lia)) as [_ Hst1].
  rewrite Hfine in Hst1. destruct (Hst1 st1 eq_refl) as [Hwf1 HI1].
  apply fine_pass_rows in Hfine as (_ & EuG1 & _ & _).
  apply bind_inv in Hrun
    as [(e & Hcor & ->) | (w2 & st2 & w'' & Hcor & Hrun & ->)].
  { pose proof (quiet_for_run _ (seq (I st1) (N - I st1))
                  (correct_step_quiet a) st1) as Hq.
    rewrite Hcor in Hq.
    split; [intros [= ->]; by destruct Hq | done]. }
  pose proof (correct_pass_spec f t n N dT a st1 (seq (I st1) (N - I st1))
                Hwf1 ltac:(lia)) as [_ Hst2].
  rewrite Hcor in Hst2. destruct (Hst2 st2 eq_refl) as [Hwf2 HI2].
  assert (∀ r row, uG st2 !! r = Some row → clean (next n a row)) as Hall.
  { intros r0 row Hrow.
    destruct (decide (r0 ≤ I st)%nat) as [Hle|Hgt].
    - rewrite (correct_pass_rows f t n dT a _ _ _ _ _ Hcor) in Hrow by lia.
      rewrite EuG1 in Hrow. apply (Hbehind r0 a row); [done | lia | done].
    - assert (r0 < N + 1)%nat.
      { apply lookup_lt_Some in Hrow.
        destruct Hwf2 as (_ & [Hlen _] & _). lia. }
      apply (fun Hc Hr =>
               correct_pass_clean a (N - I st1) (I st1) st1 w2 st2 Hwf1
                 ltac:(lia) ltac:(lia) Hcor Hc r0 row Hr Hrow); [|lia].
      intros i v out Hin. apply (Hclean a i v out); [|lia].
      apply elem_of_app. right. apply elem_of_app. by left. }
  rewrite (any_nan_clean _ _ _ Hall) in Hrun.
  apply bind_inv in Hrun
    as [(e & Hconv & ->) | (w3 & st3 & w4 & Hconv & Hrun & ->)].
  { pose proof (convergence_quiet a st2) as Hq.
    rewrite Hconv in Hq.
    split; [intros [= ->]; by destruct Hq | done]. }
  pose proof (convergence_uG a st2 st3 Hwf2 ltac:(lia) ltac:(lia)
                ltac:(by rewrite Hconv)) as [Hold Hnew].
  apply convergence_inv in Hconv
    as [(_ & e & [=]) | (st3' & [= <-] & -> & Hwf3 & HI3)];
    [|done|lia|lia].
  case_decide as HN.
  { injection Hrun as <- <-. done. }
  assert (clean_behind n N (S a) st3) as Hbehind3.
  { intros r0 j row Hr0 Hj Hrow.
    destruct (decide (r0 ≤ I st2)%nat) as [Hle|Hgt].
    - rewrite Hold in Hrow by done.
      rewrite (correct_pass_rows f t n dT a _ _ _ _ _ Hcor) in Hrow by lia.
      rewrite EuG1 in Hrow. apply (Hbehind r0 j row); [lia | lia | done].
    - destruct (lookup_lt_is_Some_2 (uG st2) r0) as [row2 Hrow2].
      { destruct Hwf2 as (_ & [Hlen _] & _).
        destruct Hwf3 as (_ & _ & _ & ?). lia. }
      rewrite <- (list_lookup_total_correct _ _ _ Hrow).
      rewrite (Hnew r0 j row2) by (done || lia).
      by eapply Hall. }
  destruct Hwf3 as (? & ? & ? & ?).
  eapply (IH (S a) a st3 w4 r); try done; try lia.
  intros k i v out Hin. apply (Hclean k i v out).
  apply elem_of_app. right. apply elem_of_app. right.
  apply elem_of_cons. by right.
Qed.

(** When no NaN is in the row 0 of [uG] and none in the coarse results of
    the iterations, the algorithm does not raise [TypeError]. *)
Lemma algorithm_no_crash parallel (st : tables F) w r :
  (parallel = PyTrue → pool_quiet hst) →
  wf n N st → I st = 0%nat → (0 < N)%nat →
  clean_behind n N 1 st →
  algorithm hst f t n N dT dt epsilon parallel st = (w, r) →
  (∀ k i v out, Solve Coarse k i v (Ok out) ∈ w → (1 ≤ k)%nat → clean out) →
  r ≠ Raise TypeError.
Proof.
  intros Hpool Hwf HI HN Hbehind. rewrite algorithm_unfold.
  intros Hrun Hclean.
  apply bind_inv in Hrun
    as [(e & Hboot & ->) | (w0 & st0 & w' & Hboot & Hrun & ->)].
  { pose proof (quiet_for_run _ (seq 0 N) bootstrap_step_quiet st) as Hq.
    rewrite Hboot in Hq. intros [= ->]. by destruct Hq. }
  pose proof (bootstrap_spec f t n N dT st N Hwf) as [_ Hst0].
  pose proof (bootstrap_uG_row0 (seq 0 N) st) as [_ Hrow0].
  rewrite Hboot in Hst0, Hrow0.
  destruct (Hst0 st0 eq_refl) as (Hwf0 & HI0 & _).
  specialize (Hrow0 st0 eq_refl). simpl in Hrow0.
  assert (clean_behind n N 1 st0) as Hbehind0.
  { intros r0 j row Hr0 Hj Hrow. eapply (Hbehind r0 j); [lia | done |].
    replace r0 with 0%nat in * by lia. congruence. }
  apply bind_inv in Hrun
    as [(e & Hit & ->) | (w1 & e & w2 & Hit & Hout & ->)].
  - destruct (iterations_no_crash parallel N 1 0%nat st0 _ _ Hpool Hwf0
                ltac:(lia) ltac:(lia) ltac:(lia) Hbehind0 Hit) as [Hq _].
    { intros k i v out Hin. apply (Hclean k i v out).
      apply elem_of_app. by right. }
    intros [= ->]. by destruct Hq.
  - destruct (iterations_no_crash parallel N 1 0%nat st0 _ _ Hpool Hwf0
                ltac:(lia) ltac:(lia) ltac:(lia) Hbehind0 Hit) as [_ Hnan].
    { intros k i v out Hin. apply (Hclean k i v out).
      apply elem_of_app. right. apply elem_of_app. by left. }
    destruct e as [|k [] st']; [by injection Hout as _ <- | |
                                 by injection Hout as _ <-].
    by destruct (Hnan k st').
Qed.

End CrashFacts.

(** ** A whole run *)

Section PararealKept.
Context {F : Type} `{Arith F}.
#[local] Existing Instance F_inhabited.
Variable hst : host.

(** Every call and every frontier of a run of [Parareal] is within range,
    and a returned tuple comes from tables that are settled. *)
Lemma Parareal_kept f tspan (u0 : list F) N Ng Nf epsilon parallel :
  run_spec (Parareal hst f tspan u0 N Ng Nf epsilon parallel)
           (in_range (Z.to_nat N))
           (fun r => match r with
                     | RNone _ => True
                     | RTuple t' uo d =>
                         (1 ≤ N)%Z
                         ∧ ∃ st',
                             settled (length u0) (Z.to_nat N)
                                     (tile u0 (Z.to_nat N + 1)) epsilon
                                     1 (Z.to_nat N + 1) (Iterations d) st'
                             ∧ uo = slice (length u0)
                                      (length u0 * (Iterations d + 1))
                                    <$> u st'
                             ∧ Errors d = take (Iterations d) <$> err st'
                             ∧ Slices d
                               = take (Iterations d + 1) (slices st')
                     end).
Proof.
  destruct (Parareal_cases hst f tspan u0 N Ng Nf epsilon)
    as [(r & Hrun & Hr) | (t & dT & dt & N' & -> & HN & _ & _ & Hrun)].
  - rewrite Hrun. split; [constructor|]. simpl.
    intros r' Hr'.
    destruct Hr as [-> | [e ->]]; [by injection Hr' as <- | done].
  - rewrite Hrun, Nat2Z.id.
    eapply run_spec_weaken;
      [apply (algorithm_kept hst f t (length u0) N' dT dt epsilon
                (tile u0 (N' + 1)) parallel);
         [apply storage_kept | done | lia]
      | done |].
    intros [msg|t' uo d]; [done|].
    intros (st' & ? & _ & ? & ? & ?). split; [lia|]. by exists st'.
Qed.

(** A [TypeError] of [Parareal] comes from the algorithm: the first lines
    raise other exceptions. *)
Lemma Parareal_TypeError_inv f tspan (u0 : list F) N Ng Nf epsilon
    parallel :
  (∀ x, ceil_of x ≠ Raise TypeError) →
  (Parareal hst f tspan u0 N Ng Nf epsilon parallel).2 = Raise TypeError →
  ∃ t dT dt (N' : nat),
    N = Z.of_nat N' ∧ (1 ≤ N')%nat
    ∧ Parareal hst f tspan u0 N Ng Nf epsilon parallel
      = algorithm hst f t (length u0) N' dT dt epsilon parallel
                  (storage u0 (length u0) N').
Proof.
  intros Hceil. unfold Parareal, py_div.
  destruct (Z.eqb_spec N 0) as [|HN]; [done|].
  destruct (Z.eqb_spec Ng 0) as [|HNg]; [done|].
  destruct (Z.eqb_spec Nf 0) as [|HNf]; [done|].
  rewrite !lift_Ok, !bind_ret_l.
  destruct (np_arange _ _ _) as [t|e] eqn:Ht.
  2:{ simpl. intros [= ->]. unfold np_arange in Ht.
      destruct (ceil_of _) as [len|e] eqn:Hlen; [done|].
      injection Ht as ->. by apply Hceil in Hlen. }
  rewrite lift_Ok, bind_ret_l.
  destruct (negb _ || negb _); [done|].
  destruct (Z.ltb_spec N 0) as [|Hge]; [done|].
  intros _. do 3 eexists. exists (Z.to_nat N).
  split; [lia|]. split; [lia|]. done.
Qed.

(** A returned tuple: the initialization gave the mesh that is returned
    and the two steps, the first sweep and the loop of the algorithm
    returned, the loop was left without a NaN after the iteration [k] that
    is returned, and the output is cut out of the array [u] it was left
    with. *)
Lemma Parareal_returns f tspan (u0 : list F) N Ng Nf epsilon parallel
    t uo d :
  (Parareal hst f tspan u0 N Ng Nf epsilon parallel).2
  = Ok (RTuple t uo d) →
  ∃ L_sub dT dt st',
    (1 ≤ N)%Z
    ∧ py_div (sub tspan.2 tspan.1) N = Ok L_sub
    ∧ py_div (sub tspan.2 tspan.1) Ng = Ok dT
    ∧ py_div (sub tspan.2 tspan.1) Nf = Ok dt
    ∧ np_arange tspan.1 (add tspan.2 L_sub) L_sub = Ok t
    ∧ (sweeps hst f t (length u0) (Z.to_nat N) dT dt epsilon parallel
              (storage u0 (length u0) (Z.to_nat N))).2
      = Ok (Left (Iterations d) false st')
    ∧ wf (length u0) (Z.to_nat N) st'
    ∧ (1 ≤ Iterations d ≤ Z.to_nat N)%nat
    ∧ uo = slice (length u0) (length u0 * (Iterations d + 1)) <$> u st'.
Proof.
  destruct (Parareal_setup hst f tspan u0 N Ng Nf epsilon)
    as [(r & Hrun & Hr)
       | (L_sub & t0 & dT & dt & HN & _ & _ & ? & ? & ? & Ht & Hrun)].
  { rewrite Hrun. simpl. by destruct Hr as [-> | [e ->]]. }
  rewrite Hrun. intros Hres.
  destruct (storage_wf u0 (Z.to_nat N)) as [Hwf HI].
  destruct (algorithm hst f t0 (length u0) (Z.to_nat N) dT dt epsilon
              parallel (storage u0 (length u0) (Z.to_nat N)))
    as [w r] eqn:Halg.
  simpl in Hres. subst r.
  apply algorithm_output in Halg as (-> & Hk & st' & Hsw & Hwf' & ->);
    [|done|done|lia].
  exists L_sub, dT, dt, st'. split_and!; try done; lia.
Qed.

End PararealKept.

(** ** The two modes side by side *)

Section PoolFacts.
Context {F : Type} `{Arith F}.
#[local] Existing Instance F_inhabited.
Variable hst : host.
Variable f : F → list F → list F.
Variables (t : list F) (n N : nat) (dT dt epsilon : F).









End PoolFacts.

(** ** The inputs of the examples *)

Module ExampleFacts.
Import binary64 Examples.

(** No binary64 number is below NaN. *)
Lemma nothing_below_nan (x : float) : ltb x PrimFloat.nan = false.
Proof.
  simpl. rewrite ltb_spec. unfold SFltb, SFcompare.
  change (Prim2SF PrimFloat.nan) with S754_nan.
  by destruct (Prim2SF x).
Qed.

Lemma ramp_tables_wf : wf 1 2 ramp_tables.
Proof.
  unfold wf, shaped. simpl. split_and!; try done; try lia;
    repeat constructor.
Qed.

(** [int] of a binary64 number and the length of [np.arange] raise
    [ValueError] or [OverflowError]. *)
Lemma trunc_quiet (x : float) : trunc x ≠ Raise TypeError.
Proof. unfold trunc. by destruct (Prim2SF x). Qed.

Lemma ceil_quiet (x : float) : ceil x ≠ Raise TypeError.
Proof. unfold ceil. by destruct (Prim2SF x). Qed.

End ExampleFacts.

(** * The claims *)

Section StepperClaims.
Context {F : Type} `{Arith F}.
Local Open Scope arith_scope.
#[local] Existing Instance F_inhabited.

(** C7.  For the scalar linear equation u' = lam * u, a call of the RK1
    (Euler) method that takes a single step of size [dt] from the state
    [u] returns [u + dt * (lam * u)]; the weight [b = [1]] of the method
    is an integer array, and the statement asks that multiplying the
    stage value by it leaves the value as it is. *)
Theorem RK1_step_linear (lam dt t0 t1 x : F) (u0 : loc)
    (h : gmap loc (list F)) :
  h !! u0 = Some [x] →
  int_of ((t1 - t0) / dt) = Ok 1%Z →
  fl 1 * (dt * (lam * x)) = dt * (lam * x) →
  RungeKutta h (t0, t1) dt u0 (fun _ y => vscale lam y) "RK1" PyFalse
  = Ok (<[u0 := [x + dt * (lam * x)]]> h, VArray u0).
Proof.
  intros Hu0 Hsteps Hone. unfold RungeKutta.
  change (select_method "RK1") with (Some (RK1 (F := F))).
  simpl. rewrite Hsteps. simpl.
  rewrite step_in_place_eq, (lookup_total_correct _ _ _ Hu0).
  unfold rk_increment, weighted_sum. simpl. by rewrite Hone.
Qed.



End StepperClaims.

Module StepperWitnesses.
Import binary64 Examples.

Lemma RK1_step_linear_witness :
  RungeKutta one_array (0, 0.5)%float 0.5%float 0%nat
             (fun _ y => vscale (-1)%float y) "RK1" PyFalse
  = Ok (<[0%nat := [(1%float + 0.5%float * ((-1)%float * 1%float))%A]]>
          one_array, VArray 0%nat).
Proof.
  apply (RK1_step_linear (-1)%float 0.5%float 0%float 0.5%float 1%float
           0%nat one_array); reflexivity.
Defined.




End StepperWitnesses.

Section CoordinatorClaims.
Context {F : Type} `{Arith F}.
#[local] Existing Instance F_inhabited.

(** C1 (as amended).  In the convergence test of an iteration that starts
    with the frontier [I < N], the slice at the frontier is frozen without
    a test; each slice after it is frozen only if the recorded error
    [err[p, k-1]] is below the tolerance; the frozen slices are the
    contiguous range from the old frontier to the new one, and the scan
    stops at the first slice whose error is not below the tolerance. *)
Theorem convergence_scan (n N : nat) (epsilon : F) (k : nat)
    (st st' : tables F) :
  (convergence n N epsilon k st).2 = Ok st' →
  (I st < N)%nat →
  (I st < I st' ≤ N)%nat
  ∧ (∀ p, (I st < p < I st')%nat →
          ltb ((err st' !!! p) !!! (k - 1)%nat) epsilon = true)
  ∧ ((I st' < N)%nat →
     ltb ((err st' !!! I st') !!! (k - 1)%nat) epsilon = false).
Proof.
  unfold convergence. intros Hconv HI.
  destruct (record_errors n k st) as [st1|e] eqn:Hrec; [|done].
  apply record_errors_inv in Hrec as (_ & _ & _ & EI & _).
  simpl in Hconv. injection Hconv as <-. simpl.
  pose proof (scan_frontier n N epsilon k st1) as Hscan.
  rewrite EI in Hscan. rewrite !EI.
  destruct (Hscan HI) as (Hb & Hlt & Hstop & He & _).
  rewrite He. auto.
Qed.


(** C4.  When [Ng] is not an integer multiple of [N], or [Nf] is not one of
    [Ng], [Parareal] stops before any call of a propagator (its trace is
    empty): it prints the message about the step counts and returns
    [None], or an exception of the first lines (a division by zero, the
    mesh) ends it; it returns no result. *)
Theorem invalid_steps_rejected (hst : host) (f : F → list F → list F)
    (tspan : F * F)
    (u0 : list F) (N Ng Nf : Z) (epsilon : F) (parallel : flag) :
  (¬ (N | Ng) ∨ ¬ (Ng | Nf))%Z →
  (Parareal hst f tspan u0 N Ng Nf epsilon parallel).1 = []
  ∧ ((Parareal hst f tspan u0 N Ng Nf epsilon parallel).2
     = Ok (RNone steps_message)
     ∨ ∃ e, (Parareal hst f tspan u0 N Ng Nf epsilon parallel).2 = Raise e).
Proof. apply Parareal_invalid. Qed.

(** C9.  Along the outer iterations of any run, the successive values of
    the frontier [I] never decrease, and none of them exceeds [N]. *)
Theorem frontier_monotone (hst : host) (f : F → list F → list F)
    (tspan : F * F)
    (u0 : list F) (N Ng Nf : Z) (epsilon : F) (parallel : flag) :
  let fr := frontiers (Parareal hst f tspan u0 N Ng Nf epsilon parallel).1 in
  (∀ i j x y, (i ≤ j)%nat → fr !! i = Some x → fr !! j = Some y →
              (x ≤ y)%nat)
  ∧ Forall (fun x => (Z.of_nat x ≤ N)%Z) fr.
Proof.
  destruct (Parareal_cases hst f tspan u0 N Ng Nf epsilon)
    as [(r & Hrun & _) | (t & dT & dt & N' & -> & HN & _ & _ & Hrun)].
  - rewrite Hrun. simpl. split; [|constructor].
    intros i j x y _ Hi. by destruct i.
  - rewrite Hrun. destruct (storage_wf u0 N') as [Hwf HI].
    destruct (algorithm _ _ _ _ _ _ _ _ _) as [w r] eqn:Halg.
    pose proof (algorithm_frontiers _ _ _ _ _ _ _ _ _ _ _ _ Hwf HI HN Halg)
      as Hasc.
    apply ascending_spec in Hasc as [Hbound Hsorted]. simpl.
    split; [done|]. eapply Forall_impl; [done|]. simpl. lia.
Qed.

(** C10.  When a run returns its tuple after [k] iterations, on a system of
    dimension [n] and with [N] slices, [k] is between 1 and [N] and the
    returned solution matrix has [N + 1] rows of [n * k] entries.  It is
    cut out of the array [u] that the loop of this run was left with
    after iteration [k] (the run on the mesh and with the steps of the
    initialization): the columns [n] to [n * (k + 1)] of each row, so that
    the column block [j - 1] of the output is the block [j] of [u], the
    iterate of iteration [j], for [j] from 1 to [k]; the block 0 of the
    first coarse sweep is not part of it. *)
Theorem output_shape (hst : host) (f : F → list F → list F)
    (tspan : F * F) (u0 : list F) (N Ng Nf : Z) (epsilon : F)
    (parallel : flag) (t : list F) (u_out : list (list F))
    (d : diagnostics F) :
  (Parareal hst f tspan u0 N Ng Nf epsilon parallel).2
  = Ok (RTuple t u_out d) →
  let n := length u0 in
  let k := Iterations d in
  let L := sub tspan.2 tspan.1 in
  (1 ≤ k)%nat ∧ (Z.of_nat k ≤ N)%Z
  ∧ length u_out = (Z.to_nat N + 1)%nat
  ∧ Forall (fun row => length row = (n * k)%nat) u_out
  ∧ ∃ L_sub dT dt st',
      py_div L N = Ok L_sub ∧ py_div L Ng = Ok dT ∧ py_div L Nf = Ok dt
      ∧ np_arange tspan.1 (add tspan.2 L_sub) L_sub = Ok t
      ∧ (sweeps hst f t n (Z.to_nat N) dT dt epsilon parallel
                (storage u0 n (Z.to_nat N))).2
        = Ok (Left k false st')
      ∧ shaped n (Z.to_nat N) (u st')
      ∧ u_out = slice n (n * (k + 1)) <$> u st'
      ∧ ∀ i j row,
          (1 ≤ j ≤ k)%nat → u st' !! i = Some row →
          ∃ row_out,
            u_out !! i = Some row_out
            ∧ slice (n * (j - 1)) (n * j) row_out
              = slice (n * j) (n * (j + 1)) row.
Proof.
  intros Hrun.
  apply Parareal_returns in Hrun
    as (L_sub & dT & dt & st' & HN & ? & ? & ? & ? & Hsw & Hwf & Hk & ->).
  destruct Hwf as (Hu & _). pose proof Hu as [Hrows Hcols]. simpl.
  split; [lia|]. split; [lia|].
  split; [by rewrite length_fmap|]. split.
  { apply Forall_fmap. eapply Forall_impl; [done|].
    intros row Hrow. simpl. rewrite length_slice, Hrow. nia. }
  exists L_sub, dT, dt, st'. split_and!; try done.
  intros i j row Hj Hrow. eexists. split.
  - by rewrite list_lookup_fmap, Hrow.
  - rewrite slice_slice by nia. f_equal; nia.
Qed.

End CoordinatorClaims.

Module CoordinatorWitnesses.
Import binary64 Examples.
#[local] Existing Instance F_inhabited.

Lemma convergence_scan_witness :
  ∃ st', (convergence 1 2 tol 1 flat_tables).2 = Ok st'
         ∧ (I flat_tables < I st' ≤ 2)%nat
         ∧ (∀ p, (I flat_tables < p < I st')%nat →
                 ltb ((err st' !!! p) !!! (1 - 1)%nat) tol = true)
         ∧ ((I st' < 2)%nat →
            ltb ((err st' !!! I st') !!! (1 - 1)%nat) tol = false).
Proof.
  eexists. split; [vm_compute; reflexivity|].
  apply (convergence_scan 1 2 tol 1 flat_tables);
    [vm_compute; reflexivity | simpl; lia].
Defined.

(** C1 as stated fails: with the tolerance 0 no recorded error is below
    the tolerance, and yet both slices are frozen (the frontier reaches
    [N = 2], one slice per iteration). *)
Lemma frozen_without_tolerance :
  ∃ t u_out d,
    (Parareal four_cpus decay (0, 1)%float [1%float] 2 2 2 0%float PyFalse).2
    = Ok (RTuple t u_out d)
    ∧ frontiers (Parareal four_cpus decay (0, 1)%float [1%float] 2 2 2 0%float
                          PyFalse).1 = [1; 2]%nat
    ∧ forallb (forallb (fun e => negb (ltb e 0%float))) (Errors d) = true.
Proof.
  do 3 eexists. split; [vm_compute; reflexivity|].
  split; vm_compute; reflexivity.
Defined.

(** C2: a coarse result that is infinite is not caught.  In iteration 1
    the coarse solver returns an infinite value for the slice 1; the
    check [np.isnan(uG[:, dim_indices_next]).any()] does not see it, the
    run is not aborted, iteration 2 is run and the tuple is returned with
    [Iterations = 2]. *)
Theorem infinite_coarse_result_not_caught :
  ∃ v out t u_out d,
    (Parareal four_cpus growth (0, 2)%float huge 2 2 2 tol PyFalse).1 !! 5%nat
    = Some (Solve Coarse 1 1 v (Ok out))
    ∧ existsb (fun x => negb (isfinite x)) out = true
    ∧ existsb isnan out = false
    ∧ (Parareal four_cpus growth (0, 2)%float huge 2 2 2 tol PyFalse).1 !! 9%nat
      = Some (Frontier 2 2)
    ∧ (Parareal four_cpus growth (0, 2)%float huge 2 2 2 tol PyFalse).2
      = Ok (RTuple t u_out d)
    ∧ Iterations d = 2%nat.
Proof.
  do 5 eexists. split; [vm_compute; reflexivity|].
  split; [vm_compute; reflexivity|]. split; [vm_compute; reflexivity|].
  split; [vm_compute; reflexivity|]. split; vm_compute; reflexivity.
Qed.



Lemma invalid_steps_rejected_witness :
  (Parareal four_cpus decay (0, 1)%float [1%float] 3 4 40 tol PyTrue).1 = []
  ∧ ((Parareal four_cpus decay (0, 1)%float [1%float] 3 4 40 tol PyTrue).2
     = Ok (RNone steps_message)
     ∨ ∃ e, (Parareal four_cpus decay (0, 1)%float [1%float] 3 4 40 tol PyTrue).2
            = Raise e).
Proof.
  apply (invalid_steps_rejected four_cpus decay (0, 1)%float [1%float] 3 4 40 tol
           PyTrue).
  left. intros [x Hx]. lia.
Defined.

Lemma output_shape_witness :
  ∃ t u_out d,
    (Parareal four_cpus decay (0, 1)%float [1%float] 4 4 40 tol PyFalse).2
    = Ok (RTuple t u_out d)
    ∧ (let n := length [1%float] in
       let k := Iterations d in
       let L := sub (0, 1)%float.2 (0, 1)%float.1 in
       (1 ≤ k)%nat ∧ (Z.of_nat k ≤ 4)%Z
       ∧ length u_out = (Z.to_nat 4 + 1)%nat
       ∧ Forall (fun row => length row = (n * k)%nat) u_out
       ∧ ∃ L_sub dT dt st',
           py_div L 4 = Ok L_sub ∧ py_div L 4 = Ok dT ∧ py_div L 40 = Ok dt
           ∧ np_arange (0, 1)%float.1 (add (0, 1)%float.2 L_sub) L_sub = Ok t
           ∧ (sweeps four_cpus decay t n (Z.to_nat 4) dT dt tol PyFalse
                     (storage [1%float] n (Z.to_nat 4))).2
             = Ok (Left k false st')
           ∧ shaped n (Z.to_nat 4) (u st')
           ∧ u_out = slice n (n * (k + 1)) <$> u st'
           ∧ ∀ i j row,
               (1 ≤ j ≤ k)%nat → u st' !! i = Some row →
               ∃ row_out,
                 u_out !! i = Some row_out
                 ∧ slice (n * (j - 1)) (n * j) row_out
                   = slice (n * j) (n * (j + 1)) row).
Proof.
  do 3 eexists. split; [vm_compute; reflexivity|].
  apply (output_shape four_cpus decay (0, 1)%float [1%float] 4 4 40 tol
           PyFalse).
  vm_compute. reflexivity.
Defined.

(** C6: a run that is left on a NaN of the coarse solver does not return;
    the slice [err[:, :k]] with [k = np.nan] raises. *)
Lemma crash_raises_TypeError :
  (Parareal four_cpus square (0, 1)%float large 1 1 1 tol PyFalse).1 !! 2%nat
  = Some (Solve Coarse 1 0 large (Ok [PrimFloat.nan]))
  ∧ (Parareal four_cpus square (0, 1)%float large 1 1 1 tol PyFalse).2
    = Raise TypeError.
Proof. split; vm_compute; reflexivity. Qed.

End CoordinatorWitnesses.

(** * Further properties of the program *)

(** ** The stepper *)

Section StepperExtras.
Context {F : Type} `{Arith F}.
Local Open Scope arith_scope.
#[local] Existing Instance F_inhabited.

(** X1.  With a method name that is none of 'RK1' to 'RK8', [RungeKutta]
    prints its error and returns [None], whatever the other arguments are:
    the name is tested before the step count is computed, so that nothing
    is raised and no array is changed. *)
Theorem unknown_method_returns_None (h : gmap loc (list F)) (tspan : F * F)
    (dt : F) (u0 : loc) (f : F → list F → list F) (method : string)
    (dense : flag) :
  method ∉ ["RK1"; "RK2"; "RK3"; "RK4"; "RK5"; "RK6"; "RK7"; "RK8"]%string →
  RungeKutta h tspan dt u0 f method dense = Ok (h, VNone).
Proof.
  intros Hm. unfold RungeKutta.
  destruct (select_method method) as [tb|] eqn:Hsel; [|done].
  by apply select_method_known in Hsel.
Qed.

(** X2.  In every tableau of the registry, [c] has as many entries as [b],
    and [a] has an entry [a[i, j]] for every stage [1 <= i < len(b)] and
    every [j < i]: the indices that the stage loops use are within the
    arrays. *)
Theorem tableau_indices_in_range (method : string) (tb : tableau F) :
  select_method method = Some tb →
  length (tab_c tb) = length (tab_b tb)
  ∧ ∀ i j, (1 ≤ i < length (tab_b tb))%nat → (j < i)%nat →
           ∃ row x, tab_a tb !! i = Some row ∧ row !! j = Some x.
Proof.
  intros Hsel. destruct (tableaux_square _ _ Hsel) as (Hc & Ha & Hrows).
  split; [done|]. intros i j Hi Hj.
  destruct (lookup_lt_is_Some_2 (tab_a tb) i) as [row Hrow]; [lia|].
  pose proof (Forall_lookup_1 _ _ _ _ Hrows Hrow) as Hlen. simpl in Hlen.
  destruct (lookup_lt_is_Some_2 row j) as [x Hx]; [lia|]. eauto.
Qed.

(** X3.  When the step count [int((tspan[1] - tspan[0]) / dt)] is zero or
    negative (a step longer than the interval, or an interval that runs
    backwards), the call with [dense = False] takes no step and returns
    the array it was given, unchanged.  The call with [dense = True]
    returns the single row [u0] when the count is zero, and raises when
    it is negative: [IndexError] for the count -1 (the array has no row
    to hold [u0]), [ValueError] below (an array of a negative size). *)
Theorem no_step_on_short_interval (h : gmap loc (list F)) (tspan : F * F)
    (dt : F) (u0 : loc) (f : F → list F → list F) (method : string)
    (tb : tableau F) (m : Z) :
  select_method method = Some tb →
  int_of ((tspan.2 - tspan.1) / dt) = Ok m →
  (m ≤ 0)%Z →
  RungeKutta h tspan dt u0 f method PyFalse = Ok (h, VArray u0)
  ∧ RungeKutta h tspan dt u0 f method PyTrue
    = (if (m =? 0)%Z then Ok (h, VTrajectory [h !!! u0])
       else if (m =? -1)%Z then Raise IndexError
       else Raise ValueError).
Proof.
  intros Hsel Hm Hle. unfold RungeKutta. rewrite Hsel, Hm. simpl.
  replace (Z.to_nat (m + 1 - 1)) with 0%nat by lia. simpl.
  split; [done|].
  destruct (Z.eqb_spec m 0) as [->|H0]; [done|].
  destruct (Z.eqb_spec m (-1)) as [->|H1]; [done|].
  destruct (Z.ltb_spec (m + 1) 0) as [?|?]; [done|lia].
Qed.

(** X4.  When there is one step to take at least and the right-hand side
    returns, at its first call, an array that has neither the length of
    the state nor the length 1, [RungeKutta] raises [ValueError] (the
    assignment [k[:, 0] = dt*f(tn, un)]), with [dense = False] as with
    [dense = True]. *)
Theorem rhs_shape_mismatch_raises (h : gmap loc (list F)) (tspan : F * F)
    (dt : F) (u0 : loc) (f : F → list F → list F) (method : string)
    (tb : tableau F) (m : Z) (dense : flag) :
  select_method method = Some tb →
  int_of ((tspan.2 - tspan.1) / dt) = Ok m →
  (1 ≤ m)%Z →
  dense ≠ PyOther →
  length (f (tspan.1 + fl 0 * dt) (h !!! u0)) ≠ length (h !!! u0) →
  length (f (tspan.1 + fl 0 * dt) (h !!! u0)) ≠ 1%nat →
  RungeKutta h tspan dt u0 f method dense = Raise ValueError.
Proof.
  intros Hsel Hm Hge Hdense Hdim Hone.
  assert (rk_increment tb f dt (tspan.1 + fl 0 * dt) (h !!! u0)
            (length (h !!! u0)) = Raise ValueError) as Hinc.
  { unfold rk_increment, broadcast.
    rewrite decide_False by (by rewrite length_vscale).
    destruct (f _ _) as [|x [|y l]]; simpl in *; done. }
  unfold RungeKutta. rewrite Hsel, Hm. simpl.
  destruct (Z.to_nat (m + 1 - 1)) as [|k] eqn:Hk; [lia|].
  destruct dense; [| |done].
  - destruct (Z.ltb_spec (m + 1) 0) as [?|_]; [lia|].
    destruct (Z.eqb_spec (m + 1) 0) as [?|_]; [lia|].
    cbn [seq for_each].
    rewrite (step_dense_eq _ _ _ _ _ _ _ (h !!! u0)).
    + change (Z.of_nat 0) with 0%Z. by rewrite Hinc.
    + apply list_lookup_insert_eq. rewrite length_replicate. lia.
  - cbn [seq for_each]. rewrite step_in_place_eq.
    change (Z.of_nat 0) with 0%Z. by rewrite Hinc.
Qed.

(** X5.  The trajectory that a call with [dense = True] returns has
    [int((tspan[1] - tspan[0]) / dt) + 1] rows, as many entries in each
    row as the initial state has, and the initial state as its row 0. *)
Theorem dense_trajectory_shape (h h' : gmap loc (list F)) (tspan : F * F)
    (dt : F) (u0 : loc) (f : F → list F → list F) (method : string)
    (rows : list (list F)) :
  RungeKutta h tspan dt u0 f method PyTrue = Ok (h', VTrajectory rows) →
  ∃ m, int_of ((tspan.2 - tspan.1) / dt) = Ok m
       ∧ (0 ≤ m)%Z
       ∧ Z.of_nat (length rows) = (m + 1)%Z
       ∧ rows !! 0%nat = Some (h !!! u0)
       ∧ Forall (fun row => length row = length (h !!! u0)) rows.
Proof.
  unfold RungeKutta. destruct (select_method method) as [tb|]; [|done].
  intros Hrun. apply rbind_Ok in Hrun as (m & Hm & Hrun).
  exists m. split; [done|].
  destruct (Z.ltb_spec (m + 1) 0) as [?|Hge]; [done|].
  destruct (Z.eqb_spec (m + 1) 0) as [?|Hne]; [done|].
  apply rbind_Ok in Hrun as (un & Hloop & Hrun). injection Hrun as _ <-.
  replace (m + 1 - 1)%Z with m in Hloop by lia.
  apply steps_dense_rows in Hloop as (Hlen & Hrows & Hdim);
    [|rewrite length_insert, length_replicate; lia].
  rewrite length_insert, length_replicate in Hlen.
  split; [lia|]. split; [lia|]. split.
  - rewrite Hrows by lia. apply list_lookup_insert_eq.
    rewrite length_replicate. lia.
  - apply Hdim. apply Forall_insert; [|done].
    apply Forall_replicate. apply length_replicate.
Qed.


End StepperExtras.

Module StepperExtraWitnesses.
Import binary64 Examples.

Lemma unknown_method_returns_None_witness :
  RungeKutta one_array (0, 1)%float 0.5%float 0%nat growth "RK9" PyFalse
  = Ok (one_array, VNone).
Proof.
  apply (unknown_method_returns_None one_array (0, 1)%float 0.5%float 0%nat
           growth "RK9" PyFalse).
  intros Hin. repeat (apply elem_of_cons in Hin as [[=]|Hin]).
  by apply elem_of_nil in Hin.
Defined.

Lemma tableau_indices_in_range_witness :
  length (tab_c (RK4 (F := float))) = length (tab_b (RK4 (F := float)))
  ∧ ∀ i j,
      (1 ≤ i < length (tab_b (RK4 (F := float))))%nat → (j < i)%nat →
      ∃ row x, tab_a (RK4 (F := float)) !! i = Some row
               ∧ row !! j = Some x.
Proof. apply (tableau_indices_in_range "RK4" RK4). reflexivity. Defined.

Lemma no_step_on_short_interval_witness :
  RungeKutta one_array (1, 0)%float 0.5%float 0%nat growth "RK4" PyFalse
  = Ok (one_array, VArray 0%nat)
  ∧ RungeKutta one_array (1, 0)%float 0.5%float 0%nat growth "RK4" PyTrue
    = (if (-2 =? 0)%Z then Ok (one_array, VTrajectory [one_array !!! 0%nat])
       else if (-2 =? -1)%Z then Raise IndexError
       else Raise ValueError).
Proof.
  apply (no_step_on_short_interval one_array (1, 0)%float 0.5%float 0%nat
           growth "RK4" RK4 (-2)); [reflexivity | reflexivity | lia].
Defined.

Lemma rhs_shape_mismatch_raises_witness :
  RungeKutta one_array (0, 1)%float 0.5%float 0%nat doubled "RK2" PyFalse
  = Raise ValueError.
Proof.
  apply (rhs_shape_mismatch_raises one_array (0, 1)%float 0.5%float 0%nat
           doubled "RK2" RK2 2 PyFalse);
    [reflexivity | reflexivity | lia | done
     | vm_compute; lia | vm_compute; lia].
Defined.

Lemma dense_trajectory_shape_witness :
  ∃ rows,
    RungeKutta one_array (0, 1)%float 0.25%float 0%nat growth "RK4" PyTrue
    = Ok (one_array, VTrajectory rows)
    ∧ ∃ m, int_of ((((0, 1)%float).2 - ((0, 1)%float).1) / 0.25%float)%A
           = Ok m
           ∧ (0 ≤ m)%Z
           ∧ Z.of_nat (length rows) = (m + 1)%Z
           ∧ rows !! 0%nat = Some (one_array !!! 0%nat)
           ∧ Forall (fun row => length row = length (one_array !!! 0%nat))
                    rows.
Proof.
  eexists. split; [vm_compute; reflexivity|].
  eapply (dense_trajectory_shape one_array one_array (0, 1)%float
            0.25%float 0%nat growth "RK4").
  vm_compute. reflexivity.
Defined.


End StepperExtraWitnesses.

(** ** The function [Parareal] *)

Section PararealExtras.
Context {F : Type} `{Arith F}.
#[local] Existing Instance F_inhabited.

(** X7.  When [N], [Ng] or [Nf] is 0, [Parareal] raises
    [ZeroDivisionError] in its first lines ([L / N], [L / Ng], [L / Nf]),
    before the check of the step counts and before any call of a
    propagator. *)
Theorem zero_count_raises (hst : host) (f : F → list F → list F)
    (tspan : F * F)
    (u0 : list F) (N Ng Nf : Z) (epsilon : F) (parallel : flag) :
  N = 0 ∨ Ng = 0 ∨ Nf = 0 →
  Parareal hst f tspan u0 N Ng Nf epsilon parallel
  = ([], Raise ZeroDivisionError).
Proof.
  intros Hzero. unfold Parareal, py_div.
  destruct (Z.eqb_spec N 0) as [|HN]; [done|].
  destruct (Z.eqb_spec Ng 0) as [|HNg]; [done|].
  destruct (Z.eqb_spec Nf 0) as [|HNf]; [done|].
  lia.
Qed.

(** X8.  With an initial condition of no entry, [Parareal] returns no
    tuple: it ends with [None] after a printed message or with an
    exception (the norm of the convergence check raises on rows of no
    entry). *)
Theorem empty_state_no_result (hst : host) (f : F → list F → list F)
    (tspan : F * F)
    (N Ng Nf : Z) (epsilon : F) (parallel : flag) :
  (∃ msg, (Parareal hst f tspan [] N Ng Nf epsilon parallel).2
          = Ok (RNone msg))
  ∨ (∃ e, (Parareal hst f tspan [] N Ng Nf epsilon parallel).2 = Raise e).
Proof.
  pose proof (Parareal_kept hst f tspan [] N Ng Nf epsilon parallel)
    as [_ Hres].
  destruct (Parareal hst f tspan [] N Ng Nf epsilon parallel).2
    as [[msg|t u_out d]|e]; [eauto | | eauto].
  destruct (Hres _ eq_refl) as (_ & st' & (_ & _ & _ & _ & Hn & _) & _).
  simpl in Hn. lia.
Qed.

(** X9.  With a flag [parallel] that is neither [True] nor [False], the
    error is found in the first iteration only: the calls of the run are
    the calls of the first coarse sweep, the same as a run with
    [parallel = False] starts with, and the run ends with [None] or with
    an exception. *)
Theorem other_flag_stops_after_first_sweep (hst : host) (f : F → list F → list F)
    (tspan : F * F) (u0 : list F) (N Ng Nf : Z) (epsilon : F) :
  let other := Parareal hst f tspan u0 N Ng Nf epsilon PyOther in
  let sequential := Parareal hst f tspan u0 N Ng Nf epsilon PyFalse in
  (∃ w', sequential.1 = other.1 ++ w'
         ∧ Forall (fun e => 1 ≤ event_iter e)%nat w')
  ∧ Forall (solve_of Coarse 0) other.1
  ∧ ((∃ msg, other.2 = Ok (RNone msg)) ∨ ∃ e, other.2 = Raise e).
Proof.
  simpl.
  destruct (Parareal_cases hst f tspan u0 N Ng Nf epsilon)
    as [(r & Hrun & Hr) | (t & dT & dt & N' & -> & HN & _ & _ & Hrun)].
  - rewrite !Hrun. simpl. split; [by exists []|]. split; [constructor|].
    destruct Hr as [-> | [e ->]]; eauto.
  - rewrite !Hrun. destruct (storage_wf u0 N') as [Hwf HI].
    destruct (algorithm_trace hst f t (length u0) N' dT dt epsilon PyFalse
                _ Hwf HI ltac:(lia)) as (w1 & Hseq & Hw1 & _).
    destruct (algorithm_trace hst f t (length u0) N' dT dt epsilon PyOther
                _ Hwf HI ltac:(lia)) as (w2 & Hoth & _ & Hnil & _).
    rewrite (Hnil eq_refl), app_nil_r in Hoth. rewrite Hseq, Hoth.
    split; [by exists w1|].
    pose proof (bootstrap_spec f t (length u0) N' dT _ N' Hwf) as [Hev _].
    split; [done|].
    rewrite algorithm_other by lia.
    destruct (for_run _ _ _) as [w0 [st0|e]]; simpl; eauto.
Qed.

(** X10.  The trace of a run starts with the first coarse sweep, a chain:
    the call of the slice 0 starts from [u0] and the call of each next
    slice starts from the result of the call before it.  The sweep has [N]
    calls at most, and all that follows it belongs to the iterations
    [k >= 1].  Nothing follows a sweep of fewer than [N] calls: the run
    ended with the message about the step counts or with an exception.
    A call of the sweep that raises ends the run with its exception. *)
Theorem first_sweep_is_chained (hst : host) (f : F → list F → list F)
    (tspan : F * F)
    (u0 : list F) (N Ng Nf : Z) (epsilon : F) (parallel : flag) :
  let run := Parareal hst f tspan u0 N Ng Nf epsilon parallel in
  ∃ w0 w1,
    run.1 = w0 ++ w1
    ∧ chained 0 u0 w0
    ∧ Forall (fun e => 1 ≤ event_iter e)%nat w1
    ∧ (Z.of_nat (length w0) ≤ Z.max 0 N)%Z
    ∧ ((Z.of_nat (length w0) < N)%Z →
       w1 = []
       ∧ (run.2 = Ok (RNone steps_message) ∨ ∃ e, run.2 = Raise e))
    ∧ (∀ i v e, Solve Coarse 0 i v (Raise e) ∈ w0 →
                w1 = [] ∧ run.2 = Raise e).
Proof.
  cbn zeta.
  destruct (Parareal_cases hst f tspan u0 N Ng Nf epsilon)
    as [(r & Hrun & Hr) | (t & dT & dt & N' & -> & HN & _ & _ & Hrun)].
  - exists [], []. rewrite Hrun. simpl. split_and!; try done; try lia.
    intros i v e Hin. by apply elem_of_nil in Hin.
  - rewrite Hrun. destruct (storage_wf u0 N') as [Hwf HI].
    destruct (algorithm_trace hst f t (length u0) N' dT dt epsilon parallel
                _ Hwf HI ltac:(lia)) as (w1 & -> & Hw1 & _ & Hraise).
    pose proof (bootstrap_sweep f t (length u0) dT N' 0
                  (storage u0 (length u0) N')) as (Hlen & Hall & Hcall).
    cbn zeta in Hlen, Hall, Hcall.
    eexists _, w1. split; [done|]. split; [|split; [done|]].
    { pose proof (bootstrap_chained f t (length u0) N' dT N' 0 _ Hwf
                    ltac:(lia)) as Hchain.
      replace (slice 0 (length u0)
                 (uG (storage u0 (length u0) N') !!! 0%nat)) with u0
        in Hchain; [done|].
      simpl. rewrite list_lookup_total_insert_eq
        by (rewrite length_replicate; lia).
      rewrite list_lookup_total_insert_eq
        by (rewrite length_replicate; lia).
      by rewrite slice_tile_first. }
    split; [lia|]. split.
    + intros Hshort.
      destruct (for_run (bootstrap_step f t (length u0) dT) (seq 0 N')
                  (storage u0 (length u0) N')).2 as [st0|e] eqn:Hboot.
      { specialize (Hall st0 eq_refl). lia. }
      destruct (Hraise e eq_refl) as [-> ->]. eauto.
    + intros i v e Hin. apply Hraise. by eapply Hcall.
Qed.

(** X11.  A propagator is called on the slices [0] to [N - 1] only, and
    in the iteration [k >= 1] on no slice below [k - 1]: the slices behind
    the frontier are not solved again.  No iteration goes beyond [N], and
    the calls of the first sweep ([k = 0]) are calls of the coarse
    solver. *)
Theorem calls_skip_converged_slices (hst : host) (f : F → list F → list F)
    (tspan : F * F) (u0 : list F) (N Ng Nf : Z) (epsilon : F)
    (parallel : flag) (s : solver) (k i : nat) (v : list F)
    (out : result (list F)) :
  Solve s k i v out ∈ (Parareal hst f tspan u0 N Ng Nf epsilon parallel).1 →
  (Z.of_nat i < N)%Z ∧ (k ≤ i + 1)%nat ∧ (Z.of_nat k ≤ N)%Z
  ∧ (k = 0%nat → s = Coarse).
Proof.
  intros Hin.
  pose proof (Parareal_kept hst f tspan u0 N Ng Nf epsilon parallel)
    as [Hev _].
  rewrite Forall_forall in Hev. specialize (Hev _ Hin). simpl in Hev.
  destruct Hev as [? ?]. split_and!; try done; lia.
Qed.

(** X12.  The frontier recorded by the convergence test of the iteration
    [k] is [k] at least and [N] at most: each iteration puts one more
    slice behind the frontier, at least. *)
Theorem frontier_not_below_iteration (hst : host) (f : F → list F → list F)
    (tspan : F * F) (u0 : list F) (N Ng Nf : Z) (epsilon : F)
    (parallel : flag) (k i : nat) :
  Frontier k i ∈ (Parareal hst f tspan u0 N Ng Nf epsilon parallel).1 →
  (1 ≤ k ≤ i)%nat ∧ (Z.of_nat i ≤ N)%Z.
Proof.
  intros Hin.
  pose proof (Parareal_kept hst f tspan u0 N Ng Nf epsilon parallel)
    as [Hev _].
  rewrite Forall_forall in Hev. specialize (Hev _ Hin). simpl in Hev. lia.
Qed.

(** X17.  When [Parareal] returns its tuple, all the slices are behind the
    frontier: the last entry of [diagnostics['Slices']], the number of
    unconverged slices after the last iteration, is 0. *)
Theorem returns_with_all_slices_converged (hst : host) (f : F → list F → list F)
    (tspan : F * F) (u0 : list F) (N Ng Nf : Z) (epsilon : F)
    (parallel : flag) (t : list F) (u_out : list (list F))
    (d : diagnostics F) :
  (Parareal hst f tspan u0 N Ng Nf epsilon parallel).2 = Ok (RTuple t u_out d) →
  last (Slices d) = Some (fl 0).
Proof.
  intros Hrun.
  pose proof (Parareal_kept hst f tspan u0 N Ng Nf epsilon parallel)
    as [_ Hres].
  destruct (Hres _ Hrun)
    as (_ & st' & (Hst & _ & Hk & Hlast & _) & _ & _ & ->).
  destruct Hst as (_ & _ & _ & _ & Hlen & _).
  rewrite Z.sub_diag in Hlast.
  rewrite last_lookup, length_take, Hlen.
  replace (Init.Nat.pred ((Iterations d + 1) `min` (Z.to_nat N + 1)))
    with (Iterations d) by lia.
  rewrite lookup_take_lt by lia. done.
Qed.

(** X18.  With a tolerance that no number is below (a NaN), a run that
    returns its tuple has gone through all the [N] iterations. *)
Theorem unreachable_tolerance_runs_all_iterations (hst : host)
    (f : F → list F → list F) (tspan : F * F) (u0 : list F) (N Ng Nf : Z)
    (epsilon : F) (parallel : flag) (t : list F) (u_out : list (list F))
    (d : diagnostics F) :
  (∀ x, ltb x epsilon = false) →
  (Parareal hst f tspan u0 N Ng Nf epsilon parallel).2 = Ok (RTuple t u_out d) →
  Z.of_nat (Iterations d) = N.
Proof.
  intros Hnever Hrun.
  pose proof (Parareal_kept hst f tspan u0 N Ng Nf epsilon parallel)
    as [_ Hres].
  destruct (Hres _ Hrun) as (HN & st' & (_ & _ & _ & _ & _ & Hall) & _).
  rewrite (Hall Hnever). lia.
Qed.

(** X19.  In a returned tuple, [diagnostics['Errors']] has [N + 1] rows of
    [k] entries and [diagnostics['Slices']] has [k + 1] entries, the
    first of them [N], where [k] is [diagnostics['Iterations']]. *)
Theorem diagnostics_shape (hst : host) (f : F → list F → list F)
    (tspan : F * F)
    (u0 : list F) (N Ng Nf : Z) (epsilon : F) (parallel : flag)
    (t : list F) (u_out : list (list F)) (d : diagnostics F) :
  (Parareal hst f tspan u0 N Ng Nf epsilon parallel).2 = Ok (RTuple t u_out d) →
  length (Errors d) = (Z.to_nat N + 1)%nat
  ∧ Forall (fun row => length row = Iterations d) (Errors d)
  ∧ length (Slices d) = (Iterations d + 1)%nat
  ∧ Slices d !! 0%nat = Some (fl N).
Proof.
  intros Hrun.
  pose proof (Parareal_kept hst f tspan u0 N Ng Nf epsilon parallel)
    as [_ Hres].
  destruct (Hres _ Hrun)
    as (HN & st' & (Hst & _ & Hk & _) & _ & -> & ->).
  destruct Hst as (_ & _ & He & Her & Hs & Hs0).
  rewrite Z2Nat.id in Hs0 by lia.
  split_and!.
  - by rewrite length_fmap.
  - apply Forall_fmap. eapply Forall_impl; [done|].
    intros row Hrow. simpl in *. rewrite length_take. lia.
  - rewrite length_take. lia.
  - rewrite lookup_take_lt by lia. done.
Qed.

(** X20.  The row 0 of the returned solution matrix holds the initial
    condition [u0] in each of its [k] column blocks. *)
Theorem initial_condition_row (hst : host) (f : F → list F → list F)
    (tspan : F * F)
    (u0 : list F) (N Ng Nf : Z) (epsilon : F) (parallel : flag)
    (t : list F) (u_out : list (list F)) (d : diagnostics F) :
  (Parareal hst f tspan u0 N Ng Nf epsilon parallel).2 = Ok (RTuple t u_out d) →
  u_out !! 0%nat = Some (tile u0 (Iterations d)).
Proof.
  intros Hrun.
  pose proof (Parareal_kept hst f tspan u0 N Ng Nf epsilon parallel)
    as [_ Hres].
  destruct (Hres _ Hrun)
    as (HN & st' & (Hst & _ & Hk & _) & -> & _).
  destruct Hst as (_ & Hrow & _).
  rewrite list_lookup_fmap, Hrow. simpl. f_equal.
  apply slice_tile. lia.
Qed.

(** X22.  A run calls the fine solver [N * (N + 1) / 2] times at most:
    the iteration [k] calls it on the slices from the frontier on, and the
    frontier is [k - 1] at least. *)
Theorem fine_calls_bounded (hst : host) (f : F → list F → list F)
    (tspan : F * F)
    (u0 : list F) (N Ng Nf : Z) (epsilon : F) (parallel : flag) :
  (2 * Z.of_nat (fine_calls (Parareal hst f tspan u0 N Ng Nf epsilon parallel).1)
   ≤ Z.max 0 N * (Z.max 0 N + 1))%Z.
Proof.
  destruct (Parareal_cases hst f tspan u0 N Ng Nf epsilon)
    as [(r & Hrun & _) | (t & dT & dt & N' & -> & HN & _ & _ & Hrun)].
  - rewrite Hrun. simpl. rewrite fine_calls_nil. lia.
  - rewrite Hrun.
    pose proof (algorithm_fine_calls hst f t (length u0) N' dT dt epsilon
                  (tile u0 (N' + 1)) parallel _ (storage_kept u0 N')
                  eq_refl ltac:(lia)).
    nia.
Qed.

(** X23.  [Parareal] raises [TypeError] (the crash of a run that is left
    on a NaN) only if a NaN is in [u0] or in the result of a coarse call
    of an iteration [k >= 1]: the check [np.isnan(uG[:, dim_indices_next])]
    never meets a NaN of the initial fill of [uG].  [int] and [np.arange]
    raise no [TypeError] (they raise [ValueError] or [OverflowError]).
    The one other [TypeError] is the pool's own, with [parallel = True]:
    [os.cpu_count()] is [None], or pickling a task raises it. *)
Theorem crash_needs_nan (hst : host) (f : F → list F → list F)
    (tspan : F * F)
    (u0 : list F) (N Ng Nf : Z) (epsilon : F) (parallel : flag) :
  (∀ x, int_of x ≠ Raise TypeError) →
  (∀ x, ceil_of x ≠ Raise TypeError) →
  (Parareal hst f tspan u0 N Ng Nf epsilon parallel).2 = Raise TypeError →
  existsb isnan u0 = true
  ∨ (∃ k i v out,
       (1 ≤ k)%nat
       ∧ Solve Coarse k i v (Ok out)
           ∈ (Parareal hst f tspan u0 N Ng Nf epsilon parallel).1
       ∧ existsb isnan out = true)
  ∨ (parallel = PyTrue
     ∧ (cpu_count hst = None ∨ pickling hst = Some TypeError)).
Proof.
  intros Hint Hceil Hrun.
  destruct (existsb isnan u0) eqn:Hu0; [by left|]. right.
  destruct (existsb nan_call
              (Parareal hst f tspan u0 N Ng Nf epsilon parallel).1) eqn:Hex.
  { left. apply existsb_exists in Hex as (e & Hin & He).
    apply list_elem_of_In in Hin.
    destruct e as [[] k i v [out|]|]; try done. unfold nan_call in He.
    apply andb_true_iff in He as [Hk%Nat.leb_le Hout]. eauto 10. }
  assert ((parallel = PyTrue → pool_quiet hst)
          ∨ (parallel = PyTrue
             ∧ (cpu_count hst = None ∨ pickling hst = Some TypeError)))
    as [Hpool | Hown]; [| |by right].
  { destruct parallel; [|by left|by left].
    destruct (cpu_count hst) as [c|] eqn:Hc; [|right; auto].
    destruct (pickling hst) as [[]|] eqn:Hp;
      first [right; by auto | left; intros _; split; congruence]. }
  exfalso.
  destruct (Parareal_TypeError_inv hst _ _ _ _ _ _ _ _ Hceil Hrun)
    as (t & dT & dt & N' & -> & HN & Halg).
  rewrite Halg in Hrun, Hex. destruct (storage_wf u0 N') as [Hwf HI].
  destruct (algorithm _ _ _ _ _ _ _ _ _ _) as [w r] eqn:Hw.
  simpl in Hrun, Hex. subst r.
  eapply (algorithm_no_crash hst f t (length u0) N' dT dt epsilon Hint
            parallel _ w (Raise TypeError) Hpool Hwf HI ltac:(lia));
    [|done| |done].
  - intros r j row Hr Hj. simpl.
    replace r with 0%nat by (simpl in Hr; lia).
    rewrite list_lookup_insert_eq by (rewrite length_replicate; lia).
    rewrite list_lookup_total_insert_eq
      by (rewrite length_replicate; lia).
    intros [= <-]. unfold clean. by rewrite slice_tile_block by lia.
  - intros k i v out Hin Hk. unfold clean.
    destruct (existsb isnan out) eqn:Hout; [|done].
    apply not_true_iff_false in Hex. destruct Hex.
    apply existsb_exists. exists (Solve Coarse k i v (Ok out)).
    split; [by apply list_elem_of_In|]. unfold nan_call.
    apply andb_true_iff. split; [by apply Nat.leb_le | done].
Qed.

(** X24.  If a coarse-solver result produced during an iteration
    [k >= 1] holds a NaN, the loop is left right after the
    coarse/correction pass of that iteration: the run makes no convergence
    test of iteration [k] and nothing of a later iteration. *)
Theorem nan_coarse_result_aborts (hst : host) (f : F → list F → list F)
    (tspan : F * F) (u0 : list F) (N Ng Nf : Z) (epsilon : F)
    (parallel : flag) (k i : nat) (v out : list F) :
  (1 ≤ k)%nat →
  Solve Coarse k i v (Ok out)
    ∈ (Parareal hst f tspan u0 N Ng Nf epsilon parallel).1 →
  existsb isnan out = true →
  Forall (fun e => event_iter e ≤ k ∧ (event_iter e = k → is_solve e))%nat
         (Parareal hst f tspan u0 N Ng Nf epsilon parallel).1.
Proof.
  intros Hk Hin Hnan.
  destruct (Parareal_cases hst f tspan u0 N Ng Nf epsilon)
    as [(r & Hrun & _) | (t & dT & dt & N' & -> & HN & _ & _ & Hrun)].
  - rewrite Hrun in Hin. by apply elem_of_nil in Hin.
  - rewrite Hrun in *. destruct (storage_wf u0 N') as [Hwf HI].
    destruct (algorithm _ _ _ _ _ _ _ _ _ _) as [w r] eqn:Halg.
    by eapply algorithm_nan.
Qed.


End PararealExtras.

(** ** The steps of an iteration *)

Section IterationExtras.
Context {F : Type} `{Arith F}.
#[local] Existing Instance F_inhabited.
Variable hst : host.
Variable f : F → list F → list F.
Variables (t : list F) (n N : nat) (dT dt epsilon : F).

(** X21.  The two passes of an iteration, the fine solves and the
    corrections over the slices from the frontier [I] on, leave [I] and
    the rows [0] to [I] of [u], [uG] and [uF] as they are: the values
    behind the frontier are final. *)
Theorem passes_keep_rows_behind_frontier (k : nat) (st st1 st2 : tables F)
    (w1 w2 : list (event F)) :
  for_run (fine_step f t n dt k) (seq (I st) (N - I st)) st = (w1, Ok st1) →
  for_run (correct_step f t n dT k) (seq (I st1) (N - I st1)) st1
  = (w2, Ok st2) →
  I st2 = I st
  ∧ ∀ r, (r ≤ I st)%nat →
         u st2 !! r = u st !! r ∧ uG st2 !! r = uG st !! r
         ∧ uF st2 !! r = uF st !! r.
Proof.
  intros Hfine Hcor.
  apply fine_pass_rows in Hfine as (Eu & EuG & EI & HuF).
  apply correct_pass_frame in Hcor as (EuF & EI2 & Hrows).
  split; [congruence|]. intros r Hr.
  destruct (Hrows r ltac:(lia)) as [-> ->].
  rewrite EuF, Eu, EuG. split_and!; try done. by apply HuF.
Qed.

(** X13.  One predictor-corrector step of the iteration [k] on the slice
    [i] calls the coarse solver once, from [u[i, dim_indices_next]],
    stores its result [G] in [uG[i+1, dim_indices_next]], and leaves
    [G + uF[i+1, dim_indices] - uG[i+1, dim_indices]] in
    [u[i+1, dim_indices_next]], with the values that [uF] and [uG] had
    before the step; the other rows of [u] and [uG] are not changed. *)
Theorem predictor_corrector_update (k i : nat) (st st' : tables F)
    (w : list (event F)) :
  wf n N st → (1 ≤ k ≤ N)%nat → (i < N)%nat →
  correct_step f t n dT k st i = (w, Ok st') →
  ∃ G,
    w = [Solve Coarse k i (next n k (u st !!! i)) (Ok G)]
    ∧ next n k (uG st' !!! (i + 1)%nat) = G
    ∧ next n k (u st' !!! (i + 1)%nat)
      = vsub (vadd G (cur n k (uF st !!! (i + 1)%nat)))
             (cur n k (uG st !!! (i + 1)%nat))
    ∧ ∀ r, r ≠ (i + 1)%nat →
           u st' !! r = u st !! r ∧ uG st' !! r = uG st !! r.
Proof.
  intros (Hu & HuG & HuF & _) Hk Hi Hstep.
  unfold correct_step in Hstep.
  apply bind_inv_Ok in Hstep as (w1 & G & w2 & Hsolve & Hret & ->).
  injection Hret as <- <-.
  apply solve_inv in Hsolve
    as [(_ & [=] & _) | (ti & ti1 & _ & _ & -> & Hout)].
  exists G. rewrite <- Hout, app_nil_r. split; [done|]. simpl.
  symmetry in Hout. apply solve_on_copy_length in Hout.
  destruct (shaped_lookup n N (u st) i Hu) as (urow & Hurow & Hulen);
    [lia|].
  destruct (shaped_lookup n N (u st) (i + 1) Hu)
    as (urow1 & Hurow1 & Hulen1); [lia|].
  destruct (shaped_lookup n N (uG st) (i + 1) HuG)
    as (grow & Hgrow & Hglen); [lia|].
  destruct (shaped_lookup n N (uF st) (i + 1) HuF)
    as (frow & Hfrow & Hflen); [lia|].
  rewrite (list_lookup_total_correct _ _ _ Hurow) in Hout.
  rewrite (length_next_shaped n N k urow Hulen ltac:(lia)) in Hout.
  pose proof (block_bound n N k ltac:(lia)) as Hblock.
  rewrite (list_lookup_total_correct _ _ _ Hgrow),
    (list_lookup_total_correct _ _ _ Hfrow).
  rewrite (list_lookup_total_correct _ _ _
             (write_lookup_eq _ _ G _ _ Hgrow)).
  assert (next n k (set_slice (n * k) G grow) = G) as ->.
  { unfold next. replace (n * (k + 1))%nat with (n * k + length G)%nat
      by lia. apply slice_set_slice. lia. }
  assert (cur n k (set_slice (n * k) G grow) = cur n k grow) as ->.
  { unfold cur. apply slice_set_slice_before; lia. }
  split; [done|]. split.
  - erewrite list_lookup_total_correct
      by (by apply write_lookup_eq).
    set (new := vsub _ _).
    assert (length new = n) as Hnew.
    { unfold new, vsub, vadd. rewrite !length_zip_with.
      rewrite !(length_cur_shaped n N) by done. lia. }
    unfold next. replace (n * (k + 1))%nat with (n * k + length new)%nat
      by lia. apply slice_set_slice. lia.
  - intros r Hr. split; apply write_lookup_ne; lia.
Qed.

(** X14.  After [err[:, k - 1] = np.linalg.norm(...)], the entry
    [err[r, k - 1]] is the largest absolute value of the difference of the
    column blocks [k] and [k - 1] of the row [r] of [u], and the other
    entries of the row [r] of [err] are what they were. *)
Theorem recorded_error_is_sup_norm (k : nat) (st st' : tables F)
    (r : nat) (row : list F) :
  record_errors n k st = Ok st' →
  (1 ≤ k ≤ N)%nat →
  length (err st) = length (u st) →
  Forall (fun e => length e = N) (err st) →
  u st !! r = Some row →
  ∃ e, sup_norm (vsub (next n k row) (cur n k row)) = Ok e
       ∧ (err st' !!! r) !! (k - 1)%nat = Some e
       ∧ ∀ j, j ≠ (k - 1)%nat →
              (err st' !!! r) !! j = (err st !!! r) !! j.
Proof.
  unfold record_errors. intros Hrec Hk Hlen Herr Hrow.
  apply rbind_Ok in Hrec as (es & Hmap & Hrec). injection Hrec as <-.
  destruct (map_result_lookup _ _ _ Hmap r row Hrow) as (e & He & Hes).
  exists e. split; [done|]. simpl.
  destruct (lookup_lt_is_Some_2 (err st) r) as [erow Herow].
  { rewrite Hlen. by eapply lookup_lt_Some. }
  assert (zip_with (fun row0 x => <[(k - 1)%nat := x]> row0) (err st) es
          !! r = Some (<[(k - 1)%nat := e]> erow)) as Hnew.
  { rewrite lookup_zip_with, Herow. simpl. by rewrite Hes. }
  rewrite (list_lookup_total_correct _ _ _ Hnew),
    (list_lookup_total_correct _ _ _ Herow).
  split.
  - apply list_lookup_insert_eq.
    rewrite (Forall_lookup_1 _ _ _ _ Herr Herow). lia.
  - intros j Hj. by apply list_lookup_insert_ne.
Qed.

(** X15.  Freezing the slice [p] in the iteration [k] copies the values of
    the row [p + 1] forward: every column block [j] from [k] to [N] of
    [u] and of [uG] then holds their block [k], every such block of [uF]
    holds its block [k - 1]; the frontier moves up by one and no other
    row is changed. *)
Theorem freeze_copies_forward (k p j : nat) (st : tables F) :
  wf n N st → (1 ≤ k ≤ N)%nat → (p < N)%nat → (k ≤ j ≤ N)%nat →
  let st' := freeze n N k p st in
  slice (n * j) (n * (j + 1)) (u st' !!! (p + 1)%nat)
  = next n k (u st !!! (p + 1)%nat)
  ∧ slice (n * j) (n * (j + 1)) (uG st' !!! (p + 1)%nat)
    = next n k (uG st !!! (p + 1)%nat)
  ∧ slice (n * j) (n * (j + 1)) (uF st' !!! (p + 1)%nat)
    = cur n k (uF st !!! (p + 1)%nat)
  ∧ I st' = (I st + 1)%nat
  ∧ ∀ r, r ≠ (p + 1)%nat →
         u st' !! r = u st !! r ∧ uG st' !! r = uG st !! r
         ∧ uF st' !! r = uF st !! r.
Proof.
  intros (Hu & HuG & HuF & _) Hk Hp Hj. simpl.
  destruct (shaped_lookup n N (u st) (p + 1) Hu)
    as (urow & Hurow & Hulen); [lia|].
  destruct (shaped_lookup n N (uG st) (p + 1) HuG)
    as (grow & Hgrow & Hglen); [lia|].
  destruct (shaped_lookup n N (uF st) (p + 1) HuF)
    as (frow & Hfrow & Hflen); [lia|].
  rewrite (list_lookup_total_correct _ _ _ Hurow),
    (list_lookup_total_correct _ _ _ Hgrow),
    (list_lookup_total_correct _ _ _ Hfrow).
  rewrite !(list_lookup_total_correct _ _ _
              (write_lookup_eq _ _ _ _ _ Hurow)),
    !(list_lookup_total_correct _ _ _ (write_lookup_eq _ _ _ _ _ Hgrow)),
    !(list_lookup_total_correct _ _ _ (write_lookup_eq _ _ _ _ _ Hfrow)).
  pose proof (length_next_shaped n N k urow Hulen ltac:(lia)) as Hun.
  pose proof (length_next_shaped n N k grow Hglen ltac:(lia)) as Hgn.
  pose proof (length_cur_shaped n N k frow Hflen Hk) as Hfn.
  assert (∀ (v row : list F),
            length v = n → length row = (n * (N + 1))%nat →
            slice (n * k) (n * (k + 1)) row = v →
            slice (n * j) (n * (j + 1))
                  (set_slice (n * (k + 1)) (tile v (N - k)) row) = v)
    as Hnext.
  { intros v row Hv Hrow Hblock. by apply (slice_frozen_block n N). }
  split_and!.
  - by apply Hnext.
  - by apply Hnext.
  - replace (n * j)%nat
      with (n * k + length (cur n k frow) * (j - k))%nat by nia.
    replace (n * (j + 1))%nat
      with (n * k + length (cur n k frow) * (j - k + 1))%nat by nia.
    apply slice_set_slice_tile; [nia | lia].
  - done.
  - intros r Hr. split_and!; apply write_lookup_ne; lia.
Qed.

(** X16.  The convergence test of an iteration changes the rows
    [I + 1] to [I'] of [u], [uG] and [uF] only, where [I] is the frontier
    before the test and [I'] the frontier after it. *)
Theorem convergence_frame (k : nat) (st st' : tables F) :
  (convergence n N epsilon k st).2 = Ok st' →
  (I st < N)%nat →
  ∀ r, (r ≤ I st ∨ I st' < r)%nat →
       u st' !! r = u st !! r ∧ uG st' !! r = uG st !! r
       ∧ uF st' !! r = uF st !! r.
Proof.
  unfold convergence. intros Hconv HI r Hr.
  destruct (record_errors n k st) as [st1|e] eqn:Hrec; [|done].
  apply record_errors_inv in Hrec as (Eu & EuG & EuF & EI & _).
  simpl in Hconv. injection Hconv as <-. simpl in *.
  rewrite <- Eu, <- EuG, <- EuF. rewrite EI in *.
  destruct (N - I st)%nat as [|m] eqn:Hm; [lia|]. simpl in *.
  rewrite decide_True in * by done.
  pose proof (scan_tested n N epsilon k (I st) m (S (I st))
                (freeze n N k (I st) st1)
                ltac:(lia) ltac:(simpl; lia)) as (Hb & _).
  simpl in Hb.
  destruct (scan_rows n N epsilon k (I st) m (S (I st))
              (freeze n N k (I st) st1) ltac:(lia) ltac:(simpl; lia) r ltac:(lia))
    as (-> & -> & ->).
  apply freeze_rows. lia.
Qed.

End IterationExtras.

Module CoordinatorExtraWitnesses.
Import binary64 Examples ExampleFacts.
#[local] Existing Instance F_inhabited.

Lemma zero_count_raises_witness :
  Parareal four_cpus decay (0, 1)%float [1%float] 0 4 40 tol PyFalse
  = ([], Raise ZeroDivisionError).
Proof.
  apply (zero_count_raises four_cpus decay (0, 1)%float [1%float] 0 4 40 tol PyFalse).
  by left.
Defined.

Lemma calls_skip_converged_slices_witness :
  ∃ v out,
    (Parareal four_cpus decay (0, 1)%float [1%float] 2 2 2 tol PyFalse).1 !! 7%nat
    = Some (Solve Fine 2 1 v out)
    ∧ (Z.of_nat 1 < 2)%Z ∧ (2 ≤ 1 + 1)%nat ∧ (Z.of_nat 2 ≤ 2)%Z
    ∧ (2%nat = 0%nat → Fine = Coarse).
Proof.
  do 2 eexists. split; [vm_compute; reflexivity|].
  eapply (calls_skip_converged_slices four_cpus decay (0, 1)%float [1%float] 2 2 2 tol
            PyFalse Fine 2 1).
  apply (list_elem_of_lookup_2 _ 7). vm_compute. reflexivity.
Defined.

Lemma frontier_not_below_iteration_witness :
  (1 ≤ 2 ≤ 2)%nat ∧ (Z.of_nat 2 ≤ 2)%Z.
Proof.
  apply (frontier_not_below_iteration four_cpus decay (0, 1)%float [1%float] 2 2 2 tol
           PyFalse 2 2).
  apply (list_elem_of_lookup_2 _ 9). vm_compute. reflexivity.
Defined.

Lemma predictor_corrector_update_witness :
  ∃ w st',
    correct_step decay halves 1 0.5%float 1 ramp_tables 0 = (w, Ok st')
    ∧ ∃ G,
        w = [Solve Coarse 1 0 (next 1 1 (u ramp_tables !!! 0%nat)) (Ok G)]
        ∧ next 1 1 (uG st' !!! (0 + 1)%nat) = G
        ∧ next 1 1 (u st' !!! (0 + 1)%nat)
          = vsub (vadd G (cur 1 1 (uF ramp_tables !!! (0 + 1)%nat)))
                 (cur 1 1 (uG ramp_tables !!! (0 + 1)%nat))
        ∧ ∀ r, r ≠ (0 + 1)%nat →
               u st' !! r = u ramp_tables !! r
               ∧ uG st' !! r = uG ramp_tables !! r.
Proof.
  do 2 eexists. split; [vm_compute; reflexivity|].
  eapply (predictor_corrector_update decay halves 1 2 0.5%float 1 0
            ramp_tables);
    [exact ramp_tables_wf | lia | lia | vm_compute; reflexivity].
Defined.

Lemma recorded_error_is_sup_norm_witness :
  ∃ st', record_errors 1 1 ramp_tables = Ok st'
         ∧ ∃ e, sup_norm (vsub (next 1 1 [4; 5; 6]%float)
                               (cur 1 1 [4; 5; 6]%float)) = Ok e
                ∧ (err st' !!! 1%nat) !! (1 - 1)%nat = Some e
                ∧ ∀ j, j ≠ (1 - 1)%nat →
                       (err st' !!! 1%nat) !! j
                       = (err ramp_tables !!! 1%nat) !! j.
Proof.
  eexists. split; [vm_compute; reflexivity|].
  eapply (recorded_error_is_sup_norm 1 2 1 ramp_tables _ 1 [4; 5; 6]%float);
    [vm_compute; reflexivity | lia | reflexivity
     | repeat constructor | reflexivity].
Defined.

Lemma freeze_copies_forward_witness :
  slice (1 * 2) (1 * (2 + 1)) (u (freeze 1 2 1 0 ramp_tables) !!! (0 + 1)%nat)
  = next 1 1 (u ramp_tables !!! (0 + 1)%nat)
  ∧ slice (1 * 2) (1 * (2 + 1))
          (uG (freeze 1 2 1 0 ramp_tables) !!! (0 + 1)%nat)
    = next 1 1 (uG ramp_tables !!! (0 + 1)%nat)
  ∧ slice (1 * 2) (1 * (2 + 1))
          (uF (freeze 1 2 1 0 ramp_tables) !!! (0 + 1)%nat)
    = cur 1 1 (uF ramp_tables !!! (0 + 1)%nat)
  ∧ I (freeze 1 2 1 0 ramp_tables) = (I ramp_tables + 1)%nat
  ∧ ∀ r, r ≠ (0 + 1)%nat →
         u (freeze 1 2 1 0 ramp_tables) !! r = u ramp_tables !! r
         ∧ uG (freeze 1 2 1 0 ramp_tables) !! r = uG ramp_tables !! r
         ∧ uF (freeze 1 2 1 0 ramp_tables) !! r = uF ramp_tables !! r.
Proof.
  apply (freeze_copies_forward 1 2 1 0 2 ramp_tables);
    [exact ramp_tables_wf | lia | lia | lia].
Defined.

Lemma convergence_frame_witness :
  ∃ st', (convergence 1 2 tol 1 ramp_tables).2 = Ok st'
         ∧ u st' !! 0%nat = u ramp_tables !! 0%nat
         ∧ uG st' !! 0%nat = uG ramp_tables !! 0%nat
         ∧ uF st' !! 0%nat = uF ramp_tables !! 0%nat.
Proof.
  eexists. split; [vm_compute; reflexivity|].
  eapply (convergence_frame 1 2 tol 1 ramp_tables);
    [vm_compute; reflexivity | simpl; lia | left; simpl; lia].
Defined.

Lemma returns_with_all_slices_converged_witness :
  ∃ t u_out d,
    (Parareal four_cpus decay (0, 1)%float [1%float] 4 4 40 tol PyFalse).2
    = Ok (RTuple t u_out d)
    ∧ last (Slices d) = Some (fl 0).
Proof.
  do 3 eexists. split; [vm_compute; reflexivity|].
  eapply (returns_with_all_slices_converged four_cpus decay (0, 1)%float [1%float]
            4 4 40 tol PyFalse).
  vm_compute. reflexivity.
Defined.

Lemma unreachable_tolerance_witness :
  ∃ t u_out d,
    (Parareal four_cpus decay (0, 1)%float [1%float] 4 4 40 PrimFloat.nan PyFalse).2
    = Ok (RTuple t u_out d)
    ∧ Z.of_nat (Iterations d) = 4.
Proof.
  do 3 eexists. split; [vm_compute; reflexivity|].
  eapply (unreachable_tolerance_runs_all_iterations four_cpus decay (0, 1)%float
            [1%float] 4 4 40 PrimFloat.nan PyFalse);
    [exact nothing_below_nan | vm_compute; reflexivity].
Defined.

Lemma diagnostics_shape_witness :
  ∃ t u_out d,
    (Parareal four_cpus decay (0, 1)%float [1%float] 4 4 40 tol PyFalse).2
    = Ok (RTuple t u_out d)
    ∧ length (Errors d) = (Z.to_nat 4 + 1)%nat
    ∧ Forall (fun row => length row = Iterations d) (Errors d)
    ∧ length (Slices d) = (Iterations d + 1)%nat
    ∧ Slices d !! 0%nat = Some (fl 4).
Proof.
  do 3 eexists. split; [vm_compute; reflexivity|].
  eapply (diagnostics_shape four_cpus decay (0, 1)%float [1%float] 4 4 40 tol PyFalse).
  vm_compute. reflexivity.
Defined.

Lemma initial_condition_row_witness :
  ∃ t u_out d,
    (Parareal four_cpus decay (0, 1)%float [1%float] 4 4 40 tol PyFalse).2
    = Ok (RTuple t u_out d)
    ∧ u_out !! 0%nat = Some (tile [1%float] (Iterations d)).
Proof.
  do 3 eexists. split; [vm_compute; reflexivity|].
  eapply (initial_condition_row four_cpus decay (0, 1)%float [1%float] 4 4 40 tol
            PyFalse).
  vm_compute. reflexivity.
Defined.

Lemma passes_keep_rows_behind_frontier_witness :
  ∃ w1 st1 w2 st2,
    for_run (fine_step decay halves 1 0.25%float 1)
            (seq (I ramp_tables) (2 - I ramp_tables)) ramp_tables
    = (w1, Ok st1)
    ∧ for_run (correct_step decay halves 1 0.5%float 1)
              (seq (I st1) (2 - I st1)) st1 = (w2, Ok st2)
    ∧ I st2 = I ramp_tables
    ∧ ∀ r, (r ≤ I ramp_tables)%nat →
           u st2 !! r = u ramp_tables !! r
           ∧ uG st2 !! r = uG ramp_tables !! r
           ∧ uF st2 !! r = uF ramp_tables !! r.
Proof.
  do 4 eexists. split; [vm_compute; reflexivity|].
  split; [vm_compute; reflexivity|].
  eapply (passes_keep_rows_behind_frontier decay halves 1 2 0.5%float
            0.25%float 1 ramp_tables);
    [vm_compute; reflexivity | vm_compute; reflexivity].
Defined.

Lemma crash_needs_nan_witness :
  existsb isnan large = true
  ∨ (∃ k i v out,
       (1 ≤ k)%nat
       ∧ Solve Coarse k i v (Ok out)
           ∈ (Parareal four_cpus square (0, 1)%float large 1 1 1 tol
                       PyFalse).1
       ∧ existsb isnan out = true)
  ∨ (PyFalse = PyTrue
     ∧ (cpu_count four_cpus = None ∨ pickling four_cpus = Some TypeError)).
Proof.
  apply (crash_needs_nan four_cpus square (0, 1)%float large 1 1 1 tol
           PyFalse);
    [exact trunc_quiet | exact ceil_quiet | vm_compute; reflexivity].
Defined.

(** The last case of X23 is met: where the CPUs cannot be counted the run
    with [parallel = True] raises [TypeError] at [os.cpu_count()-1], with
    no NaN in [u0] or in a coarse result. *)
Lemma pool_raises_TypeError :
  (Parareal no_cpu_count decay (0, 1)%float [1%float] 2 2 2 tol PyTrue).2
  = Raise TypeError
  ∧ existsb isnan [1%float] = false
  ∧ existsb nan_call
      (Parareal no_cpu_count decay (0, 1)%float [1%float] 2 2 2 tol PyTrue).1
    = false.
Proof. split; [|split]; vm_compute; reflexivity. Qed.

Lemma nan_coarse_result_aborts_witness :
  Forall (fun e => event_iter e ≤ 1 ∧ (event_iter e = 1 → is_solve e))%nat
         (Parareal four_cpus square (0, 1)%float large 1 1 1 tol PyFalse).1.
Proof.
  apply (nan_coarse_result_aborts four_cpus square (0, 1)%float large 1 1 1
           tol PyFalse 1 0 large [PrimFloat.nan]);
    [lia | apply (list_elem_of_lookup_2 _ 2); vm_compute; reflexivity
     | reflexivity].
Defined.


End CoordinatorExtraWitnesses.
